(** * CrabCache client: framed connection, connection pool, pipeline executor,
      binary protocol and cluster client.

    A shallow embedding of [src/connection.ts], [src/pool.ts],
    [src/pipeline.ts], [src/protocol.ts] and of the cluster code of the
    client (statistics, node selection, health checks), with the properties
    of the specification stated over it, followed by further properties of
    the code. *)

From Stdlib Require Import ZArith QArith Lia Lqa DecimalString.
From Stdlib.Floats Require Import PrimFloat SpecFloat FloatOps.
From Stdlib.Strings Require Import String Byte.
From stdpp Require Import base option list gmap strings.

Local Open Scope string_scope.
Local Open Scope list_scope.

(** ** Buffers *)

(** A Node [Buffer] is a sequence of bytes. *)
Abbreviation Buffer := (list byte).

Definition CR : byte := x0d.
Definition LF : byte := x0a.
Definition CRLF : Buffer := [CR; LF].

(** [buf.indexOf('\r\n')]: position of the first CR LF pair, [None] for -1. *)
Fixpoint indexOfCRLF (buf : Buffer) : option nat :=
  match buf with
  | [] => None
  | c :: rest =>
      match rest with
      | d :: _ =>
          if Byte.eqb c CR && Byte.eqb d LF then Some 0%nat
          else S <$> indexOfCRLF rest
      | [] => None
      end
  end.

(** [buf.readUInt32LE(offset)]; out of range raises (here [None]). *)
Definition readUInt32LE (buf : Buffer) (offset : nat) : option Z :=
  match drop offset buf with
  | b0 :: b1 :: b2 :: b3 :: _ =>
      Some (Z.of_N (Byte.to_N b0)
            + Z.shiftl (Z.of_N (Byte.to_N b1)) 8
            + Z.shiftl (Z.of_N (Byte.to_N b2)) 16
            + Z.shiftl (Z.of_N (Byte.to_N b3)) 24)%Z
  | _ => None
  end.

(** [buf.slice(0, n)] and [buf.slice(n)] for an integer [n]; a negative [n]
    does not occur in the code below. *)
Definition sliceTo (buf : Buffer) (n : Z) : Buffer := take (Z.to_nat n) buf.
Definition sliceFrom (buf : Buffer) (n : Z) : Buffer := drop (Z.to_nat n) buf.

(** The text of a number that is not negative, as a template literal
    prints it. *)
Definition decimal (n : N) : string :=
  NilEmpty.string_of_uint (N.to_uint n).

(** The bytes of the replies PONG and OK of the text protocol. *)
Definition PONG : Buffer := [x50; x4f; x4e; x47].
Definition OK : Buffer := [x4f; x4b].

(** ** Framed connection ([src/connection.ts]) *)

Module Connection.

(** A promise is identified by a number; it is settled at most once. *)
Inductive Outcome :=
  | Fulfilled (response : Buffer)
  | Rejected (error : string).

(** One entry of [pendingResponses]: [resolve] and [reject] settle [promise]
    (and clear the timer), the timer [timeout] rejects [promise] with the
    message kept here. *)
Record PendingResponse := {
  promise : nat;
  timeout : string }.

Record t := {
  useBinaryProtocol : bool;
  connected : bool;
  responseBuffer : Buffer;
  pendingResponses : list PendingResponse;
  settled : gmap nat Outcome;
  nextPromise : nat;
  socketWrites : list Buffer }.

Definition set_buffer (b : Buffer) (c : t) : t :=
  {| useBinaryProtocol := useBinaryProtocol c; connected := connected c;
     responseBuffer := b; pendingResponses := pendingResponses c;
     settled := settled c; nextPromise := nextPromise c;
     socketWrites := socketWrites c |}.

Definition set_pending (p : list PendingResponse) (c : t) : t :=
  {| useBinaryProtocol := useBinaryProtocol c; connected := connected c;
     responseBuffer := responseBuffer c; pendingResponses := p;
     settled := settled c; nextPromise := nextPromise c;
     socketWrites := socketWrites c |}.

Definition set_settled (s : gmap nat Outcome) (c : t) : t :=
  {| useBinaryProtocol := useBinaryProtocol c; connected := connected c;
     responseBuffer := responseBuffer c; pendingResponses := pendingResponses c;
     settled := s; nextPromise := nextPromise c;
     socketWrites := socketWrites c |}.

Definition set_connected (b : bool) (c : t) : t :=
  {| useBinaryProtocol := useBinaryProtocol c; connected := b;
     responseBuffer := responseBuffer c; pendingResponses := pendingResponses c;
     settled := settled c; nextPromise := nextPromise c;
     socketWrites := socketWrites c |}.

(** Settling a promise: the first call of [resolve] or [reject] wins, later
    calls do nothing. *)
Definition settle (p : nat) (o : Outcome) (s : gmap nat Outcome)
  : gmap nat Outcome :=
  match s !! p with
  | Some _ => s
  | None => <[p := o]> s
  end.

(** The state of a connection made by the constructor and then connected. *)
Definition create (binary : bool) : t :=
  {| useBinaryProtocol := binary; connected := true;
     responseBuffer := []; pendingResponses := [];
     settled := ∅; nextPromise := 0; socketWrites := [] |}.

(** *** Sending *)

(** The body of [sendCommand] once the connection is up: a record is pushed,
    then [data] is written.  The result is the promise handed to the caller. *)
Definition sendCommand (data : Buffer) (c : t) : nat * t :=
  let p := nextPromise c in
  (p, {| useBinaryProtocol := useBinaryProtocol c; connected := connected c;
         responseBuffer := responseBuffer c;
         pendingResponses :=
           pendingResponses c ++ [{| promise := p; timeout := "Command timeout" |}];
         settled := settled c; nextPromise := S p;
         socketWrites := socketWrites c ++ [data] |}).

(** The write callback of [sendCommand] called with an error. *)
Definition sendCommand_writeError (error : string) (c : t) : t :=
  match reverse (pendingResponses c) with
  | [] => c
  | pending :: before =>
      set_settled (settle (promise pending) (Rejected error) (settled c))
        (set_pending (reverse before) c)
  end.

(** The [for] loop of [sendPipelineCommands]: one record per command. *)
Fixpoint pushPipelineRecords (commands : list Buffer) (next : nat)
  : list PendingResponse :=
  match commands with
  | [] => []
  | _ :: rest =>
      {| promise := next; timeout := "Pipeline command timeout" |}
        :: pushPipelineRecords rest (S next)
  end.

(** [sendPipelineCommands] up to the single write of [Buffer.concat(commands)];
    the result lists the promises of [responses], in order. *)
Definition sendPipelineCommands (commands : list Buffer) (c : t)
  : list nat * t :=
  let records := pushPipelineRecords commands (nextPromise c) in
  (promise <$> records,
   {| useBinaryProtocol := useBinaryProtocol c; connected := connected c;
      responseBuffer := responseBuffer c;
      pendingResponses := pendingResponses c ++ records;
      settled := settled c;
      nextPromise := (nextPromise c + length commands)%nat;
      socketWrites := socketWrites c ++ [concat commands] |}).

(** [while (pendingResponses.length > 0) { pop(); reject(error) }]: the
    records are rejected from the last one to the first one. *)
Definition rejectAllFromBack (error : string) (pending : list PendingResponse)
  (s : gmap nat Outcome) : gmap nat Outcome :=
  foldl (fun acc r => settle (promise r) (Rejected error) acc) s (reverse pending).

(** The write callback of [sendPipelineCommands] called with an error. *)
Definition sendPipelineCommands_writeError (error : string) (c : t) : t :=
  set_settled (rejectAllFromBack error (pendingResponses c) (settled c))
    (set_pending [] c).

(** The timer of a record expires: only the promise is rejected, the record
    stays where it is. *)
Definition timerExpires (r : PendingResponse) (c : t) : t :=
  set_settled (settle (promise r) (Rejected (timeout r)) (settled c)) c.

(** [rejectPendingResponses]: records are shifted from the front. *)
Definition rejectPendingResponses (error : string) (c : t) : t :=
  set_settled
    (foldl (fun acc r => settle (promise r) (Rejected error) acc)
       (settled c) (pendingResponses c))
    (set_pending [] c).

(** The handler of the [close] event of the socket. *)
Definition onClose (c : t) : t :=
  rejectPendingResponses "Connection closed" (set_connected false c).

(** [destroy()]. *)
Definition destroy (c : t) : t :=
  rejectPendingResponses "Connection destroyed" c.

(** *** Frame extraction *)

(** [extractTextResponse]: the frame and the rest of the buffer, or [None]
    for [null] (buffer unchanged). *)
Definition extractTextResponse (buf : Buffer) : option (Buffer * Buffer) :=
  match indexOfCRLF buf with
  | None => None
  | Some crlfIndex =>
      Some (sliceTo buf (Z.of_nat crlfIndex),
            sliceFrom buf (Z.of_nat crlfIndex + 2))
  end.

(** The body of the [try] block of [extractBinaryResponse]: it either
    returns or throws. *)
Inductive Completion (A : Type) :=
  | Return (a : A)
  | Throw (message : string).
Arguments Return {A} a.
Arguments Throw {A} message.

Definition extractBinaryResponse_try (buf : Buffer)
  : Completion (option (Buffer * Buffer)) :=
  match buf with
  | [] => Return None
  | responseType :: _ =>
      match responseType with
      | x10 | x11 | x12 =>
          Return (Some (sliceTo buf 1, sliceFrom buf 1))
      | x13 | x14 | x15 =>
          if (length buf <? 5)%nat then Return None
          else
            match readUInt32LE buf 1 with
            | None => Throw "RangeError"
            | Some len =>
                let totalLength := (1 + 4 + len)%Z in
                if (Z.of_nat (length buf) <? totalLength)%Z then Return None
                else Return (Some (sliceTo buf totalLength,
                                   sliceFrom buf totalLength))
            end
      | _ => Throw "Unknown response type"
      end
  end.

(** [extractBinaryResponse]: the [catch] clause turns every exception into
    [null]. *)
Definition extractBinaryResponse (buf : Buffer) : option (Buffer * Buffer) :=
  match extractBinaryResponse_try buf with
  | Return r => r
  | Throw _ => None
  end.

Definition extractResponse (binary : bool) (buf : Buffer)
  : option (Buffer * Buffer) :=
  if binary then extractBinaryResponse buf else extractTextResponse buf.

(** The [while] loop of [handleData]; every round that does not leave the
    loop shifts one record, so the recursion is on the queue. *)
Fixpoint processResponses (binary : bool) (buf : Buffer)
  (pending : list PendingResponse) (s : gmap nat Outcome)
  : Buffer * list PendingResponse * gmap nat Outcome :=
  match pending with
  | [] => (buf, pending, s)
  | first :: others =>
      match buf with
      | [] => (buf, pending, s)
      | _ :: _ =>
          match extractResponse binary buf with
          | Some (response, buf') =>
              processResponses binary buf' others
                (settle (promise first) (Fulfilled response) s)
          | None => (buf, pending, s)
          end
      end
  end.

Definition handleData (c : t) (data : Buffer) : t :=
  let '(buf, pending, s) :=
    processResponses (useBinaryProtocol c) (responseBuffer c ++ data)
      (pendingResponses c) (settled c) in
  set_settled s (set_pending pending (set_buffer buf c)).

End Connection.

(** ** Frames on the wire *)

(** What the framing rules call a complete frame, and the bytes that carry
    it: a text frame has no CR LF inside and is followed by CR LF; a binary
    frame is one of the three one-byte replies, or a tag, a 4-byte
    little-endian length and that many bytes. *)
Definition simpleTag (tag : byte) : bool :=
  Byte.eqb tag x10 || Byte.eqb tag x11 || Byte.eqb tag x12.

Definition payloadTag (tag : byte) : bool :=
  Byte.eqb tag x13 || Byte.eqb tag x14 || Byte.eqb tag x15.

Definition validBinaryFrame (frame : Buffer) : bool :=
  match frame with
  | [] => false
  | tag :: rest =>
      if simpleTag tag then bool_decide (rest = [])
      else if payloadTag tag then
        match readUInt32LE frame 1 with
        | Some len => (Z.of_nat (length frame) =? 5 + len)%Z
        | None => false
        end
      else false
  end.

Definition validFrame (binary : bool) (frame : Buffer) : bool :=
  if binary then validBinaryFrame frame
  else bool_decide (indexOfCRLF frame = None).

Definition wire (binary : bool) (frame : Buffer) : Buffer :=
  if binary then frame else frame ++ CRLF.

Module ConnectionOps.
Import Connection.

(** Commands are enqueued by [sendCommand] or by [sendPipelineCommands]. *)
Inductive Send :=
  | Command (data : Buffer)
  | Pipeline (commands : list Buffer).

Definition send (op : Send) (c : t) : list nat * t :=
  match op with
  | Command data => let '(p, c') := sendCommand data c in ([p], c')
  | Pipeline commands => sendPipelineCommands commands c
  end.

Fixpoint sendAll (ops : list Send) (c : t) : list nat * t :=
  match ops with
  | [] => ([], c)
  | op :: rest =>
      let '(ps, c1) := send op c in
      let '(qs, c2) := sendAll rest c1 in
      (ps ++ qs, c2)
  end.

(** Promise numbers not yet handed out are not settled. *)
Definition fresh (c : t) : Prop :=
  ∀ p, is_Some (settled c !! p) → (p < nextPromise c)%nat.

(** What the queue does with a stream of complete frames. *)
Definition fulfilAll (records : list PendingResponse) (frames : list Buffer)
  (s : gmap nat Outcome) : gmap nat Outcome :=
  foldl (fun acc rf => settle (promise rf.1) (Fulfilled rf.2) acc) s
    (zip records frames).

(** What sending does to the connection. *)
Definition enqueued (c c' : t) (ps : list nat) : Prop :=
  ps = seq (nextPromise c) (length ps)
  ∧ nextPromise c' = (nextPromise c + length ps)%nat
  ∧ promise <$> pendingResponses c' = (promise <$> pendingResponses c) ++ ps
  ∧ (∃ records, pendingResponses c' = pendingResponses c ++ records)
  ∧ settled c' = settled c
  ∧ responseBuffer c' = responseBuffer c
  ∧ useBinaryProtocol c' = useBinaryProtocol c
  ∧ connected c' = connected c.

(** Two requests sent on a new text connection; the first one times out,
    then both replies arrive. *)
Definition two_requests : t :=
  (sendCommand [x42] (sendCommand [x41] (create false)).2).2.

Definition first_request : PendingResponse :=
  {| promise := 0; timeout := "Command timeout" |}.

Definition second_request : PendingResponse :=
  {| promise := 1; timeout := "Command timeout" |}.


(** A binary connection with one request outstanding whose buffer received
    a byte that is no response tag. *)
Definition stalled : t :=
  handleData (sendCommand [x01] (create true)).2 [xff].

(** A request is outstanding when a pipeline of two commands is sent. *)
Definition one_then_pipeline : t :=
  (sendPipelineCommands [[x42]; [x43]] (sendCommand [x41] (create false)).2).2.

End ConnectionOps.

(** ** Connection pool ([src/pool.ts]) *)

(** [Array.prototype.findIndex]; [None] stands for -1. *)
Fixpoint findIndex {A : Type} (f : A → bool) (l : list A) : option nat :=
  match l with
  | [] => None
  | x :: rest => if f x then Some 0%nat else S <$> findIndex f rest
  end.

(** [Array.prototype.find]: the element found, with its position, which
    stands for the reference to the object in the array. *)
Fixpoint arrayFind {A : Type} (f : A → bool) (l : list A) : option (nat * A) :=
  match l with
  | [] => None
  | x :: rest =>
      if f x then Some (0%nat, x)
      else prod_map S id <$> arrayFind f rest
  end.

Module Metrics.

Record t := {
  activeConnections : nat;
  idleConnections : nat;
  totalCreated : nat;
  poolHits : nat;
  poolMisses : nat;
  healthCheckFailures : nat }.

Definition initial : t :=
  {| activeConnections := 0; idleConnections := 0; totalCreated := 0;
     poolHits := 0; poolMisses := 0; healthCheckFailures := 0 |}.

Definition hit (m : t) : t :=
  {| activeConnections := activeConnections m;
     idleConnections := idleConnections m; totalCreated := totalCreated m;
     poolHits := S (poolHits m); poolMisses := poolMisses m;
     healthCheckFailures := healthCheckFailures m |}.

Definition miss (m : t) : t :=
  {| activeConnections := activeConnections m;
     idleConnections := idleConnections m; totalCreated := totalCreated m;
     poolHits := poolHits m; poolMisses := S (poolMisses m);
     healthCheckFailures := healthCheckFailures m |}.

Definition created (m : t) : t :=
  {| activeConnections := activeConnections m;
     idleConnections := idleConnections m; totalCreated := S (totalCreated m);
     poolHits := poolHits m; poolMisses := poolMisses m;
     healthCheckFailures := healthCheckFailures m |}.

Definition failure (m : t) : t :=
  {| activeConnections := activeConnections m;
     idleConnections := idleConnections m; totalCreated := totalCreated m;
     poolHits := poolHits m; poolMisses := poolMisses m;
     healthCheckFailures := S (healthCheckFailures m) |}.

Definition counted (active idle : nat) (m : t) : t :=
  {| activeConnections := active; idleConnections := idle;
     totalCreated := totalCreated m; poolHits := poolHits m;
     poolMisses := poolMisses m;
     healthCheckFailures := healthCheckFailures m |}.

End Metrics.

Module Pool.

(** A [CrabCacheConnection] object is known by its identity, a number; the
    pool only asks it [isConnected()], probes it and destroys it. *)
Record PooledConnection := {
  connection : nat;
  inUse : bool;
  createdAt : Z;
  lastUsed : Z;
  healthCheckFailures : nat }.

Record t := {
  poolSize : Z;
  connectionTimeout : Z;
  connections : list PooledConnection;
  metrics : Metrics.t;
  (** the connection objects whose [isConnected()] is true *)
  connectedSockets : gset nat;
  (** the connection objects that were destroyed *)
  destroyed : gset nat;
  (** how many connection objects were constructed *)
  allocated : nat }.

Definition with_connections (l : list PooledConnection) (p : t) : t :=
  {| poolSize := poolSize p; connectionTimeout := connectionTimeout p;
     connections := l; metrics := metrics p;
     connectedSockets := connectedSockets p; destroyed := destroyed p;
     allocated := allocated p |}.

Definition with_metrics (m : Metrics.t) (p : t) : t :=
  {| poolSize := poolSize p; connectionTimeout := connectionTimeout p;
     connections := connections p; metrics := m;
     connectedSockets := connectedSockets p; destroyed := destroyed p;
     allocated := allocated p |}.

(** The pool made by the constructor. *)
Definition create (size timeout : Z) : t :=
  {| poolSize := size; connectionTimeout := timeout; connections := [];
     metrics := Metrics.initial; connectedSockets := ∅; destroyed := ∅;
     allocated := 0 |}.

Definition isConnected (p : t) (c : nat) : bool :=
  bool_decide (c ∈ connectedSockets p).

Definition updateMetrics (p : t) : t :=
  with_metrics
    (Metrics.counted
       (length (List.filter inUse (connections p)))
       (length (List.filter (fun conn => negb (inUse conn)) (connections p)))
       (metrics p))
    p.

(** [conn => !conn.inUse && conn.connection.isConnected()] *)
Definition idleConnected (p : t) (conn : PooledConnection) : bool :=
  negb (inUse conn) && isConnected p (connection conn).

(** [conn => conn.connection === connection] *)
Definition wraps (c : nat) (conn : PooledConnection) : bool :=
  (connection conn =? c)%nat.

Definition markInUse (now : Z) (conn : PooledConnection) : PooledConnection :=
  {| connection := connection conn; inUse := true;
     createdAt := createdAt conn; lastUsed := now;
     healthCheckFailures := healthCheckFailures conn |}.

Definition markReleased (now : Z) (conn : PooledConnection) : PooledConnection :=
  {| connection := connection conn; inUse := false;
     createdAt := createdAt conn; lastUsed := now;
     healthCheckFailures := healthCheckFailures conn |}.

Definition setFailures (n : nat) (conn : PooledConnection) : PooledConnection :=
  {| connection := connection conn; inUse := inUse conn;
     createdAt := createdAt conn; lastUsed := lastUsed conn;
     healthCheckFailures := n |}.

(** The branch taken when an idle connected record is found at index [i]:
    the record object is updated in place. *)
Definition takeIdle (now : Z) (i : nat) (p : t) : t :=
  updateMetrics
    (with_metrics (Metrics.hit (metrics p))
       (with_connections (alter (markInUse now) i (connections p)) p)).

(** [createConnection]: a connection object is constructed and connected;
    when [connect()] fails the exception leaves the function before any
    record is pushed.  [connectOk] tells how the connect attempt ends. *)
Definition createConnection (now : Z) (connectOk : bool) (p : t)
  : t * option nat :=
  let c := allocated p in
  if connectOk then
    (updateMetrics
       {| poolSize := poolSize p; connectionTimeout := connectionTimeout p;
          connections :=
            connections p ++
              [{| connection := c; inUse := true; createdAt := now;
                  lastUsed := now; healthCheckFailures := 0 |}];
          metrics := Metrics.created (metrics p);
          connectedSockets := {[c]} ∪ connectedSockets p;
          destroyed := destroyed p;
          allocated := S c |},
     Some c)
  else
    ({| poolSize := poolSize p; connectionTimeout := connectionTimeout p;
        connections := connections p; metrics := metrics p;
        connectedSockets := connectedSockets p; destroyed := destroyed p;
        allocated := S c |},
     None).

(** Timers of an [acquire()] that waits. *)
Inductive Timer :=
  | AcquisitionTimeout
  | CheckForConnection.

Global Instance Timer_eq_dec : EqDecision Timer.
Proof. solve_decision. Defined.

(** The promise of a waiting [acquire()] and its timers, each with the time
    at which it is due. *)
Record Waiter := {
  result : option (nat + string);
  timers : list (Z * Timer) }.

Definition resolve (c : nat) (w : Waiter) : Waiter :=
  {| result := match result w with Some r => Some r | None => Some (inl c) end;
     timers := timers w |}.

Definition reject (error : string) (w : Waiter) : Waiter :=
  {| result := match result w with Some r => Some r | None => Some (inr error) end;
     timers := timers w |}.

Definition setTimeout (due : Z) (timer : Timer) (w : Waiter) : Waiter :=
  {| result := result w; timers := timers w ++ [(due, timer)] |}.

Definition clearTimeout (timer : Timer) (w : Waiter) : Waiter :=
  {| result := result w;
     timers := List.filter (fun t => negb (bool_decide (t.2 = timer))) (timers w) |}.

(** [checkForConnection], run at time [now]. *)
Definition checkForConnection (now : Z) (p : t) (w : Waiter) : t * Waiter :=
  match arrayFind (idleConnected p) (connections p) with
  | Some (i, available) =>
      (takeIdle now i p,
       resolve (connection available) (clearTimeout AcquisitionTimeout w))
  | None => (p, setTimeout (now + 10) CheckForConnection w)
  end.

Inductive AcquireResult :=
  | Acquired (c : nat)
  | ConnectFailed
  | Waiting (w : Waiter).

(** [acquire], called at time [now]. *)
Definition acquire (now : Z) (connectOk : bool) (p : t) : t * AcquireResult :=
  match arrayFind (idleConnected p) (connections p) with
  | Some (i, idleConnection) =>
      (takeIdle now i p, Acquired (connection idleConnection))
  | None =>
      if (Z.of_nat (length (connections p)) <? poolSize p)%Z then
        match createConnection now connectOk p with
        | (p', Some c) => (with_metrics (Metrics.miss (metrics p')) p', Acquired c)
        | (p', None) => (p', ConnectFailed)
        end
      else
        let w := {| result := None;
                    timers := [(now + connectionTimeout p, AcquisitionTimeout)]%Z |} in
        let '(p', w') := checkForConnection now p w in
        (p', Waiting w')
  end.

(** [release], called at time [now]. *)
Definition release (now : Z) (c : nat) (p : t) : t :=
  match arrayFind (wraps c) (connections p) with
  | Some (i, pooledConnection) =>
      updateMetrics
        (with_connections (alter (markReleased now) i (connections p)) p)
  | None => p
  end.

Definition removeConnection (c : nat) (p : t) : t :=
  match findIndex (wraps c) (connections p) with
  | Some index => updateMetrics (with_connections (delete index (connections p)) p)
  | None => p
  end.

(** [connection.destroy()]: the socket is torn down. *)
Definition destroy (c : nat) (p : t) : t :=
  {| poolSize := poolSize p; connectionTimeout := connectionTimeout p;
     connections := connections p; metrics := metrics p;
     connectedSockets := connectedSockets p ∖ {[c]};
     destroyed := {[c]} ∪ destroyed p;
     allocated := allocated p |}.

(** The [catch] block of a health probe, also the body of
    [handleConnectionError], for the record at index [i]. *)
Definition recordFailure (i : nat) (p : t) : t :=
  match connections p !! i with
  | Some pooledConnection =>
      let failures := S (healthCheckFailures pooledConnection) in
      let p1 :=
        with_metrics (Metrics.failure (metrics p))
          (with_connections
             (alter (setFailures failures) i (connections p)) p) in
      if (3 <? failures)%nat then
        destroy (connection pooledConnection)
          (removeConnection (connection pooledConnection) p1)
      else p1
  | None => p
  end.

Definition handleConnectionError (c : nat) (p : t) : t :=
  match arrayFind (wraps c) (connections p) with
  | Some (i, pooledConnection) => recordFailure i p
  | None => p
  end.

(** One probe of [performHealthCheck], for the connection [c] of an idle
    record; [probeOk c] tells whether the PING sent to [c] is answered, and
    [connectedAtStart c] what [isConnected()] said when the check began.  The
    closure holds the record object; here the record is found again by the
    connection it wraps. *)
Definition probe (connectedAtStart : nat → bool) (probeOk : nat → bool)
  (p : t) (c : nat) : t :=
  match arrayFind (wraps c) (connections p) with
  | Some (i, pooledConnection) =>
      if connectedAtStart c && probeOk c then
        with_connections (alter (setFailures 0) i (connections p)) p
      else recordFailure i p
  | None => p
  end.

(** The connections that get a PING: idle and connected. *)
Definition probed (p : t) : list nat :=
  connection <$> List.filter (idleConnected p) (connections p).

(** [performHealthCheck], with the probes settled one after the other in
    the order of the array; each probe touches the record of its own
    connection and the counters of the pool. *)
Definition performHealthCheck (probeOk : nat → bool) (p : t) : t :=
  updateMetrics
    (foldl (probe (isConnected p) probeOk) p
       (connection <$>
          List.filter (fun conn => negb (inUse conn)) (connections p))).

(** [warmUp]; [connectOk] tells how each connect attempt ends. *)
Fixpoint createAndRelease (count : nat) (now : Z) (connectOk : nat → bool)
  (p : t) : t :=
  match count with
  | O => p
  | S count' =>
      match createConnection now (connectOk (allocated p)) p with
      | (p', Some c) => createAndRelease count' now connectOk (release now c p')
      | (p', None) => createAndRelease count' now connectOk p'
      end
  end.

Definition connectionsToCreate (minConnections : Z) (p : t) : Z :=
  (Z.min minConnections (poolSize p) - Z.of_nat (length (connections p)))%Z.

Definition warmUp (now : Z) (minConnections : Z) (connectOk : nat → bool)
  (p : t) : t :=
  if (connectionsToCreate minConnections p <=? 0)%Z then p
  else createAndRelease (Z.to_nat (connectionsToCreate minConnections p))
         now connectOk p.

(** The connection objects held by the pool. *)
Definition ids (p : t) : list nat := connection <$> connections p.

(** Every record wraps a connection object of its own, constructed by this
    pool. *)
Definition wf (p : t) : Prop :=
  NoDup (ids p) ∧ ∀ c, c ∈ ids p → (c < allocated p)%nat.

(** The record that [warmUp] leaves for the connection [c]. *)
Definition warmRecord (now : Z) (c : nat) : PooledConnection :=
  {| connection := c; inUse := false; createdAt := now; lastUsed := now;
     healthCheckFailures := 0 |}.

(** [count] calls of [acquire()] in a row, with the connection handed out
    by each. *)
Fixpoint acquireMany (count : nat) (now : Z) (connectOk : bool) (p : t)
  : t * list AcquireResult :=
  match count with
  | O => (p, [])
  | S count' =>
      let '(p1, r) := acquire now connectOk p in
      let '(p2, rs) := acquireMany count' now connectOk p1 in
      (p2, r :: rs)
  end.

(** How many records [acquire()] can hand out without connecting. *)
Definition idleCount (p : t) : nat :=
  length (List.filter (idleConnected p) (connections p)).

Definition isAcquired (r : AcquireResult) : bool :=
  match r with Acquired _ => true | _ => false end.

(** Updating or removing the record of a connection, seen as a pass over
    the array. *)
Definition onRecord (c : nat) (h : PooledConnection → option PooledConnection)
  (conn : PooledConnection) : option PooledConnection :=
  if wraps c conn then h conn else Some conn.

(** What one probe makes of the record of the connection [c]. *)
Definition probeStep (connectedAtStart probeOk : nat → bool) (c : nat)
  (conn : PooledConnection) : option PooledConnection :=
  if connectedAtStart c && probeOk c then Some (setFailures 0 conn)
  else if (3 <? S (healthCheckFailures conn))%nat then None
  else Some (setFailures (S (healthCheckFailures conn)) conn).

(** What a health check makes of one record. *)
Definition probeFails (probeOk : nat → bool) (p : t) (conn : PooledConnection)
  : bool :=
  negb (inUse conn)
  && negb (isConnected p (connection conn) && probeOk (connection conn)).

Definition healthChecked (probeOk : nat → bool) (p : t)
  (conn : PooledConnection) : option PooledConnection :=
  if inUse conn then Some conn
  else if isConnected p (connection conn) && probeOk (connection conn)
  then Some (setFailures 0 conn)
  else if (3 <? S (healthCheckFailures conn))%nat then None
  else Some (setFailures (S (healthCheckFailures conn)) conn).

(** What can happen to a pool. *)
Inductive Op :=
  | OpAcquire (now : Z) (connectOk : bool)
  | OpCheckForConnection (now : Z) (w : Waiter)
  | OpRelease (now : Z) (c : nat)
  | OpHealthCheck (probeOk : nat → bool)
  | OpWarmUp (now : Z) (minConnections : Z) (connectOk : nat → bool)
  | OpConnectionError (c : nat)
  | OpConnectionClosed (c : nat).

(** The pool after the operation, and the connection handed out by it. *)
Definition run (op : Op) (p : t) : t * option nat :=
  match op with
  | OpAcquire now connectOk =>
      match acquire now connectOk p with
      | (p', Acquired c) => (p', Some c)
      | (p', _) => (p', None)
      end
  | OpCheckForConnection now w =>
      match checkForConnection now p w with
      | (p', w') =>
          (p', match result w, result w' with
               | None, Some (inl c) => Some c
               | _, _ => None
               end)
      end
  | OpRelease now c => (release now c p, None)
  | OpHealthCheck probeOk => (performHealthCheck probeOk p, None)
  | OpWarmUp now minConnections connectOk =>
      (warmUp now minConnections connectOk p, None)
  | OpConnectionError c => (handleConnectionError c p, None)
  | OpConnectionClosed c => (removeConnection c p, None)
  end.

(** The connections handed out along a sequence of operations. *)
Fixpoint runAll (ops : list Op) (p : t) : t * list nat :=
  match ops with
  | [] => (p, [])
  | op :: rest =>
      let '(p1, handed) := run op p in
      let '(p2, more) := runAll rest p1 in
      (p2, match handed with Some c => c :: more | None => more end)
  end.

(** The connection object [c] was constructed and is not held. *)
Definition gone (c : nat) (p : t) : Prop :=
  (c < allocated p)%nat ∧ c ∉ ids p.

(** From [p] to [p'] the pool only dropped connections or constructed new
    ones. *)
Definition grows (p p' : t) : Prop :=
  (allocated p ≤ allocated p')%nat
  ∧ ∀ x, x ∈ ids p' → x ∈ ids p ∨ (allocated p ≤ x)%nat.

(** A pool of capacity 4 with one connection, in use. *)
Definition oneInUse : t := (acquire 100 true (create 4 5000)).1.

(** A pool of capacity 2 with two connections, the first in use, the second
    idle. *)
Definition oneIdle : t :=
  release 130 1 (acquire 120 true (acquire 110 true (create 2 5000)).1).1.

(** A pool of capacity 2 with two connections, both in use. *)
Definition twoInUse : t :=
  (acquire 120 true (acquire 110 true (create 2 5000)).1).1.

(** [oneIdle] after three health checks in which no PING was answered: the
    idle record has failed three probes. *)
Definition threeFailures : t :=
  performHealthCheck (fun _ => false)
    (performHealthCheck (fun _ => false)
       (performHealthCheck (fun _ => false) oneIdle)).

(** [wf], decided. *)
Definition wfb (p : t) : bool :=
  bool_decide (NoDup (ids p))
  && forallb (fun c => (c <? allocated p)%nat) (ids p).

(** A pool of capacity 1 whose only connection is in use. *)
Definition saturated : t := (acquire 100 true (create 1 5000)).1.

(** *** The timers of a waiting [acquire()] *)

Record World := {
  clock : Z;
  pool : t;
  waiter : Waiter }.

(** The armed timer that is due first; of two timers due at the same time,
    the one armed first. *)
Fixpoint nextTimer (armed : list (Z * Timer)) : option (Z * Timer) :=
  match armed with
  | [] => None
  | timer :: rest =>
      match nextTimer rest with
      | Some later => if (later.1 <? timer.1)%Z then Some later else Some timer
      | None => Some timer
      end
  end.

Fixpoint disarm (timer : Z * Timer) (armed : list (Z * Timer))
  : list (Z * Timer) :=
  match armed with
  | [] => []
  | t :: rest => if bool_decide (t = timer) then rest else t :: disarm timer rest
  end.

(** The event loop runs the callback of the next timer. *)
Definition tick (w : World) : World :=
  match nextTimer (timers (waiter w)) with
  | None => w
  | Some (due, timer) =>
      let waiting :=
        {| result := result (waiter w);
           timers := disarm (due, timer) (timers (waiter w)) |} in
      match timer with
      | AcquisitionTimeout =>
          {| clock := due; pool := pool w;
             waiter := reject "Pool acquisition timeout" waiting |}
      | CheckForConnection =>
          let '(p', w') := checkForConnection due (pool w) waiting in
          {| clock := due; pool := p'; waiter := w' |}
      end
  end.

End Pool.

(** ** Protocol decoding ([src/protocol.ts]) *)

Module Protocol.

(** A decoded response, by its [type] field.  Text obtained with
    [toString()] is a [string]; the [data] of a stats response is kept as
    the text that [JSON.parse] is given. *)
Inductive Decoded :=
  | DOk
  | DPong
  | DNull
  | DError (message : string)
  | DValue (data : Buffer)
  | DStats (data : string)
  | DOther (type : string).

(** [ToInt32]: the result of the bitwise operators of JS. *)
Definition toInt32 (z : Z) : Z :=
  ((z + 2 ^ 31) mod 2 ^ 32 - 2 ^ 31)%Z.

(** [buf.slice(start, end)]: negative positions count from the end. *)
Definition slice (buf : Buffer) (start stop : Z) : Buffer :=
  let len := Z.of_nat (length buf) in
  let clamp i := if (i <? 0)%Z then Z.max (len + i) 0 else Z.min i len in
  if (clamp stop <=? clamp start)%Z then []
  else take (Z.to_nat (clamp stop - clamp start)) (drop (Z.to_nat (clamp start)) buf).

(** The loop of [decodeVarint]. *)
Fixpoint decodeVarint_loop (data : Buffer) (result shift bytesRead : Z)
  : Connection.Completion (Z * Z) :=
  match data with
  | [] => Connection.Return (result, bytesRead)
  | byte :: rest =>
      let b := Z.of_N (Byte.to_N byte) in
      let bytesRead := (bytesRead + 1)%Z in
      let result :=
        toInt32 (Z.lor result (toInt32 (Z.shiftl (Z.land b 127) shift))) in
      if (Z.land b 128 =? 0)%Z then Connection.Return (result, bytesRead)
      else
        let shift := (shift + 7)%Z in
        if (32 <=? shift)%Z then Connection.Throw "Varint too long"
        else decodeVarint_loop rest result shift bytesRead
  end.

Definition decodeVarint (data : Buffer) : Connection.Completion (Z * Z) :=
  decodeVarint_loop data 0 0 0.

Section Decoder.
Variable toString : Buffer → string.

(** The length-prefixed part of an error, value or stats response. *)
Definition payload (data : Buffer) : Connection.Completion Buffer :=
  match decodeVarint (slice data 1 (Z.of_nat (length data))) with
  | Connection.Throw e => Connection.Throw e
  | Connection.Return (len, lenBytes) =>
      let cursor := (1 + lenBytes)%Z in
      Connection.Return (slice data cursor (cursor + len))
  end.

Definition decodeBinaryResponse (data : Buffer) : Connection.Completion Decoded :=
  match data with
  | [] => Connection.Throw "Empty binary response"
  | responseType :: _ =>
      match responseType with
      | x10 => Connection.Return DOk
      | x11 => Connection.Return DPong
      | x12 => Connection.Return DNull
      | x13 =>
          match payload data with
          | Connection.Return message => Connection.Return (DError (toString message))
          | Connection.Throw e => Connection.Throw e
          end
      | x14 =>
          match payload data with
          | Connection.Return value => Connection.Return (DValue value)
          | Connection.Throw e => Connection.Throw e
          end
      | x15 =>
          match payload data with
          | Connection.Return stats => Connection.Return (DStats (toString stats))
          | Connection.Throw e => Connection.Throw e
          end
      | _ =>
          Connection.Throw
            (String.append "Unknown binary response type: "
               (decimal (Byte.to_N responseType)))
      end
  end.

End Decoder.

End Protocol.

(** ** Pipeline executor ([src/pipeline.ts]) *)

Module Pipeline.
Import Connection Protocol.

(** [ProtocolEncoder] and [ProtocolDecoder], as the pipeline uses them. *)
Record Codec := {
  encodeTextCommand : string → list Buffer → Completion Buffer;
  encodeBinaryCommand : string → list Buffer → Completion Buffer;
  decodeTextResponse : Buffer → Completion Decoded;
  decodeBinaryResponse : Buffer → Completion Decoded }.

Record PipelineCommand := {
  command : string;
  args : list Buffer }.

Inductive CrabCacheValue :=
  | Str (s : string)
  | Buf (data : Buffer)
  | Null
  | Stats (data : string).

Record PipelineResponse := {
  success : bool;
  value : option CrabCacheValue;
  error : option string }.

Definition convertToResponse (decoded : Decoded) : PipelineResponse :=
  match decoded with
  | DOk => {| success := true; value := Some (Str "OK"); error := None |}
  | DPong => {| success := true; value := Some (Str "PONG"); error := None |}
  | DNull => {| success := true; value := Some Null; error := None |}
  | DValue data => {| success := true; value := Some (Buf data); error := None |}
  | DStats data => {| success := true; value := Some (Stats data); error := None |}
  | DError message => {| success := false; value := None; error := Some message |}
  | DOther _ =>
      {| success := false; value := None; error := Some "Unknown response type" |}
  end.

Section Execute.
Variable codec : Codec.
Variable useBinaryProtocol : bool.

(** What [connection.sendPipelineCommands] answers to a batch: the raw
    responses, or the error it rejects with. *)
Variable sendPipelineCommands : list Buffer → Completion (list Buffer).

Definition encode (cmd : PipelineCommand) : Completion Buffer :=
  if useBinaryProtocol then encodeBinaryCommand codec (command cmd) (args cmd)
  else encodeTextCommand codec (command cmd) (args cmd).

(** [commands.map(cmd => ...)]: the first exception ends the loop. *)
Fixpoint encodeAll (commands : list PipelineCommand) : Completion (list Buffer) :=
  match commands with
  | [] => Return []
  | cmd :: rest =>
      match encode cmd with
      | Throw e => Throw e
      | Return data =>
          match encodeAll rest with
          | Throw e => Throw e
          | Return more => Return (data :: more)
          end
      end
  end.

(** The body of the [for] loop over the responses, with its own
    [try]/[catch]. *)
Definition decodeOne (response : Buffer) : PipelineResponse :=
  match (if useBinaryProtocol then decodeBinaryResponse codec response
         else decodeTextResponse codec response) with
  | Return decoded => convertToResponse decoded
  | Throw message =>
      {| success := false; value := None; error := Some message |}
  end.

(** What a call of [execute()] leaves behind: the command list of the
    pipeline, the batches handed to the connection, and what the call
    returns or throws. *)
Record Executed := {
  commandsAfter : list PipelineCommand;
  batchesSent : list (list Buffer);
  completion : Completion (list PipelineResponse) }.

Definition execute (commands : list PipelineCommand) : Executed :=
  match commands with
  | [] => {| commandsAfter := commands; batchesSent := []; completion := Return [] |}
  | _ :: _ =>
      match encodeAll commands with
      | Throw e =>
          {| commandsAfter := []; batchesSent := []; completion := Throw e |}
      | Return encodedCommands =>
          match sendPipelineCommands encodedCommands with
          | Throw e =>
              {| commandsAfter := []; batchesSent := [encodedCommands];
                 completion := Throw e |}
          | Return responses =>
              {| commandsAfter := []; batchesSent := [encodedCommands];
                 completion := Return (decodeOne <$> responses) |}
          end
      end
  end.

End Execute.

(** *** The executor of the built library ([lib/pipeline.js])

    Its [connection] is a connection or a pool, told apart by an [acquire]
    method: from a pool a connection is acquired before the [try] and
    released in the [finally]. *)



Section ExecuteOn.
Variable codec : Codec.
Variable useBinaryProtocol : bool.



End ExecuteOn.

(** A codec for examples: the binary decoder of the source with bytes read
    as characters, and text commands made of the command name alone. *)
Definition exampleCodec : Codec :=
  {| encodeTextCommand := fun name _ => Return (list_byte_of_string name ++ CRLF);
     encodeBinaryCommand := fun name _ => Return [x01];
     decodeTextResponse := fun data => Return (DValue data);
     decodeBinaryResponse := Protocol.decodeBinaryResponse string_of_list_byte |}.

End Pipeline.

(** ** Cluster statistics ([getClusterStats] of the client) *)

Module Cluster.

(** JS numbers: the counters are integers, the hit ratio a fraction; the
    arithmetic is exact here. *)
Record CrabCacheStats := {
  total_operations : Z;
  get_operations : Z;
  put_operations : Z;
  del_operations : Z;
  cache_hits : Z;
  cache_misses : Z;
  hit_ratio : Q;
  memory_usage : Z;
  active_connections : Z;
  uptime_seconds : Z }.

Record ClusterNode := {
  host : string;
  port : Z;
  weight : Z;
  active : bool }.

Record ClusterStats := {
  aggregated : CrabCacheStats;
  cluster_nodes : Z;
  cluster_active_nodes : Z;
  cluster_throughput : Q;
  cluster_load_balance_efficiency : Q;
  cluster_fault_tolerance_rate : Q;
  cluster_network_latency_p99_ms : Q }.

Definition zero : CrabCacheStats :=
  {| total_operations := 0; get_operations := 0; put_operations := 0;
     del_operations := 0; cache_hits := 0; cache_misses := 0; hit_ratio := 0;
     memory_usage := 0; active_connections := 0; uptime_seconds := 0 |}.

(** The function given to [nodeStats.reduce]. *)
Definition combine (acc stats : CrabCacheStats) : CrabCacheStats :=
  {| total_operations := total_operations acc + total_operations stats;
     get_operations := get_operations acc + get_operations stats;
     put_operations := put_operations acc + put_operations stats;
     del_operations := del_operations acc + del_operations stats;
     cache_hits := cache_hits acc + cache_hits stats;
     cache_misses := cache_misses acc + cache_misses stats;
     hit_ratio := (hit_ratio acc + hit_ratio stats) / 2;
     memory_usage := memory_usage acc + memory_usage stats;
     active_connections := active_connections acc + active_connections stats;
     uptime_seconds := Z.max (uptime_seconds acc) (uptime_seconds stats) |}.

Definition aggregate (nodeStats : list CrabCacheStats) : CrabCacheStats :=
  foldl combine zero nodeStats.

(** [getClusterStats]: [statsOf] gives the STATS answer of a node, [None]
    when the node fails or answers something else; the other arguments are
    the client metrics and the clock the derived fields are computed from. *)
Definition getClusterStats (clusterNodes : list ClusterNode)
  (statsOf : ClusterNode → option CrabCacheStats)
  (totalRequests now loadBalancingEfficiency averageLatency : Q) : ClusterStats :=
  let activeNodes := List.filter active clusterNodes in
  let nodeStats := omap statsOf activeNodes in
  {| aggregated := aggregate nodeStats;
     cluster_nodes := Z.of_nat (length clusterNodes);
     cluster_active_nodes := Z.of_nat (length activeNodes);
     cluster_throughput := totalRequests / (now / 1000);
     cluster_load_balance_efficiency := loadBalancingEfficiency;
     cluster_fault_tolerance_rate :=
       inject_Z (Z.of_nat (length activeNodes))
       / inject_Z (Z.of_nat (length clusterNodes));
     cluster_network_latency_p99_ms := averageLatency |}.

(** The arithmetic mean of the hit ratios of the nodes. *)
Definition meanHitRatio (nodeStats : list CrabCacheStats) : Q :=
  (foldr (fun stats sum => hit_ratio stats + sum) 0 nodeStats
   / inject_Z (Z.of_nat (length nodeStats)))%Q.

Definition sumOf (field : CrabCacheStats → Z) (nodeStats : list CrabCacheStats) : Z :=
  foldr (fun stats sum => field stats + sum)%Z 0%Z nodeStats.

Definition maxOf (field : CrabCacheStats → Z) (nodeStats : list CrabCacheStats) : Z :=
  foldr (fun stats m => Z.max (field stats) m) 0%Z nodeStats.

(** A node that answered every request from its cache. *)
Definition allHits : CrabCacheStats :=
  {| total_operations := 10; get_operations := 10; put_operations := 0;
     del_operations := 0; cache_hits := 10; cache_misses := 0; hit_ratio := 1;
     memory_usage := 64; active_connections := 1; uptime_seconds := 5 |}.

Definition oneNode : list ClusterNode :=
  [{| host := "localhost"; port := 8000; weight := 1; active := true |}].

End Cluster.

(** ** More of the framed connection ([src/connection.ts]) *)

Module ConnectionEvents.
Import Connection ConnectionOps.

(** A text connection fresh from the constructor on which a frame arrives
    before any request was sent. *)
Definition unsolicited : t := handleData (create false) (wire false PONG).

End ConnectionEvents.

(** ** Invariants of the connection pool ([src/pool.ts]) *)

Module PoolInvariants.
Import Pool.

(** The pool holds no more records than [poolSize] allows. *)
Definition withinCapacity (p : t) : Prop :=
  (Z.of_nat (length (connections p)) ≤ Z.max 0 (poolSize p))%Z.

(** The active and idle counts of the metrics are the numbers of records in
    use and not in use. *)
Definition inSync (p : t) : Prop :=
  Metrics.activeConnections (metrics p)
    = length (List.filter inUse (connections p))
  ∧ Metrics.idleConnections (metrics p)
    = length (List.filter (fun conn => negb (inUse conn)) (connections p)).

(** From [p] to [p'] no record was added and the capacity is the same. *)
Definition noLarger (p p' : t) : Prop :=
  poolSize p' = poolSize p
  ∧ (length (connections p') ≤ length (connections p))%nat.

(** An [acquire()] begun at time 200 on [saturated], which waits: its
    acquisition timeout is due at 5200, its next poll at 210. *)
Definition waitingWorld : World :=
  {| clock := 200; pool := saturated;
     waiter := {| result := None;
                  timers := [(5200, AcquisitionTimeout);
                             (210, CheckForConnection)]%Z |} |}.

End PoolInvariants.

(** ** Calls of [acquire()] that overlap

    [acquire()] waits for [connect()] between its test of the pool size and
    the push of the new record; other calls run in between. *)

Module PoolOverlap.
Import Pool.

(** How far [acquire()] gets before it first waits. *)
Inductive Begun :=
  | Finished (r : AcquireResult)
  | Connecting (c : nat).

(** [acquire()] up to its first [await]: with no idle connected record and
    room in the pool, [createConnection] constructs a connection object and
    waits for its [connect()]. *)
Definition acquireBegins (now : Z) (p : t) : t * Begun :=
  match arrayFind (idleConnected p) (connections p) with
  | Some (i, idleConnection) =>
      (takeIdle now i p, Finished (Acquired (connection idleConnection)))
  | None =>
      if (Z.of_nat (length (connections p)) <? poolSize p)%Z then
        ({| poolSize := poolSize p; connectionTimeout := connectionTimeout p;
            connections := connections p; metrics := metrics p;
            connectedSockets := connectedSockets p; destroyed := destroyed p;
            allocated := S (allocated p) |},
         Connecting (allocated p))
      else
        let w := {| result := None;
                    timers := [(now + connectionTimeout p, AcquisitionTimeout)]%Z |} in
        let '(p', w') := checkForConnection now p w in
        (p', Finished (Waiting w'))
  end.

(** [acquire()] from the end of [connect()] on, for the connection [c]: the
    record is pushed, then the miss is counted; a failed connect raises. *)
Definition acquireResumes (now : Z) (connectOk : bool) (c : nat) (p : t)
  : t * AcquireResult :=
  if connectOk then
    let p' :=
      updateMetrics
        {| poolSize := poolSize p; connectionTimeout := connectionTimeout p;
           connections :=
             connections p ++
               [{| connection := c; inUse := true; createdAt := now;
                   lastUsed := now; healthCheckFailures := 0 |}];
           metrics := Metrics.created (metrics p);
           connectedSockets := {[c]} ∪ connectedSockets p;
           destroyed := destroyed p;
           allocated := allocated p |} in
    (with_metrics (Metrics.miss (metrics p')) p', Acquired c)
  else (p, ConnectFailed).

(** [count] calls of [acquire()] made before any [connect()] has ended, with
    the connections they wait for. *)
Fixpoint beginAll (count : nat) (now : Z) (p : t) : t * list nat :=
  match count with
  | O => (p, [])
  | S count' =>
      let '(p1, begun) := acquireBegins now p in
      let '(p2, connecting) := beginAll count' now p1 in
      (p2, match begun with
           | Connecting c => c :: connecting
           | Finished _ => connecting
           end)
  end.

(** The [connect()] of each of these connections ends well, one after the
    other. *)
Definition resumeAll (now : Z) (connecting : list nat) (p : t) : t :=
  foldl (fun q c => (acquireResumes now true c q).1) p connecting.

Definition overlappingAcquires (count : nat) (now : Z) (p : t) : t :=
  let '(p1, connecting) := beginAll count now p in
  resumeAll now connecting p1.

(** The record pushed for a new connection. *)
Definition newRecord (now : Z) (c : nat) : PooledConnection :=
  {| connection := c; inUse := true; createdAt := now; lastUsed := now;
     healthCheckFailures := 0 |}.

End PoolOverlap.

(** ** Batched execution of a pipeline ([executeBatched], [src/pipeline.ts]) *)

(** [Array.prototype.slice(start, end)]: negative positions count from the
    end, positions are clamped to the array. *)
Definition arraySlice {A : Type} (l : list A) (start stop : Z) : list A :=
  let len := Z.of_nat (length l) in
  let clamp i := if (i <? 0)%Z then Z.max (len + i) 0 else Z.min i len in
  if (clamp stop <=? clamp start)%Z then []
  else take (Z.to_nat (clamp stop - clamp start)) (drop (Z.to_nat (clamp start)) l).

Module Batched.
Import Connection Protocol Pipeline.

Section ExecuteBatched.
Variable codec : Codec.
Variable useBinaryProtocol : bool.
Variable sendPipelineCommands : list Buffer → Completion (list Buffer).

(** The [for] loop of [executeBatched], for an integer [batchSize]: [fuel]
    bounds the number of times the loop condition is tested, [None] means
    that the loop is still running when the fuel is used up.  Each batch
    runs [execute] on a pipeline of its own; an exception of a batch leaves
    the loop. *)
Fixpoint batchLoop (fuel : nat) (commandsCopy : list PipelineCommand)
  (batchSize i : Z) (allResults : list PipelineResponse)
  (sent : list (list Buffer))
  : option (list (list Buffer) * Completion (list PipelineResponse)) :=
  match fuel with
  | O => None
  | S fuel' =>
      if (i <? Z.of_nat (length commandsCopy))%Z then
        let batch := arraySlice commandsCopy i (i + batchSize) in
        let batchRun :=
          execute codec useBinaryProtocol sendPipelineCommands batch in
        match completion batchRun with
        | Throw e => Some (sent ++ batchesSent batchRun, Throw e)
        | Return batchResults =>
            batchLoop fuel' commandsCopy batchSize (i + batchSize)
              (allResults ++ batchResults) (sent ++ batchesSent batchRun)
        end
      else Some (sent, Return allResults)
  end.

(** [executeBatched]: the command list is copied and cleared before the
    first batch. *)
Definition executeBatched (fuel : nat) (commands : list PipelineCommand)
  (batchSize : Z) : option Executed :=
  match commands with
  | [] =>
      Some {| commandsAfter := commands; batchesSent := [];
              completion := Return [] |}
  | _ :: _ =>
      match batchLoop fuel commands batchSize 0 [] [] with
      | Some (sent, outcome) =>
          Some {| commandsAfter := []; batchesSent := sent;
                  completion := outcome |}
      | None => None
      end
  end.

End ExecuteBatched.

(** Five PING commands. *)
Definition fivePings : list PipelineCommand :=
  replicate 5 {| command := "PING"; args := [] |}.

(** A connection that answers every command of a batch with PONG. *)
Definition pongs (batch : list Buffer) : list Buffer :=
  (fun _ => [x11]) <$> batch.

End Batched.

(** ** Binary protocol with 4-byte lengths ([src/protocol.ts]) *)

(** The byte that a buffer stores for a number: its value modulo 256. *)
Definition byteOfZ (z : Z) : byte :=
  match Byte.of_N (Z.to_N (z mod 256)) with
  | Some b => b
  | None => x00
  end.

(** [ToUint32]: the operand of [>>>]. *)
Definition toUint32 (z : Z) : Z := (z mod 2 ^ 32)%Z.

Module ProtocolLE.
Import Connection Protocol.

(** [encodeU32LE]: [writeUInt32LE] raises for a value outside 0..2^32-1. *)
Definition encodeU32LE (value : Z) : Completion Buffer :=
  if ((0 <=? value) && (value <=? 4294967295))%Z then
    Return [byteOfZ value; byteOfZ (Z.shiftr value 8);
            byteOfZ (Z.shiftr value 16); byteOfZ (Z.shiftr value 24)]
  else Throw "ERR_OUT_OF_RANGE".

(** [BigInt(ttl)] and [writeBigUInt64LE] on a fresh 8-byte buffer; [None] is
    a number that is not finite ([NaN]), for which [BigInt] raises. *)
Definition encodeU64LE (value : option Z) : Completion Buffer :=
  match value with
  | None => Throw "RangeError"
  | Some v =>
      if ((0 <=? v) && (v <? 2 ^ 64))%Z then
        Return ((fun i => byteOfZ (Z.shiftr v (8 * Z.of_nat i))) <$> seq 0 8)
      else Throw "ERR_OUT_OF_RANGE"
  end.

(** An argument of a command: a string (held as its UTF-8 bytes) or a
    buffer. *)
Inductive Arg :=
  | Text (s : string)
  | Bytes (b : Buffer).

(** [Buffer.isBuffer(arg) ? arg : Buffer.from(arg)] *)
Definition argBytes (a : Arg) : Buffer :=
  match a with
  | Bytes b => b
  | Text s => list_byte_of_string s
  end.

(** Truthiness: only the empty string is falsy. *)
Definition truthy (a : Arg) : bool :=
  match a with
  | Text EmptyString => false
  | _ => true
  end.

Definition bind {A B : Type} (m : Completion A) (f : A → Completion B)
  : Completion B :=
  match m with
  | Return a => f a
  | Throw e => Throw e
  end.

Section Codec.
Variable toUpperCase : string → string.
Variable toString : Buffer → string.
(** [parseInt]; [None] is [NaN]. *)
Variable parseInt : string → option Z.

Definition argText (a : Arg) : string :=
  match a with
  | Text s => s
  | Bytes b => toString b
  end.

(** A buffer after its length. *)
Definition withLength (b : Buffer) : Completion Buffer :=
  bind (encodeU32LE (Z.of_nat (length b))) (fun len => Return (len ++ b)).

Definition encodeBinaryCommand (command : string) (args : list Arg)
  : Completion Buffer :=
  let name := toUpperCase command in
  if String.eqb name "PING" then Return [x01]
  else if String.eqb name "PUT" then
    match args with
    | key :: value :: more =>
        let ttl :=
          match more with
          | a :: _ => if truthy a then Some (parseInt (argText a)) else None
          | [] => None
          end in
        bind (withLength (argBytes key)) (fun k =>
        bind (withLength (argBytes value)) (fun v =>
        match ttl with
        | Some t =>
            bind (encodeU64LE t) (fun t8 =>
              Return (x02 :: k ++ v ++ [x01] ++ t8))
        | None => Return (x02 :: k ++ v ++ [x00])
        end))
    | _ => Throw "PUT requires key and value"
    end
  else if String.eqb name "GET" then
    match args with
    | key :: _ =>
        bind (withLength (argBytes key)) (fun k => Return (x03 :: k))
    | [] => Throw "GET requires key"
    end
  else if String.eqb name "DEL" then
    match args with
    | key :: _ =>
        bind (withLength (argBytes key)) (fun k => Return (x04 :: k))
    | [] => Throw "DEL requires key"
    end
  else if String.eqb name "EXPIRE" then
    match args with
    | key :: ttl :: _ =>
        let expireTtl := parseInt (argText ttl) in
        bind (withLength (argBytes key)) (fun k =>
        bind (encodeU64LE expireTtl) (fun t8 =>
          Return (x05 :: k ++ t8)))
    | _ => Throw "EXPIRE requires key and ttl"
    end
  else if String.eqb name "STATS" then Return [x06]
  else if String.eqb name "METRICS" then Return [x07]
  else Throw (String.append "Unknown command: " command).

(** The length-prefixed part of an error, value or stats response. *)
Definition payload (what : string) (data : Buffer) : Completion Buffer :=
  if (length data <? 5)%nat then
    Throw (String.append "Invalid "
             (String.append what " response: too short"))
  else
    match readUInt32LE data 1 with
    | None => Throw "ERR_OUT_OF_RANGE"
    | Some len =>
        let cursor := 5%Z in
        if (Z.of_nat (length data) <? cursor + len)%Z then
          Throw (String.append "Invalid "
                   (String.append what " response: insufficient data"))
        else Return (slice data cursor (cursor + len))
    end.

Definition decodeBinaryResponse (data : Buffer) : Completion Decoded :=
  match data with
  | [] => Throw "Empty binary response"
  | responseType :: _ =>
      match responseType with
      | x10 => Return DOk
      | x11 => Return DPong
      | x12 => Return DNull
      | x13 =>
          bind (payload "error" data) (fun message =>
            Return (DError (toString message)))
      | x14 => bind (payload "value" data) (fun value => Return (DValue value))
      | x15 =>
          bind (payload "stats" data) (fun stats =>
            Return (DStats (toString stats)))
      | _ =>
          Throw (String.append "Unknown binary response type: "
                   (decimal (Byte.to_N responseType)))
      end
  end.

End Codec.

End ProtocolLE.

(** ** Variable-length integers ([encodeVarint], [decodeVarint]) *)

Module Varint.
Import Connection Protocol.

(** The [while] loop of [encodeVarint] and the push after it: the numbers
    pushed to [result].  [fuel] bounds the number of tests of the loop
    condition. *)
Fixpoint encodeVarint_loop (fuel : nat) (num : Z) : option (list Z) :=
  match fuel with
  | O => None
  | S fuel' =>
      if (128 <=? num)%Z then
        cons (Z.lor (Z.land (toInt32 num) 255) 128)
          <$> encodeVarint_loop fuel' (Z.shiftr (toUint32 num) 7)
      else Some [Z.land (toInt32 num) 255]
  end.

Definition encodeVarint (fuel : nat) (value : Z) : option Buffer :=
  (fun result : list Z => byteOfZ <$> result)
    <$> encodeVarint_loop fuel value.

End Varint.

(** ** Node selection and health checks of the cluster client ([index.js]) *)

(** The number (a double) that an integer is: the nearest one. *)
Definition numberOfZ (z : Z) : float :=
  SF2Prim (SpecFloat.binary_normalize 53 1024 z 0 false).

Module LoadBalancer.
Import Connection Cluster.

(** [a < b] on numbers. *)
Definition Qlt_bool (a b : Q) : bool := negb (Qle_bool b a).

(** [selectRoundRobin]: the node and the incremented [currentNodeIndex];
    [nodes[NaN]] of an empty array is [undefined]. *)
Definition selectRoundRobin (nodes : list ClusterNode) (currentNodeIndex : nat)
  : option ClusterNode * nat :=
  (nodes !! (currentNodeIndex mod length nodes)%nat, S currentNodeIndex).

(** [k] calls of [selectRoundRobin] in a row on the same array. *)
Fixpoint roundRobinCalls (k : nat) (nodes : list ClusterNode)
  (currentNodeIndex : nat) : list (option ClusterNode) * nat :=
  match k with
  | O => ([], currentNodeIndex)
  | S k' =>
      let '(node, index) := selectRoundRobin nodes currentNodeIndex in
      let '(more, index') := roundRobinCalls k' nodes index in
      (node :: more, index')
  end.

(** The [for] loop of [selectWeighted], in the arithmetic of doubles. *)
Fixpoint weightedLoop (random : float) (nodes : list ClusterNode)
  : option ClusterNode :=
  match nodes with
  | [] => None
  | node :: rest =>
      let random := PrimFloat.sub random (numberOfZ (weight node)) in
      if PrimFloat.leb random 0%float then Some node
      else weightedLoop random rest
  end.

Definition totalWeight (nodes : list ClusterNode) : float :=
  foldl (fun sum node => PrimFloat.add sum (numberOfZ (weight node)))
    0%float nodes.

(** [selectWeighted]; [mathRandom] is the value of [Math.random()]. *)
Definition selectWeighted (mathRandom : float) (nodes : list ClusterNode)
  : option ClusterNode :=
  match weightedLoop (PrimFloat.mul mathRandom (totalWeight nodes)) nodes with
  | Some node => Some node
  | None => head nodes
  end.

Inductive HealthStatus :=
  | Unknown
  | Healthy
  | Unhealthy.

(** The metrics kept for a node: the fields that [initializeCluster], the
    health checks and the selection strategies write or read. *)
Record NodeMetrics := {
  metricsActive : bool;
  metricsWeight : Z;
  requestCount : Z;
  errorCount : Z;
  averageLatency : float;
  lastHealthCheck : Z;
  healthCheckStatus : HealthStatus }.

(** [array.reduce(f)] without an initial value. *)
Definition reduce1 {A : Type} (f : A → A → A) (l : list A) : Completion A :=
  match l with
  | [] => Throw "TypeError: Reduce of empty array with no initial value"
  | first :: rest => Return (foldl f first rest)
  end.

Definition returned {A : Type} (m : Completion A) : Completion (option A) :=
  match m with
  | Return a => Return (Some a)
  | Throw e => Throw e
  end.

(** [map.set(key, value)] on a [Map], kept in insertion order. *)
Fixpoint mapSet {V : Type} (key : string) (value : V)
  (m : list (string * V)) : list (string * V) :=
  match m with
  | [] => [(key, value)]
  | (k, v) :: rest =>
      if String.eqb k key then (key, value) :: rest
      else (k, v) :: mapSet key value rest
  end.

(** An entry of [config.nodes]; [weight] and [active] may be left out. *)
Record NodeConfig := {
  configHost : string;
  configPort : Z;
  configWeight : option Z;
  configActive : option bool }.

(** The cluster state of the client. *)
Record t := {
  clusterNodes : list (string * ClusterNode);
  nodeConnections : gmap string Pool.t;
  nodeMetrics : gmap string NodeMetrics;
  failoverEvents : Z;
  currentNodeIndex : nat }.

Definition empty : t :=
  {| clusterNodes := []; nodeConnections := ∅; nodeMetrics := ∅;
     failoverEvents := 0; currentNodeIndex := 0 |}.

Section Client.
(** The text of a port number in a template literal. *)
Variable portText : Z → string.

(** [`${node.host}:${node.port}`] *)
Definition nodeIdOf (host : string) (port : Z) : string :=
  String.append host (String.append ":" (portText port)).

Definition nodeId (node : ClusterNode) : string :=
  nodeIdOf (host node) (port node).

(** The body of the [forEach] of [initializeCluster]. *)
Definition addNode (poolSize connectionTimeout now : Z) (c : t)
  (node : NodeConfig) : t :=
  let id := nodeIdOf (configHost node) (configPort node) in
  let clusterNode :=
    {| host := configHost node; port := configPort node;
       weight := match configWeight node with
                 | Some w => if (w =? 0)%Z then 1%Z else w
                 | None => 1%Z
                 end;
       active := match configActive node with
                 | Some false => false
                 | _ => true
                 end |} in
  {| clusterNodes := mapSet id clusterNode (clusterNodes c);
     nodeConnections :=
       <[id := Pool.create poolSize connectionTimeout]> (nodeConnections c);
     nodeMetrics :=
       <[id := {| metricsActive := active clusterNode;
                  metricsWeight := weight clusterNode;
                  requestCount := 0; errorCount := 0;
                  averageLatency := 0%float;
                  lastHealthCheck := now; healthCheckStatus := Unknown |}]>
         (nodeMetrics c);
     failoverEvents := failoverEvents c;
     currentNodeIndex := currentNodeIndex c |}.

Definition initializeCluster (poolSize connectionTimeout now : Z)
  (nodes : list NodeConfig) (c : t) : t :=
  foldl (addNode poolSize connectionTimeout now) c nodes.

Definition setActive (b : bool) (node : ClusterNode) : ClusterNode :=
  {| host := host node; port := port node; weight := weight node;
     active := b |}.

(** What a health round makes of an entry whose PING is answered or not,
    and the entries that a round counts as failovers. *)
Definition probedNode (ping : string → option Z) (entry : string * ClusterNode)
  : string * ClusterNode :=
  (entry.1, setActive (bool_decide (is_Some (ping entry.1))) entry.2).

Definition failsOver (ping : string → option Z) (entry : string * ClusterNode)
  : bool :=
  active entry.2 && negb (bool_decide (is_Some (ping entry.1))).

(** One callback of [performHealthChecks], for the entry [(id, node)] of
    [clusterNodes]; [ping id] is the latency measured when the PING sent
    through the pool of the node is answered, [None] when acquiring or
    sending raises.  The result is the node afterwards, with the metrics and
    the failover counter. *)
Definition checkNode (now : Z) (ping : string → option Z)
  (id : string) (node : ClusterNode)
  (connections : gmap string Pool.t)
  (metrics : gmap string NodeMetrics) (failovers : Z)
  : ClusterNode * gmap string NodeMetrics * Z :=
  match connections !! id with
  | None => (node, metrics, failovers)
  | Some _ =>
      match ping id with
      | Some latency =>
          match metrics !! id with
          | Some m =>
              (setActive true node,
               <[id := {| metricsActive := metricsActive m;
                          metricsWeight := metricsWeight m;
                          requestCount := requestCount m;
                          errorCount := errorCount m;
                          averageLatency :=
                            PrimFloat.div
                              (PrimFloat.add (averageLatency m)
                                 (numberOfZ latency))
                              2%float;
                          lastHealthCheck := now;
                          healthCheckStatus := Healthy |}]> metrics,
               failovers)
          | None => (node, metrics, failovers)
          end
      | None =>
          let metrics' :=
            match metrics !! id with
            | Some m =>
                <[id := {| metricsActive := metricsActive m;
                           metricsWeight := metricsWeight m;
                           requestCount := requestCount m;
                           errorCount := errorCount m + 1;
                           averageLatency := averageLatency m;
                           lastHealthCheck := now;
                           healthCheckStatus := Unhealthy |}]> metrics
            | None => metrics
            end in
          if active node then (setActive false node, metrics', (failovers + 1)%Z)
          else (node, metrics', failovers)
      end
  end.

(** The callbacks of one round, entry after entry. *)
Fixpoint checkNodes (now : Z) (ping : string → option Z)
  (entries : list (string * ClusterNode))
  (connections : gmap string Pool.t)
  (metrics : gmap string NodeMetrics) (failovers : Z)
  : list (string * ClusterNode) * gmap string NodeMetrics * Z :=
  match entries with
  | [] => ([], metrics, failovers)
  | (id, node) :: rest =>
      let '(node', metrics', failovers') :=
        checkNode now ping id node connections metrics failovers in
      let '(rest', metrics'', failovers'') :=
        checkNodes now ping rest connections metrics' failovers' in
      ((id, node') :: rest', metrics'', failovers'')
  end.

Definition performHealthChecks (now : Z) (ping : string → option Z) (c : t)
  : t :=
  let '(nodes, metrics, failovers) :=
    checkNodes now ping (clusterNodes c) (nodeConnections c) (nodeMetrics c)
      (failoverEvents c) in
  {| clusterNodes := nodes; nodeConnections := nodeConnections c;
     nodeMetrics := metrics; failoverEvents := failovers;
     currentNodeIndex := currentNodeIndex c |}.

Section Selection.
Variable metrics : gmap string NodeMetrics.

(** The function given to [reduce] by [selectResourceBased]. *)
Definition lessLoaded (best current : ClusterNode) : ClusterNode :=
  match metrics !! nodeId best, metrics !! nodeId current with
  | None, _ => current
  | Some _, None => best
  | Some bestMetrics, Some currentMetrics =>
      if (requestCount currentMetrics <? requestCount bestMetrics)%Z
      then current else best
  end.

Definition selectResourceBased (nodes : list ClusterNode)
  : Completion ClusterNode :=
  reduce1 lessLoaded nodes.

Definition score (node : ClusterNode) (m : NodeMetrics) : Q :=
  (inject_Z (weight node) / inject_Z (requestCount m + 1))%Q.

(** The function given to [reduce] by [selectAdaptive]. *)
Definition betterScore (best current : ClusterNode) : ClusterNode :=
  match metrics !! nodeId best, metrics !! nodeId current with
  | None, _ => current
  | Some _, None => best
  | Some bestMetrics, Some currentMetrics =>
      let bestScore := score best bestMetrics in
      let currentScore := score current currentMetrics in
      if Qlt_bool bestScore currentScore then current else best
  end.

Definition selectAdaptive (nodes : list ClusterNode) : Completion ClusterNode :=
  reduce1 betterScore nodes.

End Selection.

(** [selectNode]: [Return None] is [null]; the second component is the
    state afterwards ([currentNodeIndex] moves on in a round-robin
    selection). *)
Definition selectNode (enableCluster : bool) (loadBalancingStrategy : string)
  (mathRandom : float) (c : t) : Completion (option ClusterNode) * t :=
  if negb enableCluster then (Return None, c)
  else
    let activeNodes := List.filter active (snd <$> clusterNodes c) in
    match activeNodes with
    | [] => (Throw "No active nodes available in cluster", c)
    | _ :: _ =>
        let roundRobin :=
          let '(node, index) :=
            selectRoundRobin activeNodes (currentNodeIndex c) in
          (Return node,
           {| clusterNodes := clusterNodes c;
              nodeConnections := nodeConnections c;
              nodeMetrics := nodeMetrics c;
              failoverEvents := failoverEvents c;
              currentNodeIndex := index |}) in
        if String.eqb loadBalancingStrategy "round_robin" then roundRobin
        else if String.eqb loadBalancingStrategy "weighted" then
          (Return (selectWeighted mathRandom activeNodes), c)
        else if String.eqb loadBalancingStrategy "resource_based" then
          (returned (selectResourceBased (nodeMetrics c) activeNodes), c)
        else if String.eqb loadBalancingStrategy "adaptive" then
          (returned (selectAdaptive (nodeMetrics c) activeNodes), c)
        else roundRobin
    end.

End Client.

(** Operations on the cluster state after [initializeCluster]. *)
Inductive Op :=
  | HealthRound (now : Z) (ping : string → option Z)
  | Select (loadBalancingStrategy : string) (mathRandom : float).

Definition run (portText : Z → string) (op : Op) (c : t) : t :=
  match op with
  | HealthRound now ping => performHealthChecks now ping c
  | Select strategy mathRandom =>
      (selectNode portText true strategy mathRandom c).2
  end.

Definition runAll (portText : Z → string) (ops : list Op) (c : t) : t :=
  foldl (fun c op => run portText op c) c ops.

(** Every node of the cluster is filed under its own node id, with a pool
    and with metrics that count no request. *)
Definition covered (portText : Z → string) (c : t) : Prop :=
  ∀ id node, (id, node) ∈ clusterNodes c →
    id = nodeId portText node
    ∧ is_Some (nodeConnections c !! id)
    ∧ ∃ m, nodeMetrics c !! id = Some m ∧ requestCount m = 0%Z.

(** The PING of the first of the three nodes is not answered. *)
Definition firstNodeDown (id : string) : option Z :=
  if String.eqb id "a:8001" then None else Some 3%Z.

(** Decimal digits of a port number, for examples. *)
Definition examplePort (port : Z) : string :=
  if (port =? 8001)%Z then "8001"
  else if (port =? 8002)%Z then "8002"
  else if (port =? 8003)%Z then "8003"
  else "0".

Definition nodeA : ClusterNode :=
  {| host := "a"; port := 8001; weight := 1; active := true |}.
Definition nodeB : ClusterNode :=
  {| host := "b"; port := 8002; weight := 3; active := true |}.
Definition nodeC : ClusterNode :=
  {| host := "c"; port := 8003; weight := 1; active := true |}.

Definition metricsWith (load : Z) : NodeMetrics :=
  {| metricsActive := true; metricsWeight := 1; requestCount := load;
     errorCount := 0; averageLatency := 0%float; lastHealthCheck := 0;
     healthCheckStatus := Unknown |}.

(** Metrics of three nodes of which the second has the fewest requests. *)
Definition loadedMetrics : gmap string NodeMetrics :=
  <["a:8001" := metricsWith 5]>
    (<["b:8002" := metricsWith 2]> (<["c:8003" := metricsWith 5]> ∅)).

Definition threeNodes : list NodeConfig :=
  [{| configHost := "a"; configPort := 8001; configWeight := Some 1%Z;
      configActive := None |};
   {| configHost := "b"; configPort := 8002; configWeight := Some 3%Z;
      configActive := None |};
   {| configHost := "c"; configPort := 8003; configWeight := None;
      configActive := Some false |}].

Definition threeNodeCluster : t :=
  initializeCluster examplePort 10 5000 0 threeNodes empty.

End LoadBalancer.

(** * Properties *)

(** ** Framing *)

Section Framing.

Lemma indexOfCRLF_cons (c d : byte) (rest : Buffer) :
  indexOfCRLF (c :: d :: rest) =
  if Byte.eqb c CR && Byte.eqb d LF then Some 0%nat
  else S <$> indexOfCRLF (d :: rest).
Proof. reflexivity. Qed.

Lemma indexOfCRLF_bound (buf : Buffer) (i : nat) :
  indexOfCRLF buf = Some i → (i + 2 ≤ length buf)%nat.
Proof.
  revert i. induction buf as [|c [|d rest] IH]; intros i; [done..|].
  rewrite indexOfCRLF_cons.
  destruct (Byte.eqb c CR && Byte.eqb d LF).
  - intros [= <-]. simpl. lia.
  - destruct (indexOfCRLF (d :: rest)) as [j|]; [|done].
    intros [= <-]. specialize (IH j eq_refl). simpl in *. lia.
Qed.

Lemma indexOfCRLF_app (buf data : Buffer) (i : nat) :
  indexOfCRLF buf = Some i → indexOfCRLF (buf ++ data) = Some i.
Proof.
  revert i. induction buf as [|c [|d rest] IH]; intros i; [done..|].
  change ((c :: d :: rest) ++ data) with (c :: d :: (rest ++ data)).
  rewrite !indexOfCRLF_cons.
  destruct (Byte.eqb c CR && Byte.eqb d LF); [done|].
  destruct (indexOfCRLF (d :: rest)) as [j|]; [|done].
  intros [= <-].
  change (d :: rest ++ data) with ((d :: rest) ++ data).
  by rewrite (IH j eq_refl).
Qed.

(** The first CR LF of a frame without CR LF, followed by CR LF, is the
    terminator. *)
Lemma indexOfCRLF_wire (frame rest : Buffer) :
  indexOfCRLF frame = None →
  indexOfCRLF (frame ++ CRLF ++ rest) = Some (length frame).
Proof.
  induction frame as [|c [|d frame] IH]; [done| |].
  - intros _. change ([c] ++ CRLF ++ rest) with (c :: CR :: LF :: rest).
    rewrite indexOfCRLF_cons.
    destruct (Byte.eqb c CR); done.
  - change ((c :: d :: frame) ++ CRLF ++ rest)
      with (c :: d :: (frame ++ CRLF ++ rest)).
    rewrite !indexOfCRLF_cons.
    destruct (Byte.eqb c CR && Byte.eqb d LF); [done|].
    intros Hnone.
    change (d :: frame ++ CRLF ++ rest) with ((d :: frame) ++ CRLF ++ rest).
    rewrite IH; [done|].
    by destruct (indexOfCRLF (d :: frame)).
Qed.

End Framing.
Section Extraction.
Import Connection.

Lemma extractTextResponse_app (buf data frame rest : Buffer) :
  extractTextResponse buf = Some (frame, rest) →
  extractTextResponse (buf ++ data) = Some (frame, rest ++ data).
Proof.
  unfold extractTextResponse.
  destruct (indexOfCRLF buf) as [i|] eqn:Hi; [|done].
  intros [= <- <-].
  rewrite (indexOfCRLF_app _ data _ Hi).
  apply indexOfCRLF_bound in Hi.
  unfold sliceTo, sliceFrom.
  rewrite take_app_le, drop_app_le by lia. done.
Qed.

Lemma extractTextResponse_wire (frame rest : Buffer) :
  indexOfCRLF frame = None →
  extractTextResponse (frame ++ CRLF ++ rest) = Some (frame, rest).
Proof.
  intros Hnone. unfold extractTextResponse.
  rewrite (indexOfCRLF_wire _ rest Hnone).
  unfold sliceTo, sliceFrom. f_equal. f_equal.
  - rewrite Nat2Z.id. by rewrite take_app_length.
  - replace (Z.to_nat (Z.of_nat (length frame) + 2)) with (length frame + 2)%nat by lia.
    rewrite drop_app_add'; done.
Qed.

(** The [switch] of [extractBinaryResponse], by the class of the tag. *)
Lemma extractBinaryResponse_try_eq (buf : Buffer) :
  extractBinaryResponse_try buf =
  match buf with
  | [] => Return None
  | tag :: _ =>
      if simpleTag tag then Return (Some (sliceTo buf 1, sliceFrom buf 1))
      else if payloadTag tag then
        if (length buf <? 5)%nat then Return None
        else
          match readUInt32LE buf 1 with
          | None => Throw "RangeError"
          | Some len =>
              let totalLength := (1 + 4 + len)%Z in
              if (Z.of_nat (length buf) <? totalLength)%Z then Return None
              else Return (Some (sliceTo buf totalLength,
                                 sliceFrom buf totalLength))
          end
      else Throw "Unknown response type"
  end.
Proof. destruct buf as [|tag rest]; [done|]. destruct tag; reflexivity. Qed.

Lemma readUInt32LE_app (buf data : Buffer) (len : Z) :
  readUInt32LE buf 1 = Some len → readUInt32LE (buf ++ data) 1 = Some len.
Proof.
  destruct buf as [|t [|b0 [|b1 [|b2 [|b3 rest]]]]]; try done.
Qed.

Lemma readUInt32LE_nonneg (buf : Buffer) (off : nat) (len : Z) :
  readUInt32LE buf off = Some len → (0 ≤ len)%Z.
Proof.
  unfold readUInt32LE.
  destruct (drop off buf) as [|b0 [|b1 [|b2 [|b3 rest]]]]; try done.
  intros [= <-]. rewrite !Z.shiftl_mul_pow2 by lia. lia.
Qed.

Lemma extractBinaryResponse_app (buf data frame rest : Buffer) :
  extractBinaryResponse buf = Some (frame, rest) →
  extractBinaryResponse (buf ++ data) = Some (frame, rest ++ data).
Proof.
  unfold extractBinaryResponse. rewrite !extractBinaryResponse_try_eq.
  destruct buf as [|tag buf']; [done|].
  rewrite <- app_comm_cons.
  destruct (simpleTag tag) eqn:Hs.
  { intros [= <- <-]. done. }
  destruct (payloadTag tag); [|done].
  rewrite app_comm_cons.
  set (buf := tag :: buf').
  destruct (Nat.ltb_spec (length buf) 5) as [Hlt|Hge]; [done|].
  destruct (readUInt32LE buf 1) as [len|] eqn:Hlen; [|done].
  pose proof (readUInt32LE_nonneg _ _ _ Hlen) as Hpos.
  rewrite (readUInt32LE_app _ data _ Hlen).
  cbv zeta.
  destruct (Z.ltb_spec (Z.of_nat (length buf)) (1 + 4 + len)) as [Hshort|Hlong];
    [done|].
  intros [= <- <-].
  destruct (Nat.ltb_spec (length (buf ++ data)) 5) as [Hlt'|_].
  { rewrite length_app in Hlt'. lia. }
  destruct (Z.ltb_spec (Z.of_nat (length (buf ++ data))) (1 + 4 + len))
    as [Hshort'|_].
  { rewrite length_app in Hshort'. lia. }
  unfold sliceTo, sliceFrom.
  rewrite take_app_le, drop_app_le by lia. done.
Qed.

Lemma extractResponse_app (binary : bool) (buf data frame rest : Buffer) :
  extractResponse binary buf = Some (frame, rest) →
  extractResponse binary (buf ++ data) = Some (frame, rest ++ data).
Proof.
  destruct binary; [apply extractBinaryResponse_app|apply extractTextResponse_app].
Qed.

End Extraction.

Section Correlation.
Import Connection ConnectionOps.

Lemma extractBinaryResponse_wire (frame rest : Buffer) :
  validBinaryFrame frame = true →
  extractBinaryResponse (frame ++ rest) = Some (frame, rest).
Proof.
  unfold extractBinaryResponse, validBinaryFrame.
  rewrite extractBinaryResponse_try_eq.
  destruct frame as [|tag body]; [done|].
  rewrite <- app_comm_cons.
  destruct (simpleTag tag).
  { intros ->%bool_decide_eq_true. done. }
  destruct (payloadTag tag); [|done].
  rewrite app_comm_cons. set (frame := tag :: body).
  destruct (readUInt32LE frame 1) as [len|] eqn:Hlen; [|done].
  intros Hsize%Z.eqb_eq.
  pose proof (readUInt32LE_nonneg _ _ _ Hlen) as Hpos.
  rewrite (readUInt32LE_app _ rest _ Hlen). cbv zeta.
  destruct (Nat.ltb_spec (length (frame ++ rest)) 5) as [Hlt|_].
  { rewrite length_app in Hlt. lia. }
  destruct (Z.ltb_spec (Z.of_nat (length (frame ++ rest))) (1 + 4 + len))
    as [Hshort|_].
  { rewrite length_app in Hshort. lia. }
  unfold sliceTo, sliceFrom.
  replace (Z.to_nat (1 + 4 + len)) with (length frame) by lia.
  by rewrite take_app_length, drop_app_length.
Qed.

Lemma extractResponse_wire (binary : bool) (frame rest : Buffer) :
  validFrame binary frame = true →
  extractResponse binary (wire binary frame ++ rest) = Some (frame, rest).
Proof.
  destruct binary; simpl.
  - apply extractBinaryResponse_wire.
  - intros Hnone%bool_decide_eq_true. rewrite <- app_assoc.
    by apply extractTextResponse_wire.
Qed.

Lemma wire_nonempty (binary : bool) (frame : Buffer) :
  validFrame binary frame = true → wire binary frame ≠ [].
Proof.
  destruct binary; simpl.
  - by destruct frame.
  - intros _. by destruct frame.
Qed.

(** Draining the buffer and then draining again with more bytes is draining
    once with all the bytes. *)
Lemma processResponses_app (binary : bool) (pending : list PendingResponse) :
  ∀ (buf data : Buffer) (s : gmap nat Outcome),
    processResponses binary (buf ++ data) pending s =
    let '(buf1, pending1, s1) := processResponses binary buf pending s in
    processResponses binary (buf1 ++ data) pending1 s1.
Proof.
  induction pending as [|first others IH]; intros buf data s.
  - simpl. by destruct (buf ++ data).
  - destruct buf as [|b buf']; [done|].
    cbn [processResponses]. rewrite <- app_comm_cons.
    destruct (extractResponse binary (b :: buf')) as [[response buf1]|] eqn:Hx.
    + rewrite app_comm_cons.
      rewrite (extractResponse_app _ _ data _ _ Hx). apply IH.
    + done.
Qed.

Lemma handleData_app (c : t) (data1 data2 : Buffer) :
  handleData (handleData c data1) data2 = handleData c (data1 ++ data2).
Proof.
  unfold handleData. rewrite app_assoc.
  rewrite (processResponses_app _ _ (responseBuffer c ++ data1) data2).
  destruct (processResponses (useBinaryProtocol c) (responseBuffer c ++ data1)
              (pendingResponses c) (settled c)) as [[buf1 pending1] s1].
  simpl.
  by destruct (processResponses (useBinaryProtocol c) (buf1 ++ data2) pending1 s1)
    as [[buf2 pending2] s2].
Qed.

(** Chunk boundaries do not matter. *)
Lemma handleData_chunks (chunks : list Buffer) :
  ∀ (c : t) (data : Buffer),
    foldl handleData (handleData c data) chunks =
    handleData c (data ++ concat chunks).
Proof.
  induction chunks as [|chunk chunks IH]; intros c data; simpl.
  - by rewrite app_nil_r.
  - rewrite IH, handleData_app, app_assoc. done.
Qed.

Lemma handleData_nil (c : t) :
  responseBuffer c = [] → handleData c [] = c.
Proof.
  intros Hbuf. unfold handleData. rewrite Hbuf. simpl.
  destruct c as [bin conn buf pending s next writes]; simpl in *; subst.
  by destruct pending.
Qed.

Lemma processResponses_frames (binary : bool) (frames : list Buffer) :
  ∀ (records : list PendingResponse) (tail : Buffer) (s : gmap nat Outcome),
    Forall (fun f => validFrame binary f = true) frames →
    length records = length frames →
    processResponses binary (concat (wire binary <$> frames) ++ tail) records s
    = (tail, [], fulfilAll records frames s).
Proof.
  induction frames as [|f frames IH]; intros records tail s Hvalid Hlen.
  - destruct records; [|done]. done.
  - destruct records as [|r records]; [done|].
    apply Forall_cons in Hvalid as [Hf Hvalid].
    cbn [fmap list_fmap concat]. rewrite <- app_assoc.
    cbn [processResponses].
    destruct (wire binary f ++ concat (wire binary <$> frames) ++ tail)
      as [|b rest] eqn:Hbuf.
    { apply app_eq_nil in Hbuf as [Hw _]. by apply wire_nonempty in Hw. }
    rewrite <- Hbuf. rewrite (extractResponse_wire _ _ _ Hf).
    rewrite IH by (simpl in Hlen; auto with lia). done.
Qed.

End Correlation.

Section Promises.
Import Connection ConnectionOps.

Lemma settle_lookup_fresh (p : nat) (o : Outcome) (s : gmap nat Outcome) :
  s !! p = None → settle p o s !! p = Some o.
Proof. intros H. unfold settle. rewrite H. apply lookup_insert_eq. Qed.

Lemma settle_lookup_ne (p q : nat) (o : Outcome) (s : gmap nat Outcome) :
  p ≠ q → settle p o s !! q = s !! q.
Proof.
  intros H. unfold settle. destruct (s !! p); [done|].
  by apply lookup_insert_ne.
Qed.

(** A settled promise keeps its outcome. *)
Lemma settle_lookup_settled (p q : nat) (o o' : Outcome) (s : gmap nat Outcome) :
  s !! q = Some o' → settle p o s !! q = Some o'.
Proof.
  intros H. destruct (decide (p = q)) as [->|Hne].
  - unfold settle. by rewrite H.
  - by rewrite settle_lookup_ne.
Qed.

Lemma fulfilAll_lookup_other (records : list PendingResponse) :
  ∀ (frames : list Buffer) (s : gmap nat Outcome) (q : nat),
    q ∉ promise <$> records →
    fulfilAll records frames s !! q = s !! q.
Proof.
  unfold fulfilAll.
  induction records as [|r records IH]; intros frames s q Hq; [done|].
  destruct frames as [|f frames]; [done|]. simpl.
  rewrite fmap_cons in Hq. apply not_elem_of_cons in Hq as [Hne Hq].
  rewrite IH by done. by apply settle_lookup_ne.
Qed.

Lemma fulfilAll_lookup_settled (records : list PendingResponse) :
  ∀ (frames : list Buffer) (s : gmap nat Outcome) (q : nat) (o : Outcome),
    s !! q = Some o → fulfilAll records frames s !! q = Some o.
Proof.
  unfold fulfilAll.
  induction records as [|r records IH]; intros frames s q o Hq; [done|].
  destruct frames as [|f frames]; [done|]. simpl.
  apply IH. by apply settle_lookup_settled.
Qed.

Lemma fulfilAll_lookup (records : list PendingResponse) :
  ∀ (frames : list Buffer) (s : gmap nat Outcome) (i : nat)
    (r : PendingResponse) (f : Buffer),
    NoDup (promise <$> records) →
    (∀ r', r' ∈ records → s !! promise r' = None) →
    records !! i = Some r → frames !! i = Some f →
    fulfilAll records frames s !! promise r = Some (Fulfilled f).
Proof.
  induction records as [|r0 records IH];
    intros frames s i r f Hnodup Hfresh Hr Hf; [done|].
  destruct frames as [|f0 frames]; [done|].
  rewrite fmap_cons in Hnodup. apply NoDup_cons in Hnodup as [Hnotin Hnodup].
  destruct i as [|i]; simpl in Hr, Hf.
  - injection Hr as ->. injection Hf as ->.
    change (fulfilAll (r :: records) (f :: frames) s)
      with (fulfilAll records frames (settle (promise r) (Fulfilled f) s)).
    rewrite fulfilAll_lookup_other by done.
    apply settle_lookup_fresh, Hfresh. by left.
  - change (fulfilAll (r0 :: records) (f0 :: frames) s)
      with (fulfilAll records frames (settle (promise r0) (Fulfilled f0) s)).
    apply (IH _ _ i); [done| |done..].
    intros r' Hr'. rewrite settle_lookup_ne.
    + apply Hfresh. by right.
    + intros Heq. apply Hnotin. rewrite Heq.
      by apply list_elem_of_fmap_2.
Qed.

Lemma pushPipelineRecords_promises (commands : list Buffer) :
  ∀ next, promise <$> pushPipelineRecords commands next
          = seq next (length commands).
Proof.
  induction commands as [|x commands IH]; intros next; [done|].
  simpl. by rewrite IH.
Qed.

Lemma send_enqueued (op : Send) (c c' : t) (ps : list nat) :
  send op c = (ps, c') → enqueued c c' ps.
Proof.
  destruct op as [data|commands]; simpl; intros [= <- <-]; unfold enqueued; simpl.
  - repeat split; try done.
    + f_equal. lia.
    + by rewrite fmap_app.
    + eauto.
  - assert (length (pushPipelineRecords commands (nextPromise c))
            = length commands) as Hlen.
    { rewrite <- (length_fmap promise), pushPipelineRecords_promises.
      apply length_seq. }
    rewrite !length_fmap, fmap_app, !pushPipelineRecords_promises, Hlen.
    repeat split; try done. eauto.
Qed.

Lemma enqueued_trans (c1 c2 c3 : t) (ps qs : list nat) :
  enqueued c1 c2 ps → enqueued c2 c3 qs → enqueued c1 c3 (ps ++ qs).
Proof.
  intros (Hps & Hn1 & Hp1 & [r1 Hr1] & Hs1 & Hb1 & Hu1 & Hc1)
         (Hqs & Hn2 & Hp2 & [r2 Hr2] & Hs2 & Hb2 & Hu2 & Hc2).
  unfold enqueued. rewrite length_app, seq_app, <- Hps, <- Hn1, <- Hqs.
  repeat split; try congruence.
  - lia.
  - by rewrite Hp2, Hp1, app_assoc.
  - exists (r1 ++ r2). by rewrite Hr2, Hr1, app_assoc.
Qed.

Lemma sendAll_enqueued (ops : list Send) :
  ∀ (c c' : t) (ps : list nat), sendAll ops c = (ps, c') → enqueued c c' ps.
Proof.
  induction ops as [|op ops IH]; intros c c' ps; simpl.
  - intros [= <- <-]. unfold enqueued. simpl.
    rewrite Nat.add_0_r, !app_nil_r. repeat split; try done. exists []. by rewrite app_nil_r.
  - destruct (send op c) as [ps1 c1] eqn:H1.
    destruct (sendAll ops c1) as [ps2 c2] eqn:H2.
    intros [= <- <-].
    eapply enqueued_trans; [by eapply send_enqueued|by apply IH].
Qed.

End Promises.

Section FIFO.
Import Connection ConnectionOps.

Lemma handleData_stream (c : t) (chunks : list Buffer) :
  responseBuffer c = [] →
  foldl handleData c chunks = handleData c (concat chunks).
Proof.
  intros Hbuf. destruct chunks as [|chunk chunks]; simpl.
  - by rewrite handleData_nil.
  - apply handleData_chunks.
Qed.

(** C1.  On a connection with an empty receive buffer and an empty queue,
    after N commands were enqueued by [sendCommand] or
    [sendPipelineCommands], whatever N complete frames the delivered chunks
    carry and wherever the chunk boundaries fall, the promise of the i-th
    enqueued request is fulfilled with the i-th frame; the queue ends empty
    and the bytes after the N-th frame stay in the buffer. *)
Theorem fifo_correlation (c0 c1 : t) (ops : list Send) (promises : list nat)
    (frames : list Buffer) (tail : Buffer) (chunks : list Buffer) :
  fresh c0 →
  responseBuffer c0 = [] →
  pendingResponses c0 = [] →
  sendAll ops c0 = (promises, c1) →
  length promises = length frames →
  Forall (fun f => validFrame (useBinaryProtocol c0) f = true) frames →
  concat chunks = concat (wire (useBinaryProtocol c0) <$> frames) ++ tail →
  (∀ i p f, promises !! i = Some p → frames !! i = Some f →
            settled (foldl handleData c1 chunks) !! p = Some (Fulfilled f))
  ∧ pendingResponses (foldl handleData c1 chunks) = []
  ∧ responseBuffer (foldl handleData c1 chunks) = tail.
Proof.
  intros Hfresh Hbuf Hpending Hsend Hlen Hvalid Hstream.
  apply sendAll_enqueued in Hsend
    as (Hps & Hnext & Hproms & [records Hrecords] & Hs & Hb & Hu & _).
  rewrite Hpending in Hproms, Hrecords. simpl in Hproms, Hrecords.
  rewrite handleData_stream by congruence.
  unfold handleData.
  rewrite Hb, Hbuf, Hu, Hs, Hrecords, Hstream. simpl.
  rewrite processResponses_frames; [|done|].
  2:{ rewrite <- Hlen, <- Hproms, Hrecords. by rewrite length_fmap. }
  simpl. split; [|done].
  intros i p f Hp Hf.
  rewrite <- Hproms, Hrecords, list_lookup_fmap in Hp.
  destruct (records !! i) as [r|] eqn:Hr; [|done].
  injection Hp as <-.
  apply (fulfilAll_lookup records frames (settled c0) i r f); [| |done..].
  - rewrite <- Hrecords, Hproms, Hps. apply NoDup_seq.
  - intros r' Hr'.
    destruct (settled c0 !! promise r') as [o|] eqn:Ho; [|done].
    assert (promise r' < nextPromise c0)%nat as Hlt by (apply Hfresh; eauto).
    assert (promise r' ∈ promises) as Hin.
    { rewrite <- Hproms, Hrecords. by apply list_elem_of_fmap_2. }
    rewrite Hps in Hin. apply elem_of_seq in Hin. lia.
Qed.

Lemma fifo_correlation_witness :
  let c1 := (sendAll [Command []; Pipeline [[]; []]] (create false)).2 in
  let chunks := [[x50; x4f; x4e]; [x47; CR]; [LF; x4f; x4b; CR; LF; CR]; [LF; x4e]] in
  settled (foldl handleData c1 chunks) !! 1%nat = Some (Fulfilled OK).
Proof.
  intros c1 chunks.
  refine (proj1 (fifo_correlation (create false) c1
            [Command []; Pipeline [[]; []]] [0; 1; 2]%nat
            [PONG; OK; []] [x4e] chunks _ _ _ _ _ _ _) 1%nat 1%nat OK _ _);
    try reflexivity.
  - intros p [o Ho]. simpl in Ho. rewrite lookup_empty in Ho. discriminate.
  - repeat constructor.
Defined.

End FIFO.

Section Timeouts.
Import Connection ConnectionOps.

(** A stream of complete frames with at least as many records queued. *)
Lemma processResponses_frames_more (binary : bool) (frames : list Buffer) :
  ∀ (records more : list PendingResponse) (s : gmap nat Outcome),
    Forall (fun f => validFrame binary f = true) frames →
    length records = length frames →
    processResponses binary (concat (wire binary <$> frames)) (records ++ more) s
    = ([], more, fulfilAll records frames s).
Proof.
  induction frames as [|f frames IH]; intros records more s Hvalid Hlen.
  - destruct records; [|done]. simpl. by destruct more.
  - destruct records as [|r records]; [done|].
    apply Forall_cons in Hvalid as [Hf Hvalid].
    cbn [fmap list_fmap concat]. rewrite <- app_comm_cons.
    cbn [processResponses].
    destruct (wire binary f ++ concat (wire binary <$> frames))
      as [|b rest] eqn:Hbuf.
    { apply app_eq_nil in Hbuf as [Hw _]. by apply wire_nonempty in Hw. }
    rewrite <- Hbuf. rewrite (extractResponse_wire _ _ _ Hf).
    rewrite IH by (simpl in Hlen; auto with lia). done.
Qed.

Lemma handleData_one_frame (c : t) (r : PendingResponse)
    (more : list PendingResponse) (f : Buffer) :
  responseBuffer c = [] →
  pendingResponses c = r :: more →
  validFrame (useBinaryProtocol c) f = true →
  handleData c (wire (useBinaryProtocol c) f) =
  set_settled (settle (promise r) (Fulfilled f) (settled c))
    (set_pending more (set_buffer [] c)).
Proof.
  intros Hbuf Hpending Hf. unfold handleData. rewrite Hbuf, Hpending.
  rewrite app_nil_l.
  pose proof (processResponses_frames_more (useBinaryProtocol c) [f] [r] more
                (settled c)) as H.
  cbn [fmap list_fmap concat] in H. rewrite app_nil_r in H.
  change ([r] ++ more) with (r :: more) in H.
  rewrite H; [done| |done]. by constructor.
Qed.

(** The record pushed by [sendCommand] times out with "Command timeout". *)
Lemma sendCommand_record (data : Buffer) (c : t) :
  pendingResponses (sendCommand data c).2 =
  pendingResponses c
    ++ [{| promise := (sendCommand data c).1; timeout := "Command timeout" |}].
Proof. reflexivity. Qed.

(** C2, as the code has it.  When the timer of the oldest outstanding
    request r1 expires, only the promise of r1 is rejected (with the message
    of its timer, "Command timeout" for [sendCommand]); the connection stays
    connected, every other promise is as before and the queue still holds
    the record of r1.  A reply to r1 that arrives afterwards is taken by
    that stale record and changes nothing; the next request r2 stays
    outstanding and is fulfilled by the reply that follows, its own. *)
Theorem timeout_keeps_record (c : t) (r1 r2 : PendingResponse)
    (rest : list PendingResponse) (f1 f2 : Buffer) :
  pendingResponses c = r1 :: r2 :: rest →
  promise r1 ≠ promise r2 →
  settled c !! promise r1 = None →
  settled c !! promise r2 = None →
  responseBuffer c = [] →
  validFrame (useBinaryProtocol c) f1 = true →
  validFrame (useBinaryProtocol c) f2 = true →
  let c1 := timerExpires r1 c in
  let c2 := handleData c1 (wire (useBinaryProtocol c) f1) in
  let c3 := handleData c2 (wire (useBinaryProtocol c) f2) in
  settled c1 !! promise r1 = Some (Rejected (timeout r1))
  ∧ (∀ q, q ≠ promise r1 → settled c1 !! q = settled c !! q)
  ∧ connected c1 = connected c
  ∧ pendingResponses c1 = r1 :: r2 :: rest
  ∧ pendingResponses c2 = r2 :: rest
  ∧ settled c2 = settled c1
  ∧ settled c3 !! promise r1 = Some (Rejected (timeout r1))
  ∧ settled c3 !! promise r2 = Some (Fulfilled f2).
Proof.
  intros Hqueue Hne Hs1 Hs2 Hbuf Hf1 Hf2 c1 c2 c3.
  assert (settled c1 !! promise r1 = Some (Rejected (timeout r1))) as H1.
  { by apply settle_lookup_fresh. }
  assert (∀ q, q ≠ promise r1 → settled c1 !! q = settled c !! q) as Hother.
  { intros q Hq. by apply settle_lookup_ne. }
  assert (c2 = set_settled (settled c1) (set_pending (r2 :: rest)
            (set_buffer [] c1))) as Hc2.
  { unfold c2. change (useBinaryProtocol c) with (useBinaryProtocol c1).
    rewrite (handleData_one_frame c1 r1 (r2 :: rest) f1); try done.
    f_equal. unfold settle. by rewrite H1. }
  assert (c3 = set_settled (settle (promise r2) (Fulfilled f2) (settled c1))
            (set_pending rest (set_buffer [] c2))) as Hc3.
  { assert (useBinaryProtocol c = useBinaryProtocol c2) as Hbin
      by (by rewrite Hc2).
    unfold c3. rewrite Hbin.
    rewrite (handleData_one_frame c2 r2 rest f2).
    - by rewrite Hc2.
    - by rewrite Hc2.
    - by rewrite Hc2.
    - by rewrite <- Hbin. }
  repeat split; try done.
  - by rewrite Hc2.
  - by rewrite Hc2.
  - rewrite Hc3. simpl. rewrite settle_lookup_ne by done. exact H1.
  - rewrite Hc3. simpl. apply settle_lookup_fresh.
    rewrite Hother by done. exact Hs2.
Qed.

Lemma timeout_keeps_record_witness :
  settled (handleData (handleData (timerExpires first_request two_requests)
                         (wire false PONG)) (wire false OK)) !! 1%nat
  = Some (Fulfilled OK).
Proof.
  refine (proj2 (proj2 (proj2 (proj2 (proj2 (proj2 (proj2
    (timeout_keeps_record two_requests first_request second_request [] PONG OK
       _ _ _ _ _ _ _)))))))); try reflexivity.
  simpl. lia.
Defined.

(** The reply to the request that timed out is not handed to the next
    request: after the late PONG the second promise is still outstanding. *)
Lemma late_reply_not_shifted :
  let c := handleData (timerExpires first_request two_requests)
             (wire false PONG) in
  settled c !! 1%nat ≠ Some (Fulfilled PONG)
  ∧ settled c !! 1%nat = None
  ∧ pendingResponses c = [second_request].
Proof. vm_compute. repeat split; discriminate. Qed.

End Timeouts.

Section ProtocolErrors.
Import Connection ConnectionOps.

(** A first byte that is no response tag makes the [switch] throw, and the
    [catch] clause answers [null]: the buffer is kept as it is. *)
Lemma unknown_tag_swallowed (tag : byte) (rest : Buffer) :
  simpleTag tag = false → payloadTag tag = false →
  extractBinaryResponse_try (tag :: rest) = Throw "Unknown response type"
  ∧ extractBinaryResponse (tag :: rest) = None.
Proof.
  intros Hs Hp. unfold extractBinaryResponse.
  rewrite extractBinaryResponse_try_eq, Hs, Hp. done.
Qed.

(** With such a byte at the front of the buffer no data that arrives later
    settles any request: the connection does not fail, it stalls. *)
Lemma unknown_tag_stalls (c : t) (tag : byte) (rest data : Buffer) :
  useBinaryProtocol c = true →
  responseBuffer c = tag :: rest →
  simpleTag tag = false → payloadTag tag = false →
  handleData c data = set_buffer (tag :: rest ++ data) c.
Proof.
  intros Hbin Hbuf Hs Hp. unfold handleData.
  rewrite Hbin, Hbuf, <- app_comm_cons.
  destruct c as [bin conn buf pending s next writes]; simpl in *; subst.
  destruct pending as [|first others]; [done|].
  cbn [processResponses extractResponse].
  by rewrite (proj2 (unknown_tag_swallowed tag (rest ++ data) Hs Hp)).
Qed.

(** C3.  The code at a buffer that starts with 0xff: the exception for the
    unknown tag is raised and caught inside [extractBinaryResponse], which
    answers "incomplete"; the outstanding request is neither fulfilled nor
    rejected, the connection stays connected, and further data — here a
    complete OK reply — only grows the buffer. *)
Theorem unknown_tag_not_fatal :
  extractBinaryResponse_try [xff] = Throw "Unknown response type"
  ∧ extractBinaryResponse [xff] = None
  ∧ responseBuffer stalled = [xff]
  ∧ connected stalled = true
  ∧ settled stalled !! 0%nat = None
  ∧ pendingResponses stalled
    = [{| promise := 0; timeout := "Command timeout" |}]
  ∧ handleData stalled [x10] = set_buffer [xff; x10] stalled.
Proof. vm_compute. repeat split. Qed.

Lemma rejectAll_lookup (error : string) (records : list PendingResponse) :
  ∀ (s : gmap nat Outcome) (q : nat),
    foldl (fun acc r => settle (promise r) (Rejected error) acc) s records !! q
    = match s !! q with
      | Some o => Some o
      | None => if bool_decide (q ∈ promise <$> records)
                then Some (Rejected error) else None
      end.
Proof.
  induction records as [|r records IH]; intros s q; simpl.
  - by destruct (s !! q).
  - rewrite IH. destruct (decide (promise r = q)) as [<-|Hne].
    + destruct (s !! promise r) as [o|] eqn:Hs.
      * by rewrite (settle_lookup_settled _ _ _ _ _ Hs).
      * rewrite settle_lookup_fresh by done.
        rewrite bool_decide_eq_true_2; [done|]. by left.
    + rewrite settle_lookup_ne by done.
      destruct (s !! q); [done|].
      apply option_eq. intros o. rewrite !bool_decide_decide.
      do 2 case_decide; try done.
      * exfalso. apply H0. by right.
      * exfalso. apply elem_of_cons in H0 as [->|]; done.
Qed.

Lemma sendPipelineCommands_writeError_lookup (error : string) (c : t) (q : nat) :
  settled (sendPipelineCommands_writeError error c) !! q =
  match settled c !! q with
  | Some o => Some o
  | None => if bool_decide (q ∈ promise <$> pendingResponses c)
            then Some (Rejected error) else None
  end.
Proof.
  unfold sendPipelineCommands_writeError, rejectAllFromBack.
  destruct c as [bin conn buf pending s next writes].
  cbn [settled set_settled set_pending pendingResponses].
  rewrite rejectAll_lookup.
  destruct (s !! q); [done|].
  rewrite !bool_decide_decide, fmap_reverse.
  do 2 case_decide; try done.
  - exfalso. apply H0. by apply elem_of_reverse.
  - exfalso. apply H. by apply elem_of_reverse.
Qed.

(** C4, as the code has it.  [sendPipelineCommands] enqueues one record per
    blob, in call order, behind what is already queued, and issues one write
    of the concatenated blobs; when that write fails the callback empties
    the whole queue: every record in it, the ones of this call and the ones
    that were outstanding before, is rejected with the write error unless
    its promise was settled already, and no other promise changes. *)
Theorem pipeline_write_error_clears_queue (c : t) (commands : list Buffer)
    (error : string) :
  let c1 := (sendPipelineCommands commands c).2 in
  let ps := (sendPipelineCommands commands c).1 in
  let c2 := sendPipelineCommands_writeError error c1 in
  (∃ records, pendingResponses c1 = pendingResponses c ++ records
              ∧ promise <$> records = ps
              ∧ length records = length commands
              ∧ ps = seq (nextPromise c) (length commands))
  ∧ socketWrites c1 = socketWrites c ++ [concat commands]
  ∧ pendingResponses c2 = []
  ∧ (∀ r, r ∈ pendingResponses c1 → settled c1 !! promise r = None →
          settled c2 !! promise r = Some (Rejected error))
  ∧ (∀ q o, settled c1 !! q = Some o → settled c2 !! q = Some o)
  ∧ (∀ q, q ∉ promise <$> pendingResponses c1 →
          settled c2 !! q = settled c1 !! q).
Proof.
  intros c1 ps c2. split; [|split; [done|split; [done|]]].
  { exists (pushPipelineRecords commands (nextPromise c)).
    repeat split; try done.
    - rewrite <- (length_fmap promise), pushPipelineRecords_promises.
      apply length_seq.
    - apply pushPipelineRecords_promises. }
  pose proof (sendPipelineCommands_writeError_lookup error c1) as Hlookup.
  fold c2 in Hlookup.
  repeat split.
  - intros r Hr Hs. rewrite Hlookup, Hs.
    rewrite bool_decide_eq_true_2; [done|]. by apply list_elem_of_fmap_2.
  - intros q o Hq. by rewrite Hlookup, Hq.
  - intros q Hq. rewrite Hlookup. destruct (settled c1 !! q); [done|].
    by rewrite bool_decide_eq_false_2.
Qed.

Lemma pipeline_write_error_clears_queue_witness :
  settled (sendPipelineCommands_writeError "EPIPE" one_then_pipeline) !! 0%nat
  = Some (Rejected "EPIPE").
Proof.
  refine (proj1 (proj2 (proj2 (proj2
    (pipeline_write_error_clears_queue
       (sendCommand [x41] (create false)).2 [[x42]; [x43]] "EPIPE"))))
    first_request _ _).
  - vm_compute. left.
  - reflexivity.
Defined.

(** A record that was outstanding before the call does not stay enqueued
    and unsettled when the write of the pipeline fails. *)
Lemma pipeline_write_error_fails_older_record :
  let before := (sendCommand [x41] (create false)).2 in
  let after := sendPipelineCommands_writeError "EPIPE" one_then_pipeline in
  pendingResponses before = [first_request]
  ∧ settled before !! 0%nat = None
  ∧ ¬ (first_request ∈ pendingResponses after ∧ settled after !! 0%nat = None).
Proof.
  vm_compute. repeat split. intros [_ H]. discriminate H.
Qed.

End ProtocolErrors.

(** ** Connection pool *)

Section ArrayFind.
Context {A : Type}.

Lemma arrayFind_Some (f : A → bool) (l : list A) (i : nat) (x : A) :
  arrayFind f l = Some (i, x) →
  l !! i = Some x ∧ f x = true
  ∧ ∀ j y, (j < i)%nat → l !! j = Some y → f y = false.
Proof.
  revert i. induction l as [|a l IH]; intros i; simpl; [done|].
  destruct (f a) eqn:Hfa.
  - intros [= <- <-]. repeat split; [done|]. intros j y Hj. lia.
  - destruct (arrayFind f l) as [[k z]|]; [|done].
    simpl. intros [= <- <-].
    destruct (IH k eq_refl) as (Hk & Hz & Hbefore).
    repeat split; [done..|].
    intros [|j] y Hj; simpl.
    + by intros [= <-].
    + apply Hbefore. lia.
Qed.

Lemma arrayFind_None (f : A → bool) (l : list A) :
  arrayFind f l = None ↔ ∀ x, x ∈ l → f x = false.
Proof.
  induction l as [|a l IH]; simpl.
  - split; [|done]. intros _ x Hx. by apply elem_of_nil in Hx.
  - destruct (f a) eqn:Hfa.
    + split; [done|]. intros H. rewrite H in Hfa; [done|by left].
    + destruct (arrayFind f l) as [[k z]|]; simpl.
      * split; [done|]. intros H.
        assert (Some (k, z) = @None (nat * A)) as Habs; [|done].
        apply IH. intros x Hx. apply H. by right.
      * split; [|done]. intros _ x [->|Hx]%elem_of_cons; [done|].
        by apply IH.
Qed.

(** A matching element makes [find] succeed, at the first match. *)
Lemma arrayFind_is_Some (f : A → bool) (l : list A) (x : A) :
  x ∈ l → f x = true → ∃ i y, arrayFind f l = Some (i, y).
Proof.
  intros Hx Hfx. destruct (arrayFind f l) as [[i y]|] eqn:H; [eauto|].
  rewrite arrayFind_None in H. rewrite (H x Hx) in Hfx. done.
Qed.

Lemma findIndex_arrayFind (f : A → bool) (l : list A) :
  findIndex f l = fst <$> arrayFind f l.
Proof.
  induction l as [|a l IH]; simpl; [done|].
  destruct (f a); [done|]. rewrite IH.
  by destruct (arrayFind f l) as [[k z]|].
Qed.

End ArrayFind.

Section Release.
Import Pool.

(** C10.  [release(c)] on a pool in which no record wraps [c] returns the
    pool as it is: same records, same metrics, nothing raised.  When exactly
    one record wraps [c], at position [i], only that record changes, and
    only in its [inUse] flag (now false) and its last-used time; the other
    records, the hit, miss and created counters and the health-check
    counter are as before. *)
Theorem release_frame (now : Z) (c : nat) (p : t) :
  ((∀ conn, conn ∈ connections p → connection conn ≠ c) →
   release now c p = p)
  ∧ (∀ i conn,
       connections p !! i = Some conn →
       (∀ j conn', connections p !! j = Some conn' →
                   connection conn' = c ↔ j = i) →
       connections (release now c p)
         = <[i := {| connection := connection conn; inUse := false;
                     createdAt := createdAt conn; lastUsed := now;
                     healthCheckFailures := healthCheckFailures conn |}]>
             (connections p)
       ∧ (∀ j, j ≠ i →
               connections (release now c p) !! j = connections p !! j)
       ∧ Metrics.poolHits (metrics (release now c p))
           = Metrics.poolHits (metrics p)
       ∧ Metrics.poolMisses (metrics (release now c p))
           = Metrics.poolMisses (metrics p)
       ∧ Metrics.totalCreated (metrics (release now c p))
           = Metrics.totalCreated (metrics p)
       ∧ Metrics.healthCheckFailures (metrics (release now c p))
           = Metrics.healthCheckFailures (metrics p)).
Proof.
  split.
  - intros Hnone. unfold release.
    destruct (arrayFind (wraps c) (connections p)) as [[i conn]|] eqn:Hfind;
      [|done].
    apply arrayFind_Some in Hfind as (Hi & Hwraps & _).
    apply Nat.eqb_eq in Hwraps.
    exfalso. eapply Hnone; [|done]. by eapply list_elem_of_lookup_2.
  - intros i conn Hi Honly. unfold release.
    destruct (arrayFind (wraps c) (connections p)) as [[k conn']|] eqn:Hfind.
    + apply arrayFind_Some in Hfind as (Hk & Hwraps & _).
      apply Nat.eqb_eq in Hwraps.
      assert (k = i) as -> by (by eapply Honly).
      assert (conn' = conn) as -> by congruence.
      simpl. repeat split; try done.
      * apply list_eq. intros j. destruct (decide (j = i)) as [->|Hne].
        -- rewrite list_lookup_alter_eq, Hi.
           rewrite list_lookup_insert_eq; [done|]. by eapply lookup_lt_Some.
        -- by rewrite list_lookup_alter_ne, list_lookup_insert_ne.
      * intros j Hne. by rewrite list_lookup_alter_ne.
    + rewrite arrayFind_None in Hfind.
      assert (wraps c conn = false) as Hw.
      { apply Hfind. by eapply list_elem_of_lookup_2. }
      apply Nat.eqb_neq in Hw. exfalso. apply Hw. by apply (Honly i conn).
Qed.

End Release.

Section Acquire.
Import Pool.

Lemma tick_poll (now due timeoutAt : Z) (p : t) :
  arrayFind (idleConnected p) (connections p) = None →
  (due < timeoutAt)%Z →
  tick {| clock := now; pool := p;
          waiter := {| result := None;
                       timers := [(timeoutAt, AcquisitionTimeout);
                                  (due, CheckForConnection)] |} |}
  = {| clock := due; pool := p;
       waiter := {| result := None;
                    timers := [(timeoutAt, AcquisitionTimeout);
                               (due + 10, CheckForConnection)%Z] |} |}.
Proof.
  intros Hnone Hlt. unfold tick. cbn [waiter timers nextTimer fst snd].
  destruct (Z.ltb_spec due timeoutAt) as [_|?]; [|lia].
  cbn [disarm]. rewrite bool_decide_eq_false_2 by congruence.
  rewrite bool_decide_eq_true_2 by done.
  unfold checkForConnection. cbn [pool]. by rewrite Hnone.
Qed.

Lemma tick_timeout (now due timeoutAt : Z) (p : t) :
  (timeoutAt ≤ due)%Z →
  tick {| clock := now; pool := p;
          waiter := {| result := None;
                       timers := [(timeoutAt, AcquisitionTimeout);
                                  (due, CheckForConnection)] |} |}
  = {| clock := timeoutAt; pool := p;
       waiter := {| result := Some (inr "Pool acquisition timeout");
                    timers := [(due, CheckForConnection)] |} |}.
Proof.
  intros Hle. unfold tick. cbn [waiter timers nextTimer fst snd].
  destruct (Z.ltb_spec due timeoutAt) as [?|_]; [lia|].
  cbn [disarm]. by rewrite bool_decide_eq_true_2.
Qed.


(** While the pool has no idle connected record, the [k]-th poll happens
    10 ms after the one before and arms the next one. *)
Lemma polls_every_10ms (now : Z) (p : t) (k : nat) :
  arrayFind (idleConnected p) (connections p) = None →
  (10 * Z.of_nat k < connectionTimeout p)%Z →
  Nat.iter k tick
    {| clock := now; pool := p;
       waiter := {| result := None;
                    timers := [(now + connectionTimeout p, AcquisitionTimeout);
                               (now + 10, CheckForConnection)]%Z |} |}
  = {| clock := (now + 10 * Z.of_nat k)%Z; pool := p;
       waiter := {| result := None;
                    timers := [(now + connectionTimeout p, AcquisitionTimeout);
                               (now + 10 * Z.of_nat (S k), CheckForConnection)]%Z |} |}.
Proof.
  intros Hnone. induction k as [|k IH]; intros Hk.
  - simpl. rewrite Z.add_0_r. do 4 f_equal.
  - rewrite Nat.iter_succ, IH by lia.
    rewrite tick_poll by (done || lia).
    replace (now + 10 * Z.of_nat (S k) + 10)%Z
      with (now + 10 * Z.of_nat (S (S k)))%Z by lia.
    done.
Qed.


End Acquire.

Section WarmUp.
Import Pool.

Lemma arrayFind_app_last {A : Type} (f : A → bool) (l : list A) (y : A) :
  (∀ x, x ∈ l → f x = false) → f y = true →
  arrayFind f (l ++ [y]) = Some (length l, y).
Proof.
  intros Hl Hy. induction l as [|a l IH]; simpl.
  - by rewrite Hy.
  - rewrite (Hl a) by (by left). rewrite IH; [done|].
    intros x Hx. apply Hl. by right.
Qed.

Lemma wraps_fresh (p : t) (conn : PooledConnection) :
  wf p → conn ∈ connections p → wraps (allocated p) conn = false.
Proof.
  intros [_ Hlt] Hin. apply Nat.eqb_neq.
  assert (connection conn < allocated p)%nat; [|lia].
  apply Hlt. by apply list_elem_of_fmap_2.
Qed.

(** One round of the loop of [warmUp] when the connect attempt succeeds. *)
Lemma create_then_release (now : Z) (p : t) :
  wf p →
  let p' := release now (allocated p) (createConnection now true p).1 in
  connections p' = connections p ++ [warmRecord now (allocated p)]
  ∧ allocated p' = S (allocated p)
  ∧ connectedSockets p' = {[allocated p]} ∪ connectedSockets p
  ∧ destroyed p' = destroyed p
  ∧ poolSize p' = poolSize p
  ∧ Metrics.totalCreated (metrics p') = S (Metrics.totalCreated (metrics p))
  ∧ Metrics.poolHits (metrics p') = Metrics.poolHits (metrics p)
  ∧ Metrics.poolMisses (metrics p') = Metrics.poolMisses (metrics p)
  ∧ wf p'.
Proof.
  intros Hwf p'. unfold p', release, createConnection. cbn [fst connections updateMetrics with_metrics].
  rewrite arrayFind_app_last;
    [|by intros; apply wraps_fresh|by apply Nat.eqb_eq].
  cbn. rewrite alter_app_r_alt by done. rewrite Nat.sub_diag. cbn.
  repeat split; try done.
  - unfold ids. cbn. rewrite fmap_app. cbn.
    apply NoDup_app. destruct Hwf as [Hnodup Hlt]. repeat split; [done| |].
    + intros c Hc [->|[]%elem_of_nil]%elem_of_cons.
      specialize (Hlt _ Hc). lia.
    + apply NoDup_singleton.
  - unfold ids. cbn. rewrite fmap_app. cbn.
    intros c [Hc| [->|[]%elem_of_nil]%elem_of_cons]%elem_of_app; [|lia].
    destruct Hwf as [_ Hlt]. specialize (Hlt _ Hc). lia.
Qed.

Lemma createAndRelease_spec (count : nat) (now : Z) (connectOk : nat → bool) :
  ∀ p, wf p → (∀ c, connectOk c = true) →
    let p' := createAndRelease count now connectOk p in
    connections p'
      = connections p ++ (warmRecord now <$> seq (allocated p) count)
    ∧ allocated p' = (allocated p + count)%nat
    ∧ (∀ c, c ∈ connectedSockets p' ↔
            c ∈ connectedSockets p ∨ c ∈ seq (allocated p) count)
    ∧ poolSize p' = poolSize p
    ∧ Metrics.totalCreated (metrics p')
        = (Metrics.totalCreated (metrics p) + count)%nat
    ∧ Metrics.poolHits (metrics p') = Metrics.poolHits (metrics p)
    ∧ Metrics.poolMisses (metrics p') = Metrics.poolMisses (metrics p)
    ∧ wf p'.
Proof.
  induction count as [|count IH]; intros p Hwf Hok p'.
  - unfold p'. simpl. rewrite app_nil_r, Nat.add_0_r.
    repeat split; try done; try apply Hwf.
    + by left.
    + by intros [?|[]%elem_of_nil].
  - unfold p'. cbn [createAndRelease]. rewrite Hok.
    change (createConnection now true p)
      with ((createConnection now true p).1, Some (allocated p)).
    pose proof (create_then_release now p Hwf)
      as (Hc & Ha & Hs & _ & Hsz & Ht & Hh & Hm & Hwf1).
    set (p1 := release now (allocated p) (createConnection now true p).1) in *.
    destruct (IH p1 Hwf1 Hok) as (Hc' & Ha' & Hs' & Hsz' & Ht' & Hh' & Hm' & Hwf').
    rewrite Hc', Ha', Hsz', Ht', Hh', Hm', Hc, Ha, Hsz, Ht, Hh, Hm.
    repeat split; try done; try lia; try apply Hwf'.
    + by rewrite <- app_assoc.
    + rewrite Hs', Hs, Ha. cbn [seq].
      rewrite elem_of_union, elem_of_singleton, elem_of_cons. tauto.
    + rewrite Hs', Hs, Ha. cbn [seq].
      rewrite elem_of_union, elem_of_singleton, elem_of_cons. tauto.
Qed.

End WarmUp.

Section WarmUpHits.
Import Pool.

Lemma filter_alter_count {A : Type} (f : A → bool) (g : A → A) (l : list A) :
  ∀ i x, l !! i = Some x → f x = true → f (g x) = false →
    S (length (List.filter f (alter g i l))) = length (List.filter f l).
Proof.
  induction l as [|a l IH]; intros i x Hi Hx Hgx; [done|].
  destruct i as [|i]; simpl in Hi.
  - injection Hi as ->. simpl. by rewrite Hx, Hgx.
  - change (alter g (S i) (a :: l)) with (a :: alter g i l). simpl.
    destruct (f a); simpl; by rewrite (IH i x).
Qed.

Lemma takeIdle_idleCount (now : Z) (p : t) (i : nat) (conn : PooledConnection) :
  arrayFind (idleConnected p) (connections p) = Some (i, conn) →
  S (idleCount (takeIdle now i p)) = idleCount p.
Proof.
  intros (Hi & Hidle & _)%arrayFind_Some. unfold idleCount.
  change (idleConnected (takeIdle now i p)) with (idleConnected p).
  change (connections (takeIdle now i p))
    with (alter (markInUse now) i (connections p)).
  by apply (filter_alter_count _ _ _ i conn).
Qed.

Lemma idleCount_find (p : t) :
  (0 < idleCount p)%nat →
  ∃ i conn, arrayFind (idleConnected p) (connections p) = Some (i, conn).
Proof.
  unfold idleCount. intros Hpos.
  destruct (arrayFind (idleConnected p) (connections p)) as [[i conn]|] eqn:H;
    [eauto|].
  rewrite arrayFind_None in H.
  destruct (List.filter (idleConnected p) (connections p)) as [|x l] eqn:Hf;
    [simpl in Hpos; lia|].
  assert (In x (List.filter (idleConnected p) (connections p))) as Hin
    by (rewrite Hf; by left).
  apply List.filter_In in Hin as [Hin Hx].
  rewrite (H x) in Hx; [done|]. by apply list_elem_of_In.
Qed.

(** As many calls of [acquire()] as there are idle connected records are
    all hits. *)
Lemma acquireMany_hits (count : nat) (now : Z) (connectOk : bool) :
  ∀ p, (count ≤ idleCount p)%nat →
    Metrics.poolHits (metrics (acquireMany count now connectOk p).1)
      = (Metrics.poolHits (metrics p) + count)%nat
    ∧ Metrics.poolMisses (metrics (acquireMany count now connectOk p).1)
      = Metrics.poolMisses (metrics p)
    ∧ Metrics.totalCreated (metrics (acquireMany count now connectOk p).1)
      = Metrics.totalCreated (metrics p)
    ∧ length (acquireMany count now connectOk p).2 = count
    ∧ Forall (fun r => isAcquired r = true)
        (acquireMany count now connectOk p).2.
Proof.
  induction count as [|count IH]; intros p Hcount.
  - simpl. rewrite Nat.add_0_r. repeat split; done.
  - destruct (idleCount_find p) as (i & conn & Hfind); [lia|].
    cbn [acquireMany]. unfold acquire. rewrite Hfind.
    pose proof (takeIdle_idleCount now p i conn Hfind) as Hless.
    destruct (IH (takeIdle now i p)) as (Hh & Hm & Ht & Hl & Hall); [lia|].
    destruct (acquireMany count now connectOk (takeIdle now i p))
      as [p2 rs] eqn:Hrest.
    cbn [fst snd] in *. rewrite Hh, Hm, Ht. cbn.
    repeat split; try done; try lia. by constructor.
Qed.

Lemma filter_warmRecords (p : t) (now : Z) (cs : list nat) :
  (∀ c, c ∈ cs → isConnected p c = true) →
  List.filter (idleConnected p) (warmRecord now <$> cs) = warmRecord now <$> cs.
Proof.
  induction cs as [|c cs IH]; intros Hcs; [done|].
  assert (idleConnected p (warmRecord now c) = true) as Hc.
  { unfold idleConnected. cbn. apply Hcs. by left. }
  rewrite fmap_cons. cbn [List.filter]. rewrite Hc, IH; [done|].
  intros c' Hc'. apply Hcs. by right.
Qed.

(** C7, as the code has it.  When every connect attempt succeeds,
    [warmUp(n)] on a pool with E records creates min(n, poolSize) - E
    connections when that number is positive, and none otherwise: each new
    connection is connected and left as an idle record behind the existing
    ones, so that the pool holds min(n, poolSize) records afterwards; at
    least as many following calls of [acquire()] as connections were created
    are hits, without a miss and without a new connection.  When
    min(n, poolSize) - E is not positive the pool is returned as it is. *)
Theorem warmUp_fills_up (now : Z) (n : Z) (connectOk : nat → bool) (p : t) :
  wf p → (∀ c, connectOk c = true) →
  let created :=
    Z.to_nat (Z.min n (poolSize p) - Z.of_nat (length (connections p))) in
  let p' := warmUp now n connectOk p in
  connections p'
    = connections p ++ (warmRecord now <$> seq (allocated p) created)
  ∧ Metrics.totalCreated (metrics p')
    = (Metrics.totalCreated (metrics p) + created)%nat
  ∧ (∀ c, c ∈ seq (allocated p) created → isConnected p' c = true)
  ∧ ((0 < created)%nat →
     Z.of_nat (length (connections p')) = Z.min n (poolSize p))
  ∧ ((Z.min n (poolSize p) - Z.of_nat (length (connections p)) ≤ 0)%Z →
     p' = p)
  ∧ ∀ k now' ok, (k ≤ created)%nat →
      Metrics.poolHits (metrics (acquireMany k now' ok p').1)
        = (Metrics.poolHits (metrics p') + k)%nat
      ∧ Metrics.poolMisses (metrics (acquireMany k now' ok p').1)
        = Metrics.poolMisses (metrics p')
      ∧ Metrics.totalCreated (metrics (acquireMany k now' ok p').1)
        = Metrics.totalCreated (metrics p')
      ∧ Forall (fun r => isAcquired r = true) (acquireMany k now' ok p').2.
Proof.
  intros Hwf Hok created p'.
  assert (p' = createAndRelease created now connectOk p) as Hp'.
  { unfold p', warmUp, connectionsToCreate.
    destruct (Z.leb_spec
                (Z.min n (poolSize p) - Z.of_nat (length (connections p))) 0)
      as [Hle|Hgt]; [|done].
    unfold created. by rewrite Z2Nat.nonpos. }
  destruct (createAndRelease_spec created now connectOk p Hwf Hok)
    as (Hc & Ha & Hs & Hsz & Ht & Hh & Hm & Hwf').
  rewrite <- Hp' in *.
  assert (∀ c, c ∈ seq (allocated p) created → isConnected p' c = true) as Hconn.
  { intros c Hin. apply bool_decide_eq_true_2, Hs. by right. }
  split; [done|]. split; [done|]. split; [done|]. split; [|split].
  - intros Hpos. rewrite Hc, length_app, length_fmap, length_seq.
    unfold created in *. lia.
  - intros Hle. unfold p', warmUp, connectionsToCreate.
    by destruct (Z.leb_spec
                   (Z.min n (poolSize p) - Z.of_nat (length (connections p))) 0)
      as [_|?]; [|lia].
  - intros k now' ok Hk.
    assert (k ≤ idleCount p')%nat as Hidle.
    { unfold idleCount. rewrite Hc, List.filter_app, length_app.
      rewrite filter_warmRecords by done.
      rewrite length_fmap, length_seq. lia. }
    destruct (acquireMany_hits k now' ok p' Hidle) as (? & ? & ? & ? & ?).
    done.
Qed.

Lemma warmUp_fills_up_witness :
  connections (warmUp 200 2 (fun _ => true) oneInUse)
  = connections oneInUse ++ [warmRecord 200 1].
Proof.
  refine (proj1 (warmUp_fills_up 200 2 (fun _ => true) oneInUse _ _)).
  - split.
    + vm_compute. apply NoDup_singleton.
    + intros c Hc. vm_compute in Hc.
      apply list_elem_of_singleton in Hc as ->. vm_compute. lia.
  - done.
Defined.

(** With one record in a pool of capacity 4, [warmUp(2)] creates one
    connection, not min(2, 4) = 2; of the two calls of [acquire()] that
    follow, the second one is a miss. *)
Lemma warmUp_counts_existing_records :
  let p' := warmUp 200 2 (fun _ => true) oneInUse in
  length (connections oneInUse) = 1%nat
  ∧ (Metrics.totalCreated (metrics p')
     - Metrics.totalCreated (metrics oneInUse))%nat
    ≠ Z.to_nat (Z.min 2 (poolSize oneInUse))
  ∧ (Metrics.totalCreated (metrics p')
     - Metrics.totalCreated (metrics oneInUse))%nat = 1%nat
  ∧ Metrics.poolMisses (metrics (acquireMany 2 300 true p').1)
    = S (Metrics.poolMisses (metrics p')).
Proof. vm_compute. repeat split. lia. Qed.

End WarmUpHits.

Section HealthCheck.
Import Pool.

Lemma omap_onRecord_absent (c : nat) h (l : list PooledConnection) :
  c ∉ connection <$> l → omap (onRecord c h) l = l.
Proof.
  induction l as [|a l IH]; [done|].
  rewrite fmap_cons, not_elem_of_cons. intros [Hne Hnotin].
  cbn. unfold onRecord at 1, wraps.
  destruct (Nat.eqb_spec (connection a) c) as [Heq|_]; [by subst|].
  by rewrite IH.
Qed.

Lemma alter_as_omap (f : PooledConnection → PooledConnection)
    (l : list PooledConnection) :
  ∀ i x, NoDup (connection <$> l) → l !! i = Some x →
    alter f i l = omap (onRecord (connection x) (fun y => Some (f y))) l.
Proof.
  induction l as [|a l IH]; intros i x Hnodup Hi; [done|].
  rewrite fmap_cons in Hnodup. apply NoDup_cons in Hnodup as [Hnotin Hnodup].
  destruct i as [|i]; simpl in Hi.
  - injection Hi as ->. cbn. unfold onRecord at 1, wraps.
    rewrite Nat.eqb_refl. by rewrite omap_onRecord_absent.
  - change (alter f (S i) (a :: l)) with (a :: alter f i l).
    cbn. unfold onRecord at 1, wraps.
    destruct (Nat.eqb_spec (connection a) (connection x)) as [Heq|_].
    + exfalso. apply Hnotin. rewrite Heq.
      apply list_elem_of_fmap_2. by eapply list_elem_of_lookup_2.
    + by rewrite (IH i x).
Qed.

Lemma delete_as_omap (l : list PooledConnection) :
  ∀ i x, NoDup (connection <$> l) → l !! i = Some x →
    delete i l = omap (onRecord (connection x) (fun _ => None)) l.
Proof.
  induction l as [|a l IH]; intros i x Hnodup Hi; [done|].
  rewrite fmap_cons in Hnodup. apply NoDup_cons in Hnodup as [Hnotin Hnodup].
  destruct i as [|i]; simpl in Hi.
  - injection Hi as ->. cbn. unfold onRecord at 1, wraps.
    rewrite Nat.eqb_refl. by rewrite omap_onRecord_absent.
  - change (delete (S i) (a :: l)) with (a :: delete i l).
    cbn. unfold onRecord at 1, wraps.
    destruct (Nat.eqb_spec (connection a) (connection x)) as [Heq|_].
    + exfalso. apply Hnotin. rewrite Heq.
      apply list_elem_of_fmap_2. by eapply list_elem_of_lookup_2.
    + by rewrite (IH i x).
Qed.

Lemma omap_omap {A B C : Type} (f : A → option B) (g : B → option C)
    (l : list A) :
  omap g (omap f l) = omap (fun x => f x ≫= g) l.
Proof.
  induction l as [|a l IH]; [done|]. cbn.
  destruct (f a) as [b|]; cbn; [|done].
  destruct (g b); by rewrite IH.
Qed.

(** A pass that keeps the connection of every record it keeps does not
    bring in new connections, nor duplicates. *)
Lemma omap_ids_sublist (h : PooledConnection → option PooledConnection)
    (l : list PooledConnection) :
  (∀ x y, h x = Some y → connection y = connection x) →
  (connection <$> omap h l) `sublist_of` (connection <$> l).
Proof.
  intros Hh. induction l as [|a l IH]; [done|]. cbn.
  destruct (h a) as [b|] eqn:Hb; cbn.
  - rewrite (Hh a b Hb). by apply sublist_skip.
  - by apply sublist_cons.
Qed.

Lemma omap_ext_in {A B : Type} (f g : A → option B) (l : list A) :
  (∀ x, x ∈ l → f x = g x) → omap f l = omap g l.
Proof.
  intros H. induction l as [|a l IH]; [done|]. cbn.
  rewrite (H a) by (by left). rewrite IH; [done|].
  intros x Hx. apply H. by right.
Qed.

Lemma record_unique (l : list PooledConnection) (x y : PooledConnection) :
  NoDup (connection <$> l) → x ∈ l → y ∈ l →
  connection x = connection y → x = y.
Proof.
  intros Hnodup [i Hi]%list_elem_of_lookup [j Hj]%list_elem_of_lookup Heq.
  assert (i = j) as ->; [|congruence].
  eapply NoDup_lookup; [done| |].
  - rewrite list_lookup_fmap, Hi. done.
  - rewrite list_lookup_fmap, Hj. cbn. by rewrite Heq.
Qed.

Lemma arrayFind_wraps_alter (c : nat) (f : PooledConnection → PooledConnection)
    (l : list PooledConnection) :
  (∀ y, connection (f y) = connection y) →
  ∀ i x, arrayFind (wraps c) l = Some (i, x) →
    arrayFind (wraps c) (alter f i l) = Some (i, f x).
Proof.
  intros Hf. induction l as [|a l IH]; intros i x; [done|]. cbn.
  destruct (wraps c a) eqn:Ha.
  - intros [= <- <-]. cbn. unfold wraps in *. by rewrite Hf, Ha.
  - destruct (arrayFind (wraps c) l) as [[k z]|] eqn:Hl; [|done].
    cbn. intros [= <- <-].
    change (alter f (S k) (a :: l)) with (a :: alter f k l). cbn.
    by rewrite Ha, (IH k z).
Qed.

Lemma delete_alter_same {A : Type} (f : A → A) (l : list A) (i : nat) :
  delete i (alter f i l) = delete i l.
Proof.
  revert i. induction l as [|a l IH]; intros [|i]; try done.
  change (a :: delete i (alter f i l) = a :: delete i l). by rewrite IH.
Qed.

Lemma arrayFind_wraps (c : nat) (l : list PooledConnection) (i : nat)
    (x : PooledConnection) :
  arrayFind (wraps c) l = Some (i, x) →
  l !! i = Some x ∧ connection x = c ∧ x ∈ l.
Proof.
  intros (Hi & Hw%Nat.eqb_eq & _)%arrayFind_Some.
  repeat split; [done..|]. by eapply list_elem_of_lookup_2.
Qed.

Lemma arrayFind_wraps_None (c : nat) (l : list PooledConnection) :
  arrayFind (wraps c) l = None ↔ c ∉ connection <$> l.
Proof.
  rewrite arrayFind_None. split.
  - intros H (x & -> & Hx)%list_elem_of_fmap.
    specialize (H x Hx). unfold wraps in H. by rewrite Nat.eqb_refl in H.
  - intros H x Hx. apply Nat.eqb_neq. intros Heq. apply H. rewrite <- Heq.
    by apply list_elem_of_fmap_2.
Qed.

(** The records after [recordFailure]. *)
Lemma recordFailure_connections (p : t) (i : nat) (conn : PooledConnection) :
  NoDup (ids p) →
  arrayFind (wraps (connection conn)) (connections p) = Some (i, conn) →
  connections (recordFailure i p)
  = omap (onRecord (connection conn)
            (fun y => if (3 <? S (healthCheckFailures y))%nat then None
                      else Some (setFailures (S (healthCheckFailures y)) y)))
      (connections p).
Proof.
  intros Hnodup Hfind.
  pose proof (arrayFind_wraps _ _ _ _ Hfind) as (Hi & _ & Hin).
  unfold recordFailure. rewrite Hi.
  set (failures := S (healthCheckFailures conn)).
  assert (∀ y, y ∈ connections p → wraps (connection conn) y = true → y = conn)
    as Huniq.
  { intros y Hy Hw%Nat.eqb_eq. by apply (record_unique (connections p)). }
  destruct (Nat.ltb_spec 3 failures) as [Hmany|Hfew].
  - cbn [destroy connections]. unfold removeConnection.
    rewrite findIndex_arrayFind. cbn [with_metrics with_connections connections].
    rewrite (arrayFind_wraps_alter (connection conn) (setFailures failures)
               (connections p) (fun _ => eq_refl) i conn Hfind).
    cbn [fmap option_fmap option_map fst updateMetrics with_metrics
         with_connections connections].
    rewrite delete_alter_same, (delete_as_omap _ i conn) by done.
    apply omap_ext_in. intros y Hy. unfold onRecord.
    destruct (wraps (connection conn) y) eqn:Hw; [|done].
    rewrite (Huniq y Hy Hw). fold failures.
    by destruct (Nat.ltb_spec 3 failures); [|lia].
  - cbn [with_metrics with_connections connections].
    rewrite (alter_as_omap _ _ i conn) by done.
    apply omap_ext_in. intros y Hy. unfold onRecord.
    destruct (wraps (connection conn) y) eqn:Hw; [|done].
    rewrite (Huniq y Hy Hw). fold failures.
    by destruct (Nat.ltb_spec 3 failures); [lia|].
Qed.

(** The records after one probe. *)
Lemma probe_connections (connectedAtStart probeOk : nat → bool) (p : t)
    (c : nat) :
  NoDup (ids p) →
  connections (probe connectedAtStart probeOk p c)
  = omap (onRecord c (probeStep connectedAtStart probeOk c)) (connections p).
Proof.
  intros Hnodup. unfold probe.
  destruct (arrayFind (wraps c) (connections p)) as [[i conn]|] eqn:Hfind.
  - pose proof (arrayFind_wraps _ _ _ _ Hfind) as (Hi & Hc & Hin). subst c.
    unfold probeStep.
    destruct (connectedAtStart (connection conn) && probeOk (connection conn)).
    + cbn [with_connections connections].
      by rewrite (alter_as_omap _ _ i conn).
    + by apply recordFailure_connections.
  - apply arrayFind_wraps_None in Hfind.
    by rewrite omap_onRecord_absent.
Qed.

Lemma arrayFind_wraps_in (l : list PooledConnection) (conn : PooledConnection) :
  NoDup (connection <$> l) → conn ∈ l →
  ∃ i, arrayFind (wraps (connection conn)) l = Some (i, conn).
Proof.
  intros Hnodup Hin.
  destruct (arrayFind (wraps (connection conn)) l) as [[i x]|] eqn:Hfind.
  - pose proof (arrayFind_wraps _ _ _ _ Hfind) as (_ & Hc & Hx).
    exists i. by rewrite (record_unique l x conn).
  - apply arrayFind_wraps_None in Hfind. exfalso. apply Hfind.
    by apply list_elem_of_fmap_2.
Qed.

Lemma probeStep_connection (connectedAtStart probeOk : nat → bool) (c : nat)
    (x y : PooledConnection) :
  probeStep connectedAtStart probeOk c x = Some y → connection y = connection x.
Proof.
  unfold probeStep. destruct (connectedAtStart c && probeOk c).
  - by intros [= <-].
  - destruct (3 <? S (healthCheckFailures x))%nat; [done|]. by intros [= <-].
Qed.

Lemma onRecord_connection (c : nat) h (x y : PooledConnection) :
  (∀ x y, h x = Some y → connection y = connection x) →
  onRecord c h x = Some y → connection y = connection x.
Proof.
  intros Hh. unfold onRecord. destruct (wraps c x); [apply Hh|].
  by intros [= <-].
Qed.

(** One probe keeps the records of the other connections and brings in no
    duplicate. *)
Lemma probe_keeps (connectedAtStart probeOk : nat → bool) (p : t) (c : nat) :
  NoDup (ids p) →
  NoDup (ids (probe connectedAtStart probeOk p c))
  ∧ (∀ conn, conn ∈ connections p → connection conn ≠ c →
             conn ∈ connections (probe connectedAtStart probeOk p c))
  ∧ (∀ c', c' ∈ ids p → c' ≠ c →
           c' ∈ ids (probe connectedAtStart probeOk p c)).
Proof.
  intros Hnodup.
  assert (∀ conn, conn ∈ connections p → connection conn ≠ c →
                  conn ∈ connections (probe connectedAtStart probeOk p c))
    as Hkeep.
  { intros conn Hin Hne. rewrite probe_connections by done.
    apply list_elem_of_omap. exists conn. split; [done|].
    unfold onRecord, wraps. by destruct (Nat.eqb_spec (connection conn) c). }
  repeat split; [|done|].
  - unfold ids. rewrite probe_connections by done.
    apply (sublist_NoDup _ (ids p)); [exact Hnodup|].
    apply omap_ids_sublist. intros x y.
    apply onRecord_connection. apply probeStep_connection.
  - intros c' (conn & -> & Hin)%list_elem_of_fmap Hne.
    apply list_elem_of_fmap_2. by apply Hkeep.
Qed.

Lemma recordFailure_metric (p : t) (i : nat) (conn : PooledConnection) :
  connections p !! i = Some conn →
  Metrics.healthCheckFailures (metrics (recordFailure i p))
  = S (Metrics.healthCheckFailures (metrics p))
  ∧ allocated (recordFailure i p) = allocated p
  ∧ (∀ x, x ∈ destroyed p → x ∈ destroyed (recordFailure i p))
  ∧ ((3 < S (healthCheckFailures conn))%nat →
     connection conn ∈ destroyed (recordFailure i p)).
Proof.
  intros Hi. unfold recordFailure. rewrite Hi.
  destruct (Nat.ltb_spec 3 (S (healthCheckFailures conn))) as [Hmany|Hfew].
  - unfold removeConnection.
    destruct (findIndex _ _); cbn; repeat split; try done;
      intros; set_solver.
  - cbn. repeat split; try done. lia.
Qed.

Lemma probe_fields (connectedAtStart probeOk : nat → bool) (p : t) (c : nat) :
  allocated (probe connectedAtStart probeOk p c) = allocated p
  ∧ (∀ x, x ∈ destroyed p → x ∈ destroyed (probe connectedAtStart probeOk p c))
  ∧ (c ∈ ids p →
     Metrics.healthCheckFailures (metrics (probe connectedAtStart probeOk p c))
     = (Metrics.healthCheckFailures (metrics p)
        + if connectedAtStart c && probeOk c then 0 else 1)%nat)
  ∧ (∀ conn, NoDup (ids p) → conn ∈ connections p → connection conn = c →
       connectedAtStart c && probeOk c = false →
       (3 < S (healthCheckFailures conn))%nat →
       c ∈ destroyed (probe connectedAtStart probeOk p c)).
Proof.
  unfold probe.
  destruct (arrayFind (wraps c) (connections p)) as [[i x]|] eqn:Hfind.
  - pose proof (arrayFind_wraps _ _ _ _ Hfind) as (Hi & Hc & Hin).
    pose proof (recordFailure_metric p i x Hi) as (Hm & Ha & Hd & He).
    destruct (connectedAtStart c && probeOk c) eqn:Hok.
    + cbn. repeat split; try done; intros; lia.
    + repeat split; try done.
      * intros _. lia.
      * intros conn Hnodup Hconn Hcc _ Hmany.
        assert (conn = x) as -> by (apply (record_unique (connections p));
                                    [done..|congruence]).
        rewrite <- Hc. by apply He.
  - apply arrayFind_wraps_None in Hfind. repeat split; try done.
    intros conn _ Hconn <-. exfalso. apply Hfind.
    by apply list_elem_of_fmap_2.
Qed.

(** The probes of one health check, one after the other. *)
Lemma probes_connections (connectedAtStart probeOk : nat → bool) :
  ∀ (cs : list nat) (p : t),
    NoDup (ids p) → NoDup cs →
    connections (foldl (probe connectedAtStart probeOk) p cs)
    = omap (fun conn =>
              if bool_decide (connection conn ∈ cs)
              then probeStep connectedAtStart probeOk (connection conn) conn
              else Some conn)
        (connections p).
Proof.
  induction cs as [|c cs IH]; intros p Hnodup Hcs.
  - cbn. induction (connections p) as [|a l IHl]; [done|].
    cbn. by rewrite <- IHl.
  - apply NoDup_cons in Hcs as [Hc Hcs]. cbn [foldl].
    destruct (probe_keeps connectedAtStart probeOk p c Hnodup) as (Hnodup1 & _).
    rewrite IH by done. rewrite probe_connections by done.
    rewrite omap_omap. apply omap_ext_in. intros conn Hconn.
    unfold onRecord, wraps.
    destruct (Nat.eqb_spec (connection conn) c) as [Heq|Hne].
    + rewrite bool_decide_eq_true_2 by (rewrite Heq; by left).
      rewrite Heq.
      destruct (probeStep connectedAtStart probeOk c conn) as [conn'|] eqn:Hstep;
        [|done].
      cbn. apply probeStep_connection in Hstep.
      rewrite bool_decide_eq_false_2; [done|]. congruence.
    + cbn. destruct (decide (connection conn ∈ cs)) as [Hin|Hnotin].
      * rewrite !bool_decide_eq_true_2; [done| |done]. by right.
      * rewrite !bool_decide_eq_false_2; [done| |done].
        by intros [?|?]%elem_of_cons.
Qed.

Lemma probes_fields (connectedAtStart probeOk : nat → bool) :
  ∀ (cs : list nat) (p : t),
    NoDup (ids p) → NoDup cs → (∀ c, c ∈ cs → c ∈ ids p) →
    let p' := foldl (probe connectedAtStart probeOk) p cs in
    allocated p' = allocated p
    ∧ (∀ x, x ∈ destroyed p → x ∈ destroyed p')
    ∧ Metrics.healthCheckFailures (metrics p')
      = (Metrics.healthCheckFailures (metrics p)
         + length (List.filter
                     (fun c => negb (connectedAtStart c && probeOk c)) cs))%nat
    ∧ (∀ conn, conn ∈ connections p → connection conn ∈ cs →
         connectedAtStart (connection conn) && probeOk (connection conn) = false →
         (3 < S (healthCheckFailures conn))%nat →
         connection conn ∈ destroyed p').
Proof.
  induction cs as [|c cs IH]; intros p Hnodup Hcs Hsub p'.
  - unfold p'. cbn. repeat split; try done; try lia.
    intros conn _ Hin. by apply elem_of_nil in Hin.
  - apply NoDup_cons in Hcs as [Hc Hcs]. unfold p'. cbn [foldl].
    destruct (probe_keeps connectedAtStart probeOk p c Hnodup)
      as (Hnodup1 & Hkeep & Hids).
    destruct (probe_fields connectedAtStart probeOk p c) as (Ha & Hd & Hm & He).
    destruct (IH (probe connectedAtStart probeOk p c) Hnodup1 Hcs)
      as (Ha' & Hd' & Hm' & He').
    { intros c' Hc'. apply Hids; [apply Hsub; by right|]. by intros ->. }
    repeat split.
    + congruence.
    + auto.
    + rewrite Hm', Hm by (apply Hsub; by left). cbn [List.filter].
      destruct (connectedAtStart c && probeOk c); cbn; lia.
    + intros conn Hconn [Heq|Hin]%elem_of_cons Hfail Hmany.
      * apply Hd'. rewrite Heq in *. by apply (He conn).
      * apply He'; try done. apply Hkeep; [done|]. by intros <-.
Qed.

End HealthCheck.

Section NeverAgain.
Import Pool.

Lemma grows_refl (p : t) : grows p p.
Proof. split; [done|]. by left. Qed.

Lemma grows_trans (p1 p2 p3 : t) : grows p1 p2 → grows p2 p3 → grows p1 p3.
Proof.
  intros [Ha1 Hi1] [Ha2 Hi2]. split; [lia|].
  intros x Hx. destruct (Hi2 x Hx) as [H|H]; [|right; lia].
  destruct (Hi1 x H); [by left|by right].
Qed.

Lemma grows_same (p p' : t) :
  allocated p' = allocated p → (∀ x, x ∈ ids p' → x ∈ ids p) → grows p p'.
Proof. intros Ha Hi. split; [lia|]. intros x Hx. left. by apply Hi. Qed.

Lemma ids_alter (f : PooledConnection → PooledConnection) (i : nat)
    (l : list PooledConnection) :
  (∀ y, connection (f y) = connection y) →
  connection <$> alter f i l = connection <$> l.
Proof.
  intros Hf. revert i. induction l as [|a l IH]; intros [|i]; try done.
  - cbn. by rewrite Hf.
  - change (alter f (S i) (a :: l)) with (a :: alter f i l).
    rewrite !fmap_cons. by rewrite IH.
Qed.

Lemma ids_delete (i : nat) (l : list PooledConnection) (x : nat) :
  x ∈ connection <$> delete i l → x ∈ connection <$> l.
Proof.
  revert i. induction l as [|a l IH]; intros [|i]; try done.
  - cbn. intros H. by right.
  - change (delete (S i) (a :: l)) with (a :: delete i l).
    rewrite !fmap_cons. intros [->|H]%elem_of_cons; [by left|].
    right. by apply (IH i).
Qed.

Lemma takeIdle_grows (now : Z) (i : nat) (p : t) : grows p (takeIdle now i p).
Proof.
  apply grows_same; [done|]. intros x. unfold ids. cbn.
  by rewrite ids_alter.
Qed.

Lemma release_grows (now : Z) (c : nat) (p : t) : grows p (release now c p).
Proof.
  unfold release. destruct (arrayFind _ _) as [[i conn]|]; [|apply grows_refl].
  apply grows_same; [done|]. intros x. unfold ids. cbn. by rewrite ids_alter.
Qed.

Lemma removeConnection_grows (c : nat) (p : t) : grows p (removeConnection c p).
Proof.
  unfold removeConnection. destruct (findIndex _ _) as [i|]; [|apply grows_refl].
  apply grows_same; [done|]. intros x. unfold ids. cbn. apply ids_delete.
Qed.

Lemma recordFailure_grows (i : nat) (p : t) : grows p (recordFailure i p).
Proof.
  unfold recordFailure.
  destruct (connections p !! i) as [conn|]; [|apply grows_refl].
  set (p1 := with_metrics _ _).
  assert (grows p p1) as H1.
  { apply grows_same; [done|]. intros x. unfold ids. cbn. by rewrite ids_alter. }
  destruct (3 <? S (healthCheckFailures conn))%nat; [|done].
  eapply grows_trans; [exact H1|].
  eapply grows_trans; [apply (removeConnection_grows (connection conn))|].
  by apply grows_same.
Qed.

Lemma probe_grows (connectedAtStart probeOk : nat → bool) (p : t) (c : nat) :
  grows p (probe connectedAtStart probeOk p c).
Proof.
  unfold probe. destruct (arrayFind _ _) as [[i conn]|]; [|apply grows_refl].
  destruct (connectedAtStart c && probeOk c); [|apply recordFailure_grows].
  apply grows_same; [done|]. intros x. unfold ids. cbn. by rewrite ids_alter.
Qed.

Lemma performHealthCheck_grows (probeOk : nat → bool) (p : t) :
  grows p (performHealthCheck probeOk p).
Proof.
  unfold performHealthCheck.
  generalize (isConnected p) as connectedAtStart.
  generalize (connection <$>
                List.filter (fun conn => negb (inUse conn)) (connections p)).
  intros cs connectedAtStart.
  apply (grows_trans _ (foldl (probe connectedAtStart probeOk) p cs));
    [|by apply grows_same].
  revert p. induction cs as [|c cs IH]; intros p; [apply grows_refl|].
  cbn [foldl]. eapply grows_trans; [apply probe_grows|apply IH].
Qed.

Lemma createConnection_grows (now : Z) (connectOk : bool) (p : t) :
  grows p (createConnection now connectOk p).1
  ∧ ∀ c, (createConnection now connectOk p).2 = Some c → c = allocated p.
Proof.
  unfold createConnection. destruct connectOk; cbn.
  - split; [|by intros c [= <-]]. split; [cbn; lia|].
    intros x. unfold ids. cbn. rewrite fmap_app.
    intros [H|H]%elem_of_app; [by left|].
    apply list_elem_of_singleton in H as ->. by right.
  - split; [|done]. split; [cbn; lia|]. intros x Hx. by left.
Qed.

Lemma createAndRelease_grows (count : nat) (now : Z) (connectOk : nat → bool) :
  ∀ p, grows p (createAndRelease count now connectOk p).
Proof.
  induction count as [|count IH]; intros p; [apply grows_refl|].
  cbn [createAndRelease].
  pose proof (createConnection_grows now (connectOk (allocated p)) p) as [Hg _].
  destruct (createConnection now (connectOk (allocated p)) p) as [p1 [c|]];
    cbn [fst] in Hg.
  - eapply grows_trans; [exact Hg|].
    eapply grows_trans; [apply (release_grows now c)|apply IH].
  - eapply grows_trans; [exact Hg|apply IH].
Qed.

Lemma found_in_ids (f : PooledConnection → bool) (p : t) (i : nat)
    (conn : PooledConnection) :
  arrayFind f (connections p) = Some (i, conn) → connection conn ∈ ids p.
Proof.
  intros (Hi & _)%arrayFind_Some. apply list_elem_of_fmap_2.
  by eapply list_elem_of_lookup_2.
Qed.

(** What an operation hands out is a connection of the pool or a new one. *)
Lemma run_grows (op : Op) (p : t) :
  grows p (run op p).1
  ∧ ∀ c, (run op p).2 = Some c → c ∈ ids p ∨ (allocated p ≤ c)%nat.
Proof.
  destruct op as [now connectOk|now w|now c|probeOk|now n connectOk|c|c]; cbn.
  - unfold acquire.
    destruct (arrayFind _ _) as [[i conn]|] eqn:Hfind.
    + cbn. split; [apply takeIdle_grows|].
      intros c [= <-]. left. by eapply found_in_ids.
    + destruct (Z.of_nat (length (connections p)) <? poolSize p)%Z.
      * pose proof (createConnection_grows now connectOk p) as [Hg Hc].
        destruct (createConnection now connectOk p) as [p1 [c|]]; cbn in *.
        -- split; [by destruct Hg|].
           intros c' [= <-]. right. rewrite (Hc c eq_refl). lia.
        -- done.
      * unfold checkForConnection. rewrite Hfind. cbn.
        split; [apply grows_refl|done].
  - unfold checkForConnection.
    destruct (arrayFind _ _) as [[i conn]|] eqn:Hfind; cbn.
    + split; [apply takeIdle_grows|].
      destruct (result w); [done|]. cbn.
      intros c [= <-]. left. by eapply found_in_ids.
    + split; [apply grows_refl|]. by destruct (result w).
  - split; [apply release_grows|done].
  - split; [apply performHealthCheck_grows|done].
  - split; [|done]. unfold warmUp.
    destruct (connectionsToCreate n p <=? 0)%Z;
      [apply grows_refl|apply createAndRelease_grows].
  - split; [|done]. unfold handleConnectionError.
    destruct (arrayFind _ _) as [[i conn]|];
      [apply recordFailure_grows|apply grows_refl].
  - split; [apply removeConnection_grows|done].
Qed.

Lemma grows_gone (c : nat) (p p' : t) : grows p p' → gone c p → gone c p'.
Proof.
  intros [Ha Hi] [Hlt Hnotin]. split; [lia|].
  intros Hin. destruct (Hi c Hin); [done|lia].
Qed.

(** A connection that was dropped from the pool is never handed out
    again, whatever happens to the pool. *)
Lemma gone_never_handed_out (c : nat) (ops : list Op) :
  ∀ p, gone c p → c ∉ (runAll ops p).2.
Proof.
  induction ops as [|op ops IH]; intros p Hgone.
  - cbn. apply not_elem_of_nil.
  - cbn [runAll].
    pose proof (run_grows op p) as [Hg Hc].
    destruct (run op p) as [p1 handed]. cbn [fst snd] in *.
    specialize (IH p1 (grows_gone c p p1 Hg Hgone)).
    destruct (runAll ops p1) as [p2 more]. cbn [snd] in *.
    destruct handed as [c'|]; [|done].
    apply not_elem_of_cons. split; [|done].
    intros <-. destruct Hgone as [Hlt Hnotin].
    destruct (Hc c eq_refl); [done|lia].
Qed.

End NeverAgain.

Section HealthCheckRound.
Import Pool.

Lemma NoDup_fmap_filter {A B : Type} (f : A → B) (g : A → bool) (l : list A) :
  NoDup (f <$> l) → NoDup (f <$> List.filter g l).
Proof.
  induction l as [|a l IH]; [done|].
  rewrite fmap_cons. intros [Hnotin Hnodup]%NoDup_cons. cbn.
  destruct (g a); [|by apply IH].
  rewrite fmap_cons. apply NoDup_cons. split; [|by apply IH].
  intros (x & Hx & Hin)%list_elem_of_fmap. apply Hnotin. rewrite Hx.
  apply list_elem_of_fmap_2.
  apply list_elem_of_In in Hin. apply List.filter_In in Hin as [Hin _].
  by apply list_elem_of_In.
Qed.

Lemma elem_of_List_filter {A : Type} (g : A → bool) (l : list A) (x : A) :
  x ∈ List.filter g l ↔ x ∈ l ∧ g x = true.
Proof. rewrite !list_elem_of_In. apply List.filter_In. Qed.

Lemma length_filter_fmap_filter {A B : Type} (f : A → B) (g : B → bool)
    (h : A → bool) (l : list A) :
  length (List.filter g (f <$> List.filter h l))
  = length (List.filter (fun x => h x && g (f x)) l).
Proof.
  induction l as [|a l IH]; [done|]. cbn.
  destruct (h a); cbn; [|done].
  destruct (g (f a)); cbn; by rewrite IH.
Qed.

(** The connections of the idle records are exactly the ones probed or
    found disconnected. *)
Lemma idle_ids (p : t) (conn : PooledConnection) :
  NoDup (ids p) → conn ∈ connections p →
  (connection conn
     ∈ connection <$> List.filter (fun x => negb (inUse x)) (connections p))
  ↔ inUse conn = false.
Proof.
  intros Hnodup Hin. split.
  - intros (x & Hc & Hx)%list_elem_of_fmap.
    apply elem_of_List_filter in Hx as [Hx Hidle].
    rewrite (record_unique (connections p) conn x) by done.
    by apply negb_true_iff.
  - intros Hidle. apply list_elem_of_fmap_2, elem_of_List_filter.
    split; [done|]. by rewrite Hidle.
Qed.

Lemma performHealthCheck_connections (probeOk : nat → bool) (p : t) :
  NoDup (ids p) →
  connections (performHealthCheck probeOk p)
  = omap (healthChecked probeOk p) (connections p).
Proof.
  intros Hnodup. unfold performHealthCheck.
  change (connections (updateMetrics ?q)) with (connections q).
  rewrite probes_connections; [|done|by apply NoDup_fmap_filter].
  apply omap_ext_in. intros conn Hin. unfold healthChecked.
  destruct (inUse conn) eqn:Huse.
  - rewrite bool_decide_eq_false_2; [done|].
    rewrite idle_ids by done. congruence.
  - rewrite bool_decide_eq_true_2; [done|]. by rewrite idle_ids.
Qed.

(** A failed probe below the threshold adds one to the counter of the
    record. *)
Lemma failed_probe_counts (probeOk : nat → bool) (p : t)
    (conn : PooledConnection) :
  NoDup (ids p) → conn ∈ connections p → probeFails probeOk p conn = true →
  (healthCheckFailures conn < 3)%nat →
  setFailures (S (healthCheckFailures conn)) conn
    ∈ connections (performHealthCheck probeOk p).
Proof.
  intros Hnodup Hin Hfail Hfew.
  rewrite performHealthCheck_connections by done. apply list_elem_of_omap.
  exists conn. split; [done|]. unfold healthChecked.
  unfold probeFails in Hfail. apply andb_prop in Hfail as [Hidle Hbad].
  apply negb_true_iff in Hidle, Hbad. rewrite Hidle, Hbad.
  by destruct (Nat.ltb_spec 3 (S (healthCheckFailures conn))); [lia|].
Qed.

(** A failed probe that takes the counter above 3 removes the record and
    destroys the connection. *)
Lemma failed_probe_evicts (probeOk : nat → bool) (p : t)
    (conn : PooledConnection) :
  NoDup (ids p) → conn ∈ connections p → probeFails probeOk p conn = true →
  (3 < S (healthCheckFailures conn))%nat →
  (connection conn ∉ ids (performHealthCheck probeOk p))
  ∧ connection conn ∈ destroyed (performHealthCheck probeOk p).
Proof.
  intros Hnodup Hin Hfail Hmany.
  unfold probeFails in Hfail. apply andb_prop in Hfail as [Hidle Hbad].
  apply negb_true_iff in Hidle, Hbad. split.
  - unfold ids. rewrite performHealthCheck_connections by done.
    intros (y & Hy & Hyin)%list_elem_of_fmap.
    apply list_elem_of_omap in Hyin as (x & Hx & Hstep).
    assert (connection y = connection x) as Hyx.
    { unfold healthChecked in Hstep. destruct (inUse x); [congruence|].
      by apply probeStep_connection in Hstep. }
    assert (x = conn) as ->.
    { apply (record_unique (connections p)); [done..|congruence]. }
    unfold healthChecked in Hstep. rewrite Hidle, Hbad in Hstep.
    by destruct (Nat.ltb_spec 3 (S (healthCheckFailures conn))); [|lia].
  - set (cs := connection <$>
                 List.filter (fun x => negb (inUse x)) (connections p)).
    assert (NoDup cs) as Hcs by (by apply NoDup_fmap_filter).
    assert (∀ c, c ∈ cs → c ∈ ids p) as Hsub.
    { intros c (x & -> & Hx)%list_elem_of_fmap.
      apply elem_of_List_filter in Hx as [Hx _]. by apply list_elem_of_fmap_2. }
    destruct (probes_fields (isConnected p) probeOk cs p Hnodup Hcs Hsub)
      as (_ & _ & _ & Hdestroyed).
    apply (Hdestroyed conn); try done. unfold cs. by apply idle_ids.
Qed.

(** C6.  One health check of a pool whose records wrap distinct
    connections.  Only idle records are probed, and the records in use are
    left as they are.  A probe that fails (the connection is not connected,
    or the PING is not answered) adds one to the failure counter of the
    record and to the counter of the pool; a probe that succeeds sets the
    counter of the record to zero.  A record whose counter exceeds 3 after
    the failure, that is at the fourth failure in a row, is removed from the
    pool, its connection is destroyed, and whatever happens to the pool
    afterwards no [acquire()] hands that connection out again. *)
Theorem health_check_round (probeOk : nat → bool) (p : t) :
  wf p →
  let p' := performHealthCheck probeOk p in
  (∀ c, c ∈ probed p →
        ∃ conn, conn ∈ connections p ∧ connection conn = c ∧ inUse conn = false)
  ∧ (∀ conn, conn ∈ connections p → inUse conn = true →
             conn ∈ connections p')
  ∧ Metrics.healthCheckFailures (metrics p')
    = (Metrics.healthCheckFailures (metrics p)
       + length (List.filter (probeFails probeOk p) (connections p)))%nat
  ∧ (∀ conn, conn ∈ connections p → inUse conn = false →
       isConnected p (connection conn) && probeOk (connection conn) = true →
       setFailures 0 conn ∈ connections p')
  ∧ (∀ conn, conn ∈ connections p → probeFails probeOk p conn = true →
       (healthCheckFailures conn < 3)%nat →
       setFailures (S (healthCheckFailures conn)) conn ∈ connections p')
  ∧ (∀ conn, conn ∈ connections p → probeFails probeOk p conn = true →
       (3 < S (healthCheckFailures conn))%nat →
       (connection conn ∉ ids p')
       ∧ connection conn ∈ destroyed p'
       ∧ ∀ ops, connection conn ∉ (runAll ops p').2).
Proof.
  intros [Hnodup Hlt] p'.
  pose proof (performHealthCheck_connections probeOk p Hnodup) as Hconns.
  fold p' in Hconns.
  set (cs := connection <$>
               List.filter (fun x => negb (inUse x)) (connections p)).
  assert (NoDup cs) as Hcs by (by apply NoDup_fmap_filter).
  assert (∀ c, c ∈ cs → c ∈ ids p) as Hsub.
  { intros c (x & -> & Hx)%list_elem_of_fmap.
    apply elem_of_List_filter in Hx as [Hx _]. by apply list_elem_of_fmap_2. }
  destruct (probes_fields (isConnected p) probeOk cs p Hnodup Hcs Hsub)
    as (Halloc & _ & Hmetric & Hdestroyed).
  split; [|split; [|split; [|split; [|split]]]].
  - intros c (conn & -> & Hconn)%list_elem_of_fmap.
    apply elem_of_List_filter in Hconn as [Hin Hidle].
    exists conn. repeat split; [done|].
    unfold idleConnected in Hidle. apply andb_prop in Hidle as [Hfree _].
    by apply negb_true_iff.
  - intros conn Hin Huse. rewrite Hconns. apply list_elem_of_omap.
    exists conn. split; [done|]. unfold healthChecked. by rewrite Huse.
  - unfold p', performHealthCheck.
    change (metrics (updateMetrics ?q))
      with (Metrics.counted
              (length (List.filter inUse (connections q)))
              (length (List.filter (fun conn => negb (inUse conn))
                         (connections q))) (metrics q)).
    cbn [Metrics.healthCheckFailures Metrics.counted].
    fold cs. rewrite Hmetric. f_equal. unfold cs.
    rewrite length_filter_fmap_filter. done.
  - intros conn Hin Hidle Hok. rewrite Hconns. apply list_elem_of_omap.
    exists conn. split; [done|]. unfold healthChecked. by rewrite Hidle, Hok.
  - intros conn Hin Hfail Hfew. by apply failed_probe_counts.
  - intros conn Hin Hfail Hmany.
    destruct (failed_probe_evicts probeOk p conn Hnodup Hin Hfail Hmany)
      as [Hnotin Hgone].
    repeat split; [done..|].
    intros ops. apply gone_never_handed_out. split; [|done].
    change (allocated p') with
      (allocated (foldl (probe (isConnected p) probeOk) p cs)).
    rewrite Halloc. apply Hlt. by apply list_elem_of_fmap_2.
Qed.

Lemma performHealthCheck_wf (probeOk : nat → bool) (p : t) :
  wf p → wf (performHealthCheck probeOk p).
Proof.
  intros [Hnodup Hlt].
  pose proof (performHealthCheck_grows probeOk p) as [Ha Hi].
  assert (∀ x y, healthChecked probeOk p x = Some y →
                 connection y = connection x) as Hsame.
  { intros x y. unfold healthChecked. destruct (inUse x); [congruence|].
    apply probeStep_connection. }
  assert (ids (performHealthCheck probeOk p) `sublist_of` ids p) as Hsub.
  { unfold ids. rewrite performHealthCheck_connections by done.
    by apply omap_ids_sublist. }
  split.
  - by apply (sublist_NoDup _ (ids p)).
  - intros c Hc. assert (c < allocated p)%nat; [|lia].
    apply Hlt. by eapply elem_of_sublist.
Qed.

(** X12.  Four health checks in a row in which the probe of an idle
    connection fails: the counter goes 1, 2, 3, and the fourth failure removes
    the record and destroys the connection. *)
Lemma four_failed_probes_evict (ok1 ok2 ok3 ok4 : nat → bool) (p : t)
    (conn : PooledConnection) :
  wf p → conn ∈ connections p → inUse conn = false →
  healthCheckFailures conn = 0%nat →
  ok1 (connection conn) = false → ok2 (connection conn) = false →
  ok3 (connection conn) = false → ok4 (connection conn) = false →
  let p1 := performHealthCheck ok1 p in
  let p2 := performHealthCheck ok2 p1 in
  let p3 := performHealthCheck ok3 p2 in
  let p4 := performHealthCheck ok4 p3 in
  setFailures 1 conn ∈ connections p1
  ∧ setFailures 2 conn ∈ connections p2
  ∧ setFailures 3 conn ∈ connections p3
  ∧ (connection conn ∉ ids p4)
  ∧ connection conn ∈ destroyed p4.
Proof.
  intros Hwf Hin Hidle Hzero H1 H2 H3 H4 p1 p2 p3 p4.
  assert (∀ ok q n, ok (connection conn) = false →
            probeFails ok q (setFailures n conn) = true) as Hfails.
  { intros ok q n Hok. unfold probeFails. cbn. rewrite Hidle, Hok.
    by rewrite andb_false_r. }
  pose proof (performHealthCheck_wf ok1 p Hwf) as Hwf1. fold p1 in Hwf1.
  pose proof (performHealthCheck_wf ok2 p1 Hwf1) as Hwf2. fold p2 in Hwf2.
  pose proof (performHealthCheck_wf ok3 p2 Hwf2) as Hwf3. fold p3 in Hwf3.
  assert (conn = setFailures 0 conn) as Hconn.
  { destruct conn; cbn in *; by subst. }
  assert (setFailures 1 conn ∈ connections p1) as Hin1.
  { rewrite Hconn in Hin.
    apply (failed_probe_counts ok1 p (setFailures 0 conn));
      [apply Hwf|done|by apply Hfails|cbn; lia]. }
  assert (setFailures 2 conn ∈ connections p2) as Hin2.
  { apply (failed_probe_counts ok2 p1 (setFailures 1 conn));
      [apply Hwf1|done|by apply Hfails|cbn; lia]. }
  assert (setFailures 3 conn ∈ connections p3) as Hin3.
  { apply (failed_probe_counts ok3 p2 (setFailures 2 conn));
      [apply Hwf2|done|by apply Hfails|cbn; lia]. }
  destruct (failed_probe_evicts ok4 p3 (setFailures 3 conn)) as [Hgone Hdead];
    [apply Hwf3|done|by apply Hfails|cbn; lia|].
  done.
Qed.

End HealthCheckRound.

(** ** Every pool that can arise is well formed *)

Section Reachable.
Import Pool.

Lemma wf_sub (p p' : t) :
  wf p → ids p' `sublist_of` ids p → (allocated p ≤ allocated p')%nat → wf p'.
Proof.
  intros [Hnodup Hlt] Hsub Ha. split.
  - by apply (sublist_NoDup _ (ids p)).
  - intros c Hc. assert (c < allocated p)%nat; [|lia].
    apply Hlt. by eapply elem_of_sublist.
Qed.

Lemma ids_delete_sublist (i : nat) (l : list PooledConnection) :
  (connection <$> delete i l) `sublist_of` (connection <$> l).
Proof.
  revert i. induction l as [|a l IH]; intros [|i]; try done.
  - cbn. by apply sublist_cons.
  - change (delete (S i) (a :: l)) with (a :: delete i l).
    rewrite !fmap_cons. by apply sublist_skip.
Qed.

Lemma takeIdle_wf (now : Z) (i : nat) (p : t) : wf p → wf (takeIdle now i p).
Proof.
  intros Hwf. apply (wf_sub p); [done| |done].
  unfold ids. cbn. by rewrite ids_alter.
Qed.

Lemma release_wf (now : Z) (c : nat) (p : t) : wf p → wf (release now c p).
Proof.
  intros Hwf. unfold release.
  destruct (arrayFind _ _) as [[i conn]|]; [|done].
  apply (wf_sub p); [done| |done]. unfold ids. cbn. by rewrite ids_alter.
Qed.

Lemma removeConnection_wf (c : nat) (p : t) : wf p → wf (removeConnection c p).
Proof.
  intros Hwf. unfold removeConnection.
  destruct (findIndex _ _) as [i|]; [|done].
  apply (wf_sub p); [done| |done]. unfold ids. cbn. apply ids_delete_sublist.
Qed.

Lemma recordFailure_wf (i : nat) (p : t) : wf p → wf (recordFailure i p).
Proof.
  intros Hwf. unfold recordFailure.
  destruct (connections p !! i) as [conn|]; [|done].
  set (p1 := with_metrics _ _).
  assert (wf p1) as H1.
  { apply (wf_sub p); [done| |done]. unfold ids. cbn. by rewrite ids_alter. }
  destruct (3 <? S (healthCheckFailures conn))%nat; [|done].
  apply (wf_sub (removeConnection (connection conn) p1));
    [by apply removeConnection_wf|done..].
Qed.

Lemma createConnection_wf (now : Z) (connectOk : bool) (p : t) :
  wf p → wf (createConnection now connectOk p).1.
Proof.
  intros [Hnodup Hlt]. unfold createConnection. destruct connectOk; cbn.
  - split.
    + unfold ids. cbn. rewrite fmap_app. cbn. apply NoDup_app.
      repeat split; [done| |apply NoDup_singleton].
      intros c Hc Hin. apply list_elem_of_singleton in Hin as ->.
      specialize (Hlt _ Hc). lia.
    + unfold ids. cbn. rewrite fmap_app. cbn.
      intros c [Hc|Hc]%elem_of_app.
      * specialize (Hlt _ Hc). lia.
      * apply list_elem_of_singleton in Hc as ->. lia.
  - split; [done|]. cbn. intros c Hc. specialize (Hlt _ Hc). lia.
Qed.

Lemma createAndRelease_wf (count : nat) (now : Z) (connectOk : nat → bool) :
  ∀ p, wf p → wf (createAndRelease count now connectOk p).
Proof.
  induction count as [|count IH]; intros p Hwf; [done|].
  cbn [createAndRelease].
  pose proof (createConnection_wf now (connectOk (allocated p)) p Hwf) as H1.
  destruct (createConnection now (connectOk (allocated p)) p) as [p1 [c|]];
    cbn [fst] in H1.
  - by apply IH, release_wf.
  - by apply IH.
Qed.

Lemma run_wf (op : Op) (p : t) : wf p → wf (run op p).1.
Proof.
  intros Hwf.
  destruct op as [now connectOk|now w|now c|probeOk|now n connectOk|c|c]; cbn.
  - unfold acquire. destruct (arrayFind _ _) as [[i conn]|] eqn:Hfind.
    + by apply takeIdle_wf.
    + destruct (Z.of_nat (length (connections p)) <? poolSize p)%Z.
      * pose proof (createConnection_wf now connectOk p Hwf) as H1.
        by destruct (createConnection now connectOk p) as [p1 [c|]].
      * unfold checkForConnection. by rewrite Hfind.
  - unfold checkForConnection.
    destruct (arrayFind _ _) as [[i conn]|]; cbn; [by apply takeIdle_wf|done].
  - by apply release_wf.
  - by apply performHealthCheck_wf.
  - unfold warmUp. destruct (connectionsToCreate n p <=? 0)%Z; [done|].
    by apply createAndRelease_wf.
  - unfold handleConnectionError.
    destruct (arrayFind _ _) as [[i conn]|]; [by apply recordFailure_wf|done].
  - by apply removeConnection_wf.
Qed.

(** X8.  Whatever happens to a pool made by the constructor, one operation
    after the other, its records wrap distinct connections, each constructed
    by this pool. *)
Lemma reachable_wf (ops : list Op) (size timeout : Z) :
  wf (runAll ops (create size timeout)).1.
Proof.
  assert (∀ p, wf p → wf (runAll ops p).1) as H.
  { induction ops as [|op ops IH]; intros p Hwf; [done|].
    cbn [runAll]. pose proof (run_wf op p Hwf) as H1.
    destruct (run op p) as [p1 handed]. cbn [fst] in H1.
    specialize (IH p1 H1). by destruct (runAll ops p1) as [p2 more]. }
  apply H. split; [apply NoDup_nil_2|].
  intros c Hc. by apply elem_of_nil in Hc.
Qed.

End Reachable.

Section PoolWitnesses.
Import Pool.

Lemma wfb_wf (p : t) : wfb p = true → wf p.
Proof.
  unfold wfb, wf. intros [Hnodup Hall]%andb_prop.
  apply bool_decide_eq_true in Hnodup. split; [done|].
  intros c Hc. rewrite forallb_forall in Hall.
  apply Nat.ltb_lt, Hall. by apply list_elem_of_In.
Qed.

Lemma release_frame_witness :
  release 130 7 twoInUse = twoInUse
  ∧ connections (release 130 1 twoInUse)
    = <[1%nat := {| connection := 1; inUse := false; createdAt := 120;
                    lastUsed := 130; healthCheckFailures := 0 |}]>
        (connections twoInUse).
Proof.
  split.
  - refine (proj1 (release_frame 130 7 twoInUse) _).
    intros conn Hconn. vm_compute in Hconn.
    apply elem_of_cons in Hconn as [->|Hconn]; [cbn; lia|].
    apply list_elem_of_singleton in Hconn as ->. cbn. lia.
  - refine (proj1 (proj2 (release_frame 130 1 twoInUse) 1%nat
             {| connection := 1; inUse := true; createdAt := 120;
                lastUsed := 120; healthCheckFailures := 0 |} _ _)).
    + reflexivity.
    + intros [|[|j]] conn'; vm_compute; intros [= <-]; split; (lia || done).
Defined.


Lemma health_check_round_witness :
  (1%nat ∉ ids (performHealthCheck (fun _ => false) threeFailures))
  ∧ 1%nat ∈ destroyed (performHealthCheck (fun _ => false) threeFailures)
  ∧ ∀ ops,
      1%nat ∉ (runAll ops (performHealthCheck (fun _ => false) threeFailures)).2.
Proof.
  refine (proj2 (proj2 (proj2 (proj2 (proj2
            (health_check_round (fun _ => false) threeFailures _)))))
            {| connection := 1; inUse := false; createdAt := 120;
               lastUsed := 130; healthCheckFailures := 3 |} _ _ _).
  - apply wfb_wf. vm_compute. reflexivity.
  - vm_compute. right. left.
  - reflexivity.
  - vm_compute. lia.
Defined.

End PoolWitnesses.

(** ** Pipeline executor *)

Section PipelineExecute.
Import Connection Protocol Pipeline.




End PipelineExecute.

(** ** Cluster statistics *)

Section ClusterStats.
Import Cluster.

Lemma foldl_combine_field (field : CrabCacheStats → Z)
    (nodeStats : list CrabCacheStats) :
  (∀ acc stats, field (combine acc stats) = (field acc + field stats)%Z) →
  ∀ acc, field (foldl combine acc nodeStats)
         = (field acc + sumOf field nodeStats)%Z.
Proof.
  intros Hfield. induction nodeStats as [|stats rest IH]; intros acc.
  - unfold sumOf. cbn. lia.
  - cbn [foldl]. rewrite IH, Hfield. unfold sumOf. cbn. lia.
Qed.

Lemma foldl_combine_uptime (nodeStats : list CrabCacheStats) :
  ∀ acc, (0 ≤ uptime_seconds acc)%Z →
    uptime_seconds (foldl combine acc nodeStats)
    = Z.max (uptime_seconds acc) (maxOf uptime_seconds nodeStats).
Proof.
  induction nodeStats as [|stats rest IH]; intros acc Hacc.
  - unfold maxOf. cbn. lia.
  - cbn [foldl]. rewrite IH by (cbn; lia). unfold maxOf. cbn. lia.
Qed.

(** The counters of the aggregate are the sums over the nodes, its uptime
    is the largest uptime, and the fault-tolerance rate is the number of
    active nodes over the number of nodes. *)
Lemma aggregate_counters (nodeStats : list CrabCacheStats) :
  total_operations (aggregate nodeStats) = sumOf total_operations nodeStats
  ∧ get_operations (aggregate nodeStats) = sumOf get_operations nodeStats
  ∧ put_operations (aggregate nodeStats) = sumOf put_operations nodeStats
  ∧ del_operations (aggregate nodeStats) = sumOf del_operations nodeStats
  ∧ cache_hits (aggregate nodeStats) = sumOf cache_hits nodeStats
  ∧ cache_misses (aggregate nodeStats) = sumOf cache_misses nodeStats
  ∧ memory_usage (aggregate nodeStats) = sumOf memory_usage nodeStats
  ∧ active_connections (aggregate nodeStats)
    = sumOf active_connections nodeStats
  ∧ uptime_seconds (aggregate nodeStats) = maxOf uptime_seconds nodeStats.
Proof.
  unfold aggregate.
  repeat split; try (by rewrite foldl_combine_field).
  rewrite foldl_combine_uptime by done. cbn.
  assert (∀ l, 0 ≤ maxOf uptime_seconds l)%Z as Hpos.
  { induction l; unfold maxOf in *; cbn; lia. }
  specialize (Hpos nodeStats). lia.
Qed.

(** With a single node the aggregate reports half of its hit ratio. *)
Lemma aggregate_single_hit_ratio (stats : CrabCacheStats) :
  (hit_ratio (aggregate [stats]) == hit_ratio stats / 2)%Q.
Proof. unfold aggregate. cbn. field. Qed.

(** C9.  The code on a cluster of one active node whose hit ratio is 1: the
    counters are taken over, the fault-tolerance rate is 1/1, but the hit
    ratio reported is 1/2 and not the mean of the hit ratios, which is 1. *)
Theorem hit_ratio_is_not_the_mean :
  let stats := getClusterStats oneNode (fun _ => Some allHits) 10 1000 0 1 in
  (hit_ratio (aggregated stats) == 1 / 2)%Q
  ∧ (meanHitRatio [allHits] == 1)%Q
  ∧ ¬ (hit_ratio (aggregated stats) == meanHitRatio [allHits])%Q
  ∧ total_operations (aggregated stats) = 10%Z
  ∧ cache_hits (aggregated stats) = 10%Z
  ∧ uptime_seconds (aggregated stats) = 5%Z
  ∧ (cluster_fault_tolerance_rate stats == 1)%Q.
Proof. vm_compute. repeat split; discriminate. Qed.

End ClusterStats.

(** * Further properties *)

(** ** Framed connection *)

Section ConnectionExtras.
Import Connection ConnectionOps ConnectionEvents.

(** X1.  Whatever the state of the connection, delivering data in several
    chunks leaves it in the state that one delivery of all the bytes leaves
    it in: the same requests are answered with the same frames, the same
    bytes stay buffered. *)
Theorem handleData_fragmentation (c : t) (chunk : Buffer)
    (chunks : list Buffer) :
  foldl handleData c (chunk :: chunks)
  = handleData c (chunk ++ concat chunks).
Proof. cbn [foldl]. apply handleData_chunks. Qed.

Lemma indexOfCRLF_split (buf : Buffer) :
  ∀ i, indexOfCRLF buf = Some i →
    buf = take i buf ++ CRLF ++ drop (i + 2) buf
    ∧ indexOfCRLF (take i buf) = None.
Proof.
  induction buf as [|c [|d rest] IH]; intros i; [done..|].
  rewrite indexOfCRLF_cons.
  destruct (Byte.eqb c CR && Byte.eqb d LF) eqn:Hcd.
  - intros [= <-]. apply andb_prop in Hcd as [Hc Hd].
    apply Byte.byte_dec_bl in Hc, Hd. subst. done.
  - destruct (indexOfCRLF (d :: rest)) as [j|] eqn:Hj; [|done].
    intros [= <-]. destruct (IH j eq_refl) as [Hsplit Hnone].
    split.
    + cbn [take drop Nat.add]. rewrite <- app_comm_cons. f_equal.
      exact Hsplit.
    + cbn [take]. destruct j as [|j]; [done|].
      cbn [take] in *. rewrite indexOfCRLF_cons.
      destruct (take j rest) as [|e tl] eqn:Htake.
      * by destruct (Byte.eqb c CR && Byte.eqb d LF).
      * rewrite Hcd. by rewrite Hnone.
Qed.

(** X2.  [extractTextResponse] cuts the buffer at its first CR LF: it
    answers a frame and a rest exactly when the buffer is the frame, CR LF
    and the rest, the frame holding no CR LF; it answers [null] exactly
    when the buffer holds no CR LF. *)
Theorem extractTextResponse_splits (buf frame rest : Buffer) :
  (extractTextResponse buf = Some (frame, rest)
   ↔ buf = frame ++ CRLF ++ rest ∧ indexOfCRLF frame = None)
  ∧ (extractTextResponse buf = None ↔ indexOfCRLF buf = None).
Proof.
  split; [split|].
  - unfold extractTextResponse.
    destruct (indexOfCRLF buf) as [i|] eqn:Hi; [|done].
    intros [= <- <-]. unfold sliceTo, sliceFrom.
    rewrite Nat2Z.id.
    replace (Z.to_nat (Z.of_nat i + 2)) with (i + 2)%nat by lia.
    by apply indexOfCRLF_split.
  - intros [-> Hnone]. by apply extractTextResponse_wire.
  - unfold extractTextResponse. by destruct (indexOfCRLF buf).
Qed.

Lemma readUInt32LE_take (buf : Buffer) (n : nat) :
  (5 ≤ n)%nat → readUInt32LE (take n buf) 1 = readUInt32LE buf 1.
Proof.
  intros Hn. do 5 (destruct n as [|n]; [lia|]).
  by destruct buf as [|t [|b0 [|b1 [|b2 [|b3 rest]]]]].
Qed.

Lemma simple_not_payload (tag : byte) :
  simpleTag tag = true → payloadTag tag = false.
Proof. by destruct tag. Qed.

Lemma extractBinaryResponse_frame (buf frame rest : Buffer) :
  extractBinaryResponse buf = Some (frame, rest) →
  buf = frame ++ rest ∧ validBinaryFrame frame = true.
Proof.
  unfold extractBinaryResponse. rewrite extractBinaryResponse_try_eq.
  destruct buf as [|tag body]; [done|].
  destruct (simpleTag tag) eqn:Hs.
  { intros [= <- <-]. split; [done|].
    change (sliceTo (tag :: body) 1) with [tag].
    unfold validBinaryFrame. by rewrite Hs. }
  destruct (payloadTag tag) eqn:Hp; [|done].
  set (buf := tag :: body).
  destruct (Nat.ltb_spec (length buf) 5) as [Hlt|Hge]; [done|].
  destruct (readUInt32LE buf 1) as [len|] eqn:Hlen; [|done].
  pose proof (readUInt32LE_nonneg _ _ _ Hlen) as Hpos. cbv zeta.
  destruct (Z.ltb_spec (Z.of_nat (length buf)) (1 + 4 + len)) as [Hshort|Hlong];
    [done|].
  intros [= <- <-]. unfold sliceTo, sliceFrom.
  split; [by rewrite take_drop|].
  set (n := Z.to_nat (1 + 4 + len)).
  assert (length (take n buf) = n) as Hn by (rewrite length_take; lia).
  unfold validBinaryFrame.
  destruct (take n buf) as [|tag' body'] eqn:Htake.
  { simpl in Hn. lia. }
  assert (tag' = tag) as ->.
  { unfold buf in Htake. destruct n; [done|]. cbn in Htake. congruence. }
  rewrite Hs, Hp, <- Htake.
  rewrite readUInt32LE_take by (unfold n; lia).
  rewrite Hlen. apply Z.eqb_eq. rewrite <- Htake in Hn. rewrite Hn. unfold n. lia.
Qed.

(** X3.  [extractBinaryResponse] answers a frame and a rest exactly when the
    buffer is that frame followed by that rest and the frame is complete: a
    one-byte OK, PONG or NULL, or an ERROR, VALUE or STATS tag with a
    4-byte little-endian length and as many bytes as the length says. *)
Theorem extractBinaryResponse_splits (buf frame rest : Buffer) :
  extractBinaryResponse buf = Some (frame, rest)
  ↔ buf = frame ++ rest ∧ validBinaryFrame frame = true.
Proof.
  split; [apply extractBinaryResponse_frame|].
  intros [-> Hvalid]. by apply extractBinaryResponse_wire.
Qed.

Lemma sendCommand_writeError_last (error : string) (c : t)
    (before : list PendingResponse) (r : PendingResponse) :
  pendingResponses c = before ++ [r] →
  sendCommand_writeError error c
  = set_settled (settle (promise r) (Rejected error) (settled c))
      (set_pending before c).
Proof.
  intros H. unfold sendCommand_writeError.
  rewrite H, reverse_app, reverse_singleton. cbn [app].
  by rewrite reverse_involutive.
Qed.

(** X4.  When the write of [sendCommand] fails before anything else is
    enqueued, the record it pushed is popped again: the queue is what it was
    before the call, the promise of the call is rejected with the write
    error, and no other promise changes. *)
Theorem sendCommand_write_error_undone (c : t) (data : Buffer)
    (error : string) :
  fresh c →
  let p := (sendCommand data c).1 in
  let c' := sendCommand_writeError error (sendCommand data c).2 in
  pendingResponses c' = pendingResponses c
  ∧ settled c' !! p = Some (Rejected error)
  ∧ (∀ q, q ≠ p → settled c' !! q = settled c !! q)
  ∧ responseBuffer c' = responseBuffer c.
Proof.
  intros Hfresh p c'. unfold c', p.
  rewrite (sendCommand_writeError_last error _ (pendingResponses c)
             {| promise := nextPromise c; timeout := "Command timeout" |})
    by done.
  cbn. repeat split.
  - apply settle_lookup_fresh.
    destruct (settled c !! nextPromise c) eqn:Hs; [|done].
    assert (nextPromise c < nextPromise c)%nat; [|lia].
    apply Hfresh. by rewrite Hs.
  - intros q Hq. by apply settle_lookup_ne.
Qed.

Lemma fresh_create (binary : bool) : fresh (create binary).
Proof. intros p [o Ho]. cbn in Ho. by rewrite lookup_empty in Ho. Qed.

Lemma sendCommand_write_error_undone_witness :
  settled (sendCommand_writeError "EPIPE" (sendCommand [x41] (create false)).2)
    !! 0%nat
  = Some (Rejected "EPIPE").
Proof.
  exact (proj1 (proj2 (sendCommand_write_error_undone (create false) [x41]
                         "EPIPE" (fresh_create false)))).
Defined.

(** X5.  The write callback pops the last record, whoever pushed it: when a
    second command was enqueued before the write of the first one fails,
    the promise of the second command is rejected with the error of the
    first write, and the first command stays outstanding in the queue. *)
Theorem write_error_fails_latest_request (c : t) (data1 data2 : Buffer)
    (error : string) :
  fresh c →
  let p1 := (sendCommand data1 c).1 in
  let c1 := (sendCommand data1 c).2 in
  let p2 := (sendCommand data2 c1).1 in
  let c' := sendCommand_writeError error (sendCommand data2 c1).2 in
  p1 ≠ p2
  ∧ settled c' !! p2 = Some (Rejected error)
  ∧ settled c' !! p1 = None
  ∧ pendingResponses c'
    = pendingResponses c ++ [{| promise := p1; timeout := "Command timeout" |}].
Proof.
  intros Hfresh p1 c1 p2 c'.
  assert (∀ q, (nextPromise c ≤ q)%nat → settled c !! q = None) as Hnone.
  { intros q Hq. destruct (settled c !! q) eqn:Hs; [|done].
    assert (q < nextPromise c)%nat; [|lia]. apply Hfresh. by rewrite Hs. }
  unfold c', p2, p1, c1.
  rewrite (sendCommand_writeError_last error _
             (pendingResponses c
                ++ [{| promise := nextPromise c; timeout := "Command timeout" |}])
             {| promise := S (nextPromise c); timeout := "Command timeout" |})
    by done.
  cbn. repeat split.
  - lia.
  - apply settle_lookup_fresh, Hnone. lia.
  - rewrite settle_lookup_ne by lia. by apply Hnone.
Qed.

Lemma write_error_fails_latest_request_witness :
  settled (sendCommand_writeError "EPIPE" two_requests) !! 1%nat
  = Some (Rejected "EPIPE").
Proof.
  exact (proj1 (proj2 (write_error_fails_latest_request (create false)
                         [x41] [x42] "EPIPE" (fresh_create false)))).
Defined.

Lemma rejectPendingResponses_lookup (error : string) (c : t) (q : nat) :
  settled (rejectPendingResponses error c) !! q =
  match settled c !! q with
  | Some o => Some o
  | None => if bool_decide (q ∈ promise <$> pendingResponses c)
            then Some (Rejected error) else None
  end.
Proof. unfold rejectPendingResponses. cbn. apply rejectAll_lookup. Qed.

(** X6.  When the socket closes, the connection is marked disconnected, the
    queue is emptied and every outstanding request is rejected with
    "Connection closed"; requests that were settled before keep their
    outcome, and the bytes already received stay in the receive buffer. *)
Theorem close_fails_outstanding (c : t) :
  connected (onClose c) = false
  ∧ pendingResponses (onClose c) = []
  ∧ (∀ r, r ∈ pendingResponses c → settled c !! promise r = None →
          settled (onClose c) !! promise r = Some (Rejected "Connection closed"))
  ∧ (∀ q o, settled c !! q = Some o → settled (onClose c) !! q = Some o)
  ∧ (∀ q, q ∉ promise <$> pendingResponses c →
          settled (onClose c) !! q = settled c !! q)
  ∧ responseBuffer (onClose c) = responseBuffer c.
Proof.
  unfold onClose.
  pose proof (rejectPendingResponses_lookup "Connection closed"
                (set_connected false c)) as Hlookup.
  repeat split.
  - intros r Hr Hs. rewrite Hlookup. cbn. rewrite Hs.
    rewrite bool_decide_eq_true_2; [done|]. by apply list_elem_of_fmap_2.
  - intros q o Hq. rewrite Hlookup. cbn. by rewrite Hq.
  - intros q Hq. rewrite Hlookup. cbn. destruct (settled c !! q); [done|].
    by rewrite bool_decide_eq_false_2.
Qed.

Lemma close_fails_outstanding_witness :
  settled (onClose two_requests) !! 1%nat = Some (Rejected "Connection closed").
Proof.
  refine (proj1 (proj2 (proj2 (close_fails_outstanding two_requests)))
            second_request _ _).
  - vm_compute. right. left.
  - reflexivity.
Defined.

(** X7.  A frame that arrives while no request is outstanding is kept in
    the buffer, and it answers the next request: the request sent
    afterwards is fulfilled with that old frame as soon as any data arrives,
    and its own reply stays in the buffer for the request after it. *)
Theorem unsolicited_frame_answers_next_request (c : t)
    (stale reply data : Buffer) :
  fresh c →
  pendingResponses c = [] →
  responseBuffer c = [] →
  validFrame (useBinaryProtocol c) stale = true →
  validFrame (useBinaryProtocol c) reply = true →
  let c1 := handleData c (wire (useBinaryProtocol c) stale) in
  let p := (sendCommand data c1).1 in
  let c2 := handleData (sendCommand data c1).2
              (wire (useBinaryProtocol c) reply) in
  settled c1 = settled c
  ∧ responseBuffer c1 = wire (useBinaryProtocol c) stale
  ∧ settled c2 !! p = Some (Fulfilled stale)
  ∧ pendingResponses c2 = []
  ∧ responseBuffer c2 = wire (useBinaryProtocol c) reply.
Proof.
  intros Hfresh Hqueue Hbuf Hstale Hreply c1 p c2.
  assert (c1 = set_buffer (wire (useBinaryProtocol c) stale) c) as Hc1.
  { unfold c1, handleData. rewrite Hbuf, Hqueue. cbn.
    destruct c; cbn in *; by subst. }
  assert (settled c !! nextPromise c = None) as Hnone.
  { destruct (settled c !! nextPromise c) eqn:Hs; [|done].
    assert (nextPromise c < nextPromise c)%nat; [|lia].
    apply Hfresh. by rewrite Hs. }
  split; [by rewrite Hc1|]. split; [by rewrite Hc1|].
  unfold c2, p, handleData. rewrite Hc1. cbn. rewrite Hqueue. cbn [app].
  pose proof (processResponses_frames (useBinaryProtocol c) [stale]
                [{| promise := nextPromise c; timeout := "Command timeout" |}]
                (wire (useBinaryProtocol c) reply) (settled c)) as H.
  cbn [fmap list_fmap concat] in H. rewrite app_nil_r in H.
  rewrite H; [|by constructor|done]. cbn.
  repeat split. by apply settle_lookup_fresh.
Qed.

Lemma unsolicited_frame_answers_next_request_witness :
  settled (handleData (sendCommand [x41] unsolicited).2 (wire false OK)) !! 0%nat
  = Some (Fulfilled PONG).
Proof.
  exact (proj1 (proj2 (proj2 (unsolicited_frame_answers_next_request
           (create false) PONG OK [x41] (fresh_create false)
           eq_refl eq_refl eq_refl eq_refl)))).
Defined.

End ConnectionExtras.

(** ** Connection pool *)

Section PoolCapacity.
Import Pool PoolInvariants.

Lemma noLarger_refl (p : t) : noLarger p p.
Proof. by split. Qed.

Lemma noLarger_trans (p1 p2 p3 : t) :
  noLarger p1 p2 → noLarger p2 p3 → noLarger p1 p3.
Proof. intros [H1 H2] [H3 H4]. split; [congruence|lia]. Qed.

Lemma noLarger_capacity (p p' : t) :
  noLarger p p' → withinCapacity p → withinCapacity p'.
Proof. unfold noLarger, withinCapacity. intros [-> H]. lia. Qed.

Lemma length_delete_le {A : Type} (i : nat) (l : list A) :
  (length (delete i l) ≤ length l)%nat.
Proof.
  revert i. induction l as [|a l IH]; intros [|i]; cbn; try lia.
  specialize (IH i). change (length (delete i l) ≤ length l)%nat in IH.
  change (S (length (delete i l)) ≤ S (length l))%nat. lia.
Qed.

Lemma takeIdle_noLarger (now : Z) (i : nat) (p : t) :
  noLarger p (takeIdle now i p).
Proof. split; [done|]. cbn. by rewrite length_alter. Qed.

Lemma release_noLarger (now : Z) (c : nat) (p : t) :
  noLarger p (release now c p).
Proof.
  unfold release. destruct (arrayFind _ _) as [[i conn]|]; [|apply noLarger_refl].
  split; [done|]. cbn. by rewrite length_alter.
Qed.

Lemma removeConnection_noLarger (c : nat) (p : t) :
  noLarger p (removeConnection c p).
Proof.
  unfold removeConnection.
  destruct (findIndex _ _) as [i|]; [|apply noLarger_refl].
  split; [done|]. cbn. apply length_delete_le.
Qed.

Lemma recordFailure_noLarger (i : nat) (p : t) :
  noLarger p (recordFailure i p).
Proof.
  unfold recordFailure.
  destruct (connections p !! i) as [conn|]; [|apply noLarger_refl].
  set (p1 := with_metrics _ _).
  assert (noLarger p p1) as H1.
  { split; [done|]. cbn. by rewrite length_alter. }
  destruct (3 <? S (healthCheckFailures conn))%nat; [|done].
  eapply noLarger_trans; [exact H1|].
  eapply noLarger_trans; [apply (removeConnection_noLarger (connection conn))|].
  by split.
Qed.

Lemma probe_noLarger (connectedAtStart probeOk : nat → bool) (p : t) (c : nat) :
  noLarger p (probe connectedAtStart probeOk p c).
Proof.
  unfold probe. destruct (arrayFind _ _) as [[i conn]|]; [|apply noLarger_refl].
  destruct (connectedAtStart c && probeOk c); [|apply recordFailure_noLarger].
  split; [done|]. cbn. by rewrite length_alter.
Qed.

Lemma performHealthCheck_noLarger (probeOk : nat → bool) (p : t) :
  noLarger p (performHealthCheck probeOk p).
Proof.
  unfold performHealthCheck.
  generalize (isConnected p) as connectedAtStart.
  generalize (connection <$>
                List.filter (fun conn => negb (inUse conn)) (connections p)).
  intros cs connectedAtStart.
  apply (noLarger_trans _ (foldl (probe connectedAtStart probeOk) p cs));
    [|by split].
  revert p. induction cs as [|c cs IH]; intros p; [apply noLarger_refl|].
  cbn [foldl]. eapply noLarger_trans; [apply probe_noLarger|apply IH].
Qed.

Lemma createAndRelease_size (count : nat) (now : Z) (connectOk : nat → bool) :
  ∀ p, poolSize (createAndRelease count now connectOk p) = poolSize p
       ∧ (length (connections (createAndRelease count now connectOk p))
          ≤ length (connections p) + count)%nat.
Proof.
  induction count as [|count IH]; intros p; [cbn; split; [done|lia]|].
  cbn [createAndRelease]. unfold createConnection.
  destruct (connectOk (allocated p)).
  - set (p1 := updateMetrics _).
    destruct (IH (release now (allocated p) p1)) as [Hs Hl].
    destruct (release_noLarger now (allocated p) p1) as [Hs1 Hl1].
    rewrite Hs, Hs1. split; [done|].
    assert (length (connections p1) = S (length (connections p))) as Hp1.
    { unfold p1. cbn. rewrite length_app. cbn. lia. }
    lia.
  - set (p1 := Build_t _ _ _ _ _ _ _).
    destruct (IH p1) as [Hs Hl]. rewrite Hs. split; [done|].
    change (connections p1) with (connections p) in Hl. lia.
Qed.

Lemma run_capacity (op : Op) (p : t) :
  withinCapacity p →
  withinCapacity (run op p).1 ∧ poolSize (run op p).1 = poolSize p.
Proof.
  intros Hcap.
  assert (∀ p', noLarger p p' → withinCapacity p' ∧ poolSize p' = poolSize p)
    as Hsmall.
  { intros p' H. split; [by eapply noLarger_capacity|by destruct H]. }
  destruct op as [now connectOk|now w|now c|probeOk|now n connectOk|c|c];
    cbn [run fst].
  - unfold acquire. destruct (arrayFind _ _) as [[i conn]|] eqn:Hfind.
    + apply (Hsmall (takeIdle now i p)), takeIdle_noLarger.
    + destruct (Z.ltb_spec (Z.of_nat (length (connections p))) (poolSize p))
        as [Hroom|Hfull].
      * unfold createConnection. destruct connectOk; cbn; [|done].
        split; [|done]. unfold withinCapacity. cbn.
        rewrite length_app. cbn. lia.
      * unfold checkForConnection. rewrite Hfind. cbn. done.
  - unfold checkForConnection.
    destruct (arrayFind _ _) as [[i conn]|]; cbn; [|done].
    apply (Hsmall (takeIdle now i p)), takeIdle_noLarger.
  - apply Hsmall, release_noLarger.
  - apply Hsmall, performHealthCheck_noLarger.
  - unfold warmUp, connectionsToCreate.
    destruct (Z.leb_spec
                (Z.min n (poolSize p) - Z.of_nat (length (connections p))) 0)
      as [Hle|Hgt]; [done|].
    destruct (createAndRelease_size
                (Z.to_nat (Z.min n (poolSize p)
                           - Z.of_nat (length (connections p))))
                now connectOk p) as [Hs Hl].
    split; [|done]. unfold withinCapacity in *. rewrite Hs. lia.
  - unfold handleConnectionError.
    destruct (arrayFind _ _) as [[i conn]|]; [|done].
    apply Hsmall, recordFailure_noLarger.
  - apply Hsmall, removeConnection_noLarger.
Qed.

(** X9.  Whatever is done with a pool made by the constructor, one
    operation after the other (no operation begins while the [connect()] of
    an [acquire()] or of a warm-up is pending): calls of [acquire()], polls
    of waiting callers, releases, health checks, warm-ups, connection errors
    and closes, with connect attempts and probes ending either way, it never
    holds more records than [poolSize] (none when [poolSize] is not
    positive), and [poolSize] stays what it was. *)
Theorem pool_never_exceeds_capacity (ops : list Op) (size timeout : Z) :
  (Z.of_nat (length (connections (runAll ops (create size timeout)).1))
   ≤ Z.max 0 size)%Z
  ∧ poolSize (runAll ops (create size timeout)).1 = size.
Proof.
  assert (∀ p, withinCapacity p →
            withinCapacity (runAll ops p).1
            ∧ poolSize (runAll ops p).1 = poolSize p) as H.
  { induction ops as [|op ops IH]; intros p Hcap; [done|].
    cbn [runAll]. pose proof (run_capacity op p Hcap) as [H1 H2].
    destruct (run op p) as [p1 handed]. cbn [fst] in H1, H2.
    destruct (IH p1 H1) as [H3 H4].
    destruct (runAll ops p1) as [p2 more]. cbn [fst] in *.
    split; [done|congruence]. }
  destruct (H (create size timeout)) as [H1 H2].
  - unfold withinCapacity. cbn. lia.
  - split; [|done]. unfold withinCapacity in H1. by rewrite H2 in H1.
Qed.

End PoolCapacity.

Section PoolMetrics.
Import Pool PoolInvariants.

Lemma updateMetrics_inSync (p : t) : inSync (updateMetrics p).
Proof. by split. Qed.

Lemma filter_alter_same {A : Type} (g : A → bool) (f : A → A) (i : nat)
    (l : list A) :
  (∀ x, g (f x) = g x) →
  length (List.filter g (alter f i l)) = length (List.filter g l).
Proof.
  intros Hf. revert i. induction l as [|a l IH]; intros [|i]; try done.
  - cbn. rewrite Hf. by destruct (g a).
  - change (alter f (S i) (a :: l)) with (a :: alter f i l). cbn.
    destruct (g a); cbn; by rewrite IH.
Qed.

(** Changing the failure counter of a record and a pool counter keeps the
    active and idle counts right. *)
Lemma inSync_setFailures (p : t) (m : Metrics.t) (n i : nat) :
  inSync p →
  Metrics.activeConnections m = Metrics.activeConnections (metrics p) →
  Metrics.idleConnections m = Metrics.idleConnections (metrics p) →
  inSync (with_metrics m
            (with_connections (alter (setFailures n) i (connections p)) p)).
Proof.
  intros [Ha Hi] Hma Hmi. split; cbn.
  - rewrite Hma, Ha. by rewrite filter_alter_same.
  - rewrite Hmi, Hi. by rewrite filter_alter_same.
Qed.

Lemma removeConnection_inSync (c : nat) (p : t) :
  inSync p → inSync (removeConnection c p).
Proof.
  intros H. unfold removeConnection.
  destruct (findIndex _ _); [apply updateMetrics_inSync|done].
Qed.

Lemma recordFailure_inSync (i : nat) (p : t) :
  inSync p → inSync (recordFailure i p).
Proof.
  intros H. unfold recordFailure.
  destruct (connections p !! i) as [conn|]; [|done].
  set (p1 := with_metrics _ _).
  assert (inSync p1) as H1 by (by apply inSync_setFailures).
  destruct (3 <? S (healthCheckFailures conn))%nat; [|done].
  pose proof (removeConnection_inSync (connection conn) p1 H1) as [H2 H3].
  by split.
Qed.

Lemma release_inSync (now : Z) (c : nat) (p : t) :
  inSync p → inSync (release now c p).
Proof.
  intros H. unfold release.
  destruct (arrayFind _ _) as [[i conn]|]; [apply updateMetrics_inSync|done].
Qed.

Lemma createAndRelease_inSync (count : nat) (now : Z) (connectOk : nat → bool) :
  ∀ p, inSync p → inSync (createAndRelease count now connectOk p).
Proof.
  induction count as [|count IH]; intros p H; [done|].
  cbn [createAndRelease]. unfold createConnection.
  destruct (connectOk (allocated p)).
  - apply IH, release_inSync, updateMetrics_inSync.
  - by apply IH.
Qed.

Lemma run_inSync (op : Op) (p : t) : inSync p → inSync (run op p).1.
Proof.
  intros H.
  destruct op as [now connectOk|now w|now c|probeOk|now n connectOk|c|c];
    cbn [run fst].
  - unfold acquire. destruct (arrayFind _ _) as [[i conn]|] eqn:Hfind.
    + apply updateMetrics_inSync.
    + destruct (Z.of_nat (length (connections p)) <? poolSize p)%Z.
      * unfold createConnection. destruct connectOk; [|done]. by split.
      * unfold checkForConnection. by rewrite Hfind.
  - unfold checkForConnection.
    destruct (arrayFind _ _) as [[i conn]|]; [apply updateMetrics_inSync|done].
  - by apply release_inSync.
  - apply updateMetrics_inSync.
  - unfold warmUp. destruct (connectionsToCreate n p <=? 0)%Z; [done|].
    by apply createAndRelease_inSync.
  - unfold handleConnectionError.
    destruct (arrayFind _ _) as [[i conn]|]; [|done].
    by apply recordFailure_inSync.
  - by apply removeConnection_inSync.
Qed.

Lemma filter_partition_length {A : Type} (g : A → bool) (l : list A) :
  (length (List.filter g l) + length (List.filter (fun x => negb (g x)) l))%nat
  = length l.
Proof.
  induction l as [|a l IH]; [done|]. cbn. destruct (g a); cbn; lia.
Qed.

(** X10.  Whatever is done with a pool made by the constructor, one
    operation after the other, the [activeConnections] and
    [idleConnections] of its metrics are the numbers of records in use and
    not in use, so they add up to the number of records, also on the paths
    that change records or counters without calling [updateMetrics]. *)
Theorem pool_metrics_in_sync (ops : list Op) (size timeout : Z) :
  let p := (runAll ops (create size timeout)).1 in
  Metrics.activeConnections (metrics p)
    = length (List.filter inUse (connections p))
  ∧ Metrics.idleConnections (metrics p)
    = length (List.filter (fun conn => negb (inUse conn)) (connections p))
  ∧ (Metrics.activeConnections (metrics p)
     + Metrics.idleConnections (metrics p))%nat
    = length (connections p).
Proof.
  assert (∀ p, inSync p → inSync (runAll ops p).1) as H.
  { induction ops as [|op ops IH]; intros p Hp; [done|].
    cbn [runAll]. pose proof (run_inSync op p Hp) as H1.
    destruct (run op p) as [p1 handed]. cbn [fst] in H1.
    specialize (IH p1 H1). by destruct (runAll ops p1) as [p2 more]. }
  intros p. destruct (H (create size timeout)) as [Ha Hi]; [by split|].
  fold p in Ha, Hi. repeat split; [done..|].
  rewrite Ha, Hi. apply filter_partition_length.
Qed.

(** X11.  Once a connection of the pool that is connected has been
    released, the next [acquire()] is a hit: it hands out a connection the
    pool already holds, constructs none and counts no miss. *)
Theorem release_then_acquire_hits (now now' : Z) (connectOk : bool) (c : nat)
    (p : t) :
  c ∈ ids p → isConnected p c = true →
  let p1 := release now c p in
  ∃ c', (acquire now' connectOk p1).2 = Acquired c'
        ∧ c' ∈ ids p
        ∧ allocated (acquire now' connectOk p1).1 = allocated p
        ∧ Metrics.poolMisses (metrics (acquire now' connectOk p1).1)
          = Metrics.poolMisses (metrics p)
        ∧ Metrics.poolHits (metrics (acquire now' connectOk p1).1)
          = S (Metrics.poolHits (metrics p)).
Proof.
  intros Hc Hconn p1.
  destruct (arrayFind (wraps c) (connections p)) as [[i conn]|] eqn:Hfind.
  2:{ apply arrayFind_wraps_None in Hfind. done. }
  pose proof (arrayFind_wraps _ _ _ _ Hfind) as (Hi & Hcc & Hin).
  assert (p1 = updateMetrics
                 (with_connections
                    (alter (markReleased now) i (connections p)) p)) as Hp1.
  { unfold p1, release. by rewrite Hfind. }
  assert (markReleased now conn ∈ connections p1) as Hrel.
  { rewrite Hp1. cbn. apply list_elem_of_lookup. exists i.
    by rewrite list_lookup_alter_eq, Hi. }
  destruct (arrayFind_is_Some (idleConnected p1) (connections p1)
              (markReleased now conn) Hrel) as (j & idle & Hidle).
  { unfold idleConnected. cbn. rewrite Hcc, Hp1.
    change (isConnected (updateMetrics ?q) c) with (isConnected p c).
    by rewrite Hconn. }
  exists (connection idle). unfold acquire. rewrite Hidle. cbn [fst snd].
  split; [done|]. split.
  - assert (connection idle ∈ ids p1) as H by (by eapply found_in_ids).
    unfold ids in H. rewrite Hp1 in H. cbn in H.
    by rewrite ids_alter in H.
  - rewrite Hp1. done.
Qed.

Lemma release_then_acquire_hits_witness :
  ∃ c', (acquire 140 true (release 130 1 twoInUse)).2 = Acquired c'
        ∧ c' ∈ ids twoInUse
        ∧ allocated (acquire 140 true (release 130 1 twoInUse)).1
          = allocated twoInUse
        ∧ Metrics.poolMisses (metrics (acquire 140 true (release 130 1 twoInUse)).1)
          = Metrics.poolMisses (metrics twoInUse)
        ∧ Metrics.poolHits (metrics (acquire 140 true (release 130 1 twoInUse)).1)
          = S (Metrics.poolHits (metrics twoInUse)).
Proof.
  refine (release_then_acquire_hits 130 140 true 1 twoInUse _ _).
  - vm_compute. right. left.
  - reflexivity.
Defined.

End PoolMetrics.

Section PoolWaiters.
Import Pool PoolInvariants.

Lemma four_failed_probes_evict_witness :
  let p4 :=
    performHealthCheck (fun _ => false)
      (performHealthCheck (fun _ => false)
         (performHealthCheck (fun _ => false)
            (performHealthCheck (fun _ => false) oneIdle))) in
  (1%nat ∉ ids p4) ∧ 1%nat ∈ destroyed p4.
Proof.
  refine (proj2 (proj2 (proj2
    (four_failed_probes_evict (fun _ => false) (fun _ => false)
       (fun _ => false) (fun _ => false) oneIdle
       {| connection := 1; inUse := false; createdAt := 120;
          lastUsed := 130; healthCheckFailures := 0 |} _ _ _ _ _ _ _ _))));
    try reflexivity.
  - apply wfb_wf. vm_compute. reflexivity.
  - vm_compute. right. left.
Defined.

Lemma arrayFind_alter_only {A : Type} (f : A → bool) (g : A → A) (l : list A) :
  ∀ i x, (∀ y, y ∈ l → f y = false) → l !! i = Some x → f (g x) = true →
    arrayFind f (alter g i l) = Some (i, g x).
Proof.
  induction l as [|a l IH]; intros i x Hnone Hi Hgx; [done|].
  destruct i as [|i]; cbn in Hi.
  - injection Hi as ->. cbn. by rewrite Hgx.
  - change (alter g (S i) (a :: l)) with (a :: alter g i l). cbn.
    rewrite (Hnone a) by (by left).
    rewrite (IH i x); [done| |done..].
    intros y Hy. apply Hnone. by right.
Qed.

(** X13.  An [acquire()] that timed out keeps polling.  When the pool is
    saturated, the caller waits, the acquisition timeout rejects its promise
    and a connection is released afterwards, the next poll of the abandoned
    caller takes that connection: it is marked in use and counted as a hit,
    the promise stays rejected, so no caller holds it and no record is idle
    again. *)
Theorem abandoned_poll_takes_released_connection (now releasedAt : Z) (p : t)
    (c : nat) :
  (∀ conn, conn ∈ connections p → idleConnected p conn = false) →
  (0 < connectionTimeout p)%Z →
  c ∈ ids p → isConnected p c = true →
  let start :=
    {| clock := now; pool := p;
       waiter := {| result := None;
                    timers := [(now + connectionTimeout p, AcquisitionTimeout);
                               (now + 10, CheckForConnection)]%Z |} |} in
  let polls := Z.to_nat ((connectionTimeout p - 1) / 10) in
  let timedOut := Nat.iter (S polls) tick start in
  let later :=
    tick {| clock := clock timedOut;
            pool := release releasedAt c (pool timedOut);
            waiter := waiter timedOut |} in
  result (waiter timedOut) = Some (inr "Pool acquisition timeout")
  ∧ timers (waiter timedOut)
    = [((now + 10 * Z.of_nat (S polls))%Z, CheckForConnection)]
  ∧ result (waiter later) = Some (inr "Pool acquisition timeout")
  ∧ (∀ conn, conn ∈ connections (pool later) →
             idleConnected (pool later) conn = false)
  ∧ Metrics.poolHits (metrics (pool later)) = S (Metrics.poolHits (metrics p))
  ∧ timers (waiter later) = [].
Proof.
  intros Hnone Htimeout Hc Hconn start polls timedOut later.
  pose proof Hnone as Hfind. apply arrayFind_None in Hfind.
  assert (0 ≤ (connectionTimeout p - 1) / 10)%Z as Hq
    by (apply Z.div_pos; lia).
  pose proof (Z.mul_div_le (connectionTimeout p - 1) 10 ltac:(lia)) as Hlo.
  pose proof (Z.mul_succ_div_gt (connectionTimeout p - 1) 10 ltac:(lia)) as Hhi.
  set (due := (now + 10 * Z.of_nat (S polls))%Z).
  assert (timedOut
          = {| clock := (now + connectionTimeout p)%Z; pool := p;
               waiter := {| result := Some (inr "Pool acquisition timeout");
                            timers := [(due, CheckForConnection)] |} |})
    as Hout.
  { unfold timedOut, start. rewrite Nat.iter_succ.
    rewrite polls_every_10ms by (done || unfold polls; lia).
    apply tick_timeout. unfold polls. lia. }
  destruct (arrayFind (wraps c) (connections p)) as [[i conn]|] eqn:Hwraps.
  2:{ apply arrayFind_wraps_None in Hwraps. done. }
  pose proof (arrayFind_wraps _ _ _ _ Hwraps) as (Hi & Hcc & Hin).
  set (p1 := release releasedAt c p).
  assert (connections p1 = alter (markReleased releasedAt) i (connections p))
    as Hp1.
  { unfold p1, release. by rewrite Hwraps. }
  assert (arrayFind (idleConnected p1) (connections p1)
          = Some (i, markReleased releasedAt conn)) as Hidle.
  { rewrite Hp1. apply arrayFind_alter_only; [|done|].
    - intros y Hy. specialize (Hnone y Hy). unfold p1, release.
      by rewrite Hwraps.
    - unfold idleConnected. cbn. rewrite Hcc. unfold p1, release.
      rewrite Hwraps.
      change (isConnected (updateMetrics ?q) c) with (isConnected p c).
      by rewrite Hconn. }
  assert (later
          = {| clock := due; pool := takeIdle due i p1;
               waiter := {| result := Some (inr "Pool acquisition timeout");
                            timers := [] |} |}) as Hlater.
  { unfold later. rewrite Hout. cbn [clock pool waiter]. fold p1.
    unfold tick. cbn [waiter timers nextTimer result disarm].
    rewrite bool_decide_eq_true_2 by done.
    unfold checkForConnection. cbn [pool]. by rewrite Hidle. }
  rewrite Hout, Hlater. cbn [waiter result timers pool].
  repeat split.
  - intros y Hy. cbn in Hy. rewrite Hp1 in Hy.
    apply list_elem_of_lookup in Hy as [k Hk].
    destruct (decide (k = i)) as [->|Hne].
    + rewrite !list_lookup_alter_eq, Hi in Hk. by injection Hk as <-.
    + rewrite !list_lookup_alter_ne in Hk by done.
      assert (y ∈ connections p) as Hy by (by eapply list_elem_of_lookup_2).
      specialize (Hnone y Hy). unfold takeIdle, p1, release. by rewrite Hwraps.
  - unfold takeIdle, p1, release. by rewrite Hwraps.
Qed.

Lemma abandoned_poll_takes_released_connection_witness :
  result (waiter (tick {| clock := clock (Nat.iter 500 tick waitingWorld);
                          pool := release 6000 0
                                    (pool (Nat.iter 500 tick waitingWorld));
                          waiter := waiter (Nat.iter 500 tick waitingWorld) |}))
  = Some (inr "Pool acquisition timeout").
Proof.
  refine (proj1 (proj2 (proj2
    (abandoned_poll_takes_released_connection 200 6000 saturated 0 _ _ _ _)))).
  - intros conn Hconn. vm_compute in Hconn.
    apply list_elem_of_singleton in Hconn as ->. reflexivity.
  - vm_compute. reflexivity.
  - vm_compute. left.
  - reflexivity.
Defined.

End PoolWaiters.

(** ** Batched execution *)

Section BatchedExecution.
Import Connection Protocol Pipeline Batched.

Lemma arraySlice_batch {A : Type} (l : list A) (k : nat) (size : Z) :
  (0 < size)%Z → (k < length l)%nat →
  arraySlice l (Z.of_nat k) (Z.of_nat k + size)
  = take (Z.to_nat size) (drop k l)
  ∧ take (Z.to_nat size) (drop k l) ≠ [].
Proof.
  intros Hsize Hk. unfold arraySlice.
  destruct (Z.ltb_spec (Z.of_nat k) 0) as [?|_]; [lia|].
  destruct (Z.ltb_spec (Z.of_nat k + size) 0) as [?|_]; [lia|].
  destruct (Z.leb_spec (Z.min (Z.of_nat k + size) (Z.of_nat (length l)))
              (Z.min (Z.of_nat k) (Z.of_nat (length l)))) as [?|_]; [lia|].
  replace (Z.to_nat (Z.min (Z.of_nat k) (Z.of_nat (length l)))) with k by lia.
  split.
  - destruct (Z.le_gt_cases (Z.of_nat k + size) (Z.of_nat (length l))).
    + f_equal. lia.
    + rewrite !take_ge; [done|rewrite length_drop; lia..].
  - intros Hnil. apply (f_equal length) in Hnil.
    rewrite length_take, length_drop in Hnil. cbn in Hnil. lia.
Qed.

Section Codec.
Variable codec : Codec.
Variable useBinaryProtocol : bool.

Lemma encodeAll_length (commands : list PipelineCommand) :
  ∀ encoded, encodeAll codec useBinaryProtocol commands = Return encoded →
    length encoded = length commands.
Proof.
  induction commands as [|cmd commands IH]; intros encoded; cbn.
  - by intros [= <-].
  - destruct (encode codec useBinaryProtocol cmd) as [data|]; [|done].
    destruct (encodeAll codec useBinaryProtocol commands) as [more|]; [|done].
    intros [= <-]. cbn. by rewrite (IH more).
Qed.

Lemma encodeAll_drop (commands : list PipelineCommand) :
  ∀ encoded k, encodeAll codec useBinaryProtocol commands = Return encoded →
    encodeAll codec useBinaryProtocol (drop k commands)
    = Return (drop k encoded).
Proof.
  induction commands as [|cmd commands IH]; intros encoded k; cbn.
  - intros [= <-]. by destruct k.
  - destruct (encode codec useBinaryProtocol cmd) as [data|] eqn:Hd; [|done].
    destruct (encodeAll codec useBinaryProtocol commands) as [more|] eqn:Hm;
      [|done].
    intros [= <-]. destruct k as [|k]; cbn.
    + by rewrite Hd, Hm.
    + by apply IH.
Qed.

Lemma encodeAll_take (commands : list PipelineCommand) :
  ∀ encoded n, encodeAll codec useBinaryProtocol commands = Return encoded →
    encodeAll codec useBinaryProtocol (take n commands)
    = Return (take n encoded).
Proof.
  induction commands as [|cmd commands IH]; intros encoded n; cbn.
  - intros [= <-]. by destruct n.
  - destruct (encode codec useBinaryProtocol cmd) as [data|] eqn:Hd; [|done].
    destruct (encodeAll codec useBinaryProtocol commands) as [more|] eqn:Hm;
      [|done].
    intros [= <-]. destruct n as [|n]; cbn; [done|].
    by rewrite Hd, (IH more n).
Qed.

Lemma batchLoop_S (send : list Buffer → Completion (list Buffer))
    (fuel : nat) (commandsCopy : list PipelineCommand) (batchSize i : Z)
    (allResults : list PipelineResponse) (sent : list (list Buffer)) :
  batchLoop codec useBinaryProtocol send (S fuel) commandsCopy batchSize i
    allResults sent
  = if (i <? Z.of_nat (length commandsCopy))%Z then
      let batchRun :=
        execute codec useBinaryProtocol send
          (arraySlice commandsCopy i (i + batchSize)) in
      match completion batchRun with
      | Throw e => Some (sent ++ batchesSent batchRun, Throw e)
      | Return batchResults =>
          batchLoop codec useBinaryProtocol send fuel commandsCopy batchSize
            (i + batchSize) (allResults ++ batchResults)
            (sent ++ batchesSent batchRun)
      end
    else Some (sent, Return allResults).
Proof. reflexivity. Qed.

Variable respond : list Buffer → list Buffer.

(** The loop from position [k] on, when every command can be encoded and
    every batch is answered. *)
Lemma batchLoop_answered (commands : list PipelineCommand)
    (encoded : list Buffer) (size : Z) :
  (0 < size)%Z →
  encodeAll codec useBinaryProtocol commands = Return encoded →
  ∀ n k results sent,
    (length commands - k ≤ n)%nat →
    ∃ batches,
      batchLoop codec useBinaryProtocol (fun b => Return (respond b)) (S n)
        commands size (Z.of_nat k) results sent
      = Some (sent ++ batches,
              Return (results
                      ++ (decodeOne codec useBinaryProtocol
                            <$> concat (respond <$> batches))))
      ∧ concat batches = drop k encoded
      ∧ Forall (fun b => (0 < length b)%nat
                         ∧ (Z.of_nat (length b) ≤ size)%Z) batches.
Proof.
  intros Hsize Henc. induction n as [|n IH]; intros k results sent Hn.
  - exists []. rewrite batchLoop_S.
    destruct (Z.ltb_spec (Z.of_nat k) (Z.of_nat (length commands))); [lia|].
    rewrite !app_nil_r. repeat split; [|done].
    rewrite drop_ge; [done|]. rewrite (encodeAll_length _ _ Henc). lia.
  - rewrite batchLoop_S.
    destruct (Z.ltb_spec (Z.of_nat k) (Z.of_nat (length commands)))
      as [Hk|Hk].
    2:{ exists []. rewrite !app_nil_r. repeat split; [|done].
        rewrite drop_ge; [done|]. rewrite (encodeAll_length _ _ Henc). lia. }
    destruct (arraySlice_batch commands k size Hsize ltac:(lia))
      as [Hslice Hnonempty].
    rewrite Hslice.
    set (batch := take (Z.to_nat size) (drop k commands)) in *.
    set (wire := take (Z.to_nat size) (drop k encoded)).
    assert (encodeAll codec useBinaryProtocol batch = Return wire) as Hbatch.
    { unfold batch, wire. by apply encodeAll_take, encodeAll_drop. }
    assert (execute codec useBinaryProtocol (fun b => Return (respond b)) batch
            = {| commandsAfter := []; batchesSent := [wire];
                 completion :=
                   Return (decodeOne codec useBinaryProtocol <$> respond wire) |})
      as Hrun.
    { unfold execute. destruct batch; [done|]. by rewrite Hbatch. }
    cbv zeta. rewrite Hrun. cbn [completion batchesSent].
    replace (Z.of_nat k + size)%Z with (Z.of_nat (k + Z.to_nat size)) by lia.
    destruct (IH (k + Z.to_nat size)%nat
                (results ++ (decodeOne codec useBinaryProtocol <$> respond wire))
                (sent ++ [wire])) as (batches & Hloop & Hconcat & Hall);
      [lia|].
    exists (wire :: batches). rewrite Hloop. repeat split.
    + cbn [fmap list_fmap concat].
      by rewrite fmap_app, <- !app_assoc.
    + cbn [concat]. rewrite Hconcat. unfold wire.
      rewrite <- drop_drop. apply take_drop.
    + constructor; [|done].
      assert (length wire = length batch) as Hlen.
      { unfold wire, batch. rewrite !length_take, !length_drop.
        by rewrite (encodeAll_length _ _ Henc). }
      rewrite Hlen. split.
      * destruct batch; [done|cbn; lia].
      * unfold batch. rewrite length_take. lia.
Qed.

(** X14.  [executeBatched] with a positive batch size, when every command
    can be encoded and the connection answers every batch: the loop ends
    (one test of the loop condition per command and one more are enough),
    the batches handed to the connection are, in order, the encoded commands
    cut into pieces of at most [batchSize] commands, none empty and nothing
    lost or repeated; the results are the decoded answers of the batches in
    the same order, and the command list is empty afterwards. *)
Theorem executeBatched_keeps_order (commands : list PipelineCommand)
    (encoded : list Buffer) (batchSize : Z) :
  (0 < batchSize)%Z →
  commands ≠ [] →
  encodeAll codec useBinaryProtocol commands = Return encoded →
  ∃ batches,
    executeBatched codec useBinaryProtocol (fun b => Return (respond b))
      (S (length commands)) commands batchSize
    = Some {| commandsAfter := []; batchesSent := batches;
              completion :=
                Return (decodeOne codec useBinaryProtocol
                          <$> concat (respond <$> batches)) |}
    ∧ concat batches = encoded
    ∧ Forall (fun b => (0 < length b)%nat
                       ∧ (Z.of_nat (length b) ≤ batchSize)%Z) batches.
Proof.
  intros Hsize Hne Henc.
  destruct (batchLoop_answered commands encoded batchSize Hsize Henc
              (length commands) 0 [] []) as (batches & Hloop & Hconcat & Hall);
    [lia|].
  exists batches. unfold executeBatched.
  destruct commands as [|cmd commands']; [done|].
  change (Z.of_nat 0) with 0%Z in Hloop. rewrite Hloop.
  repeat split; done.
Qed.

Lemma arraySlice_empty {A : Type} (l : list A) (i : Z) :
  arraySlice l i (i + 0) = [].
Proof.
  unfold arraySlice. rewrite Z.add_0_r.
  by rewrite (proj2 (Z.leb_le _ _) (Z.le_refl _)).
Qed.

Lemma batchLoop_stuck (send : list Buffer → Completion (list Buffer))
    (commands : list PipelineCommand) (batchSize : Z) :
  (batchSize ≤ 0)%Z → commands ≠ [] →
  ∀ fuel i results sent, (i ≤ 0)%Z →
    ∀ batches results',
      batchLoop codec useBinaryProtocol send fuel commands batchSize i
        results sent
      ≠ Some (batches, Return results').
Proof.
  intros Hsize Hne. induction fuel as [|fuel IH];
    intros i results sent Hi batches results'; [done|].
  rewrite batchLoop_S.
  destruct (Z.ltb_spec i (Z.of_nat (length commands))) as [_|Hlen].
  - cbv zeta.
    destruct (completion (execute codec useBinaryProtocol send
                (arraySlice commands i (i + batchSize)))); [|done].
    apply IH. lia.
  - destruct commands; [done|]. cbn [length] in Hlen. lia.
Qed.

Lemma batchLoop_spins (send : list Buffer → Completion (list Buffer))
    (commands : list PipelineCommand) :
  commands ≠ [] →
  ∀ fuel results sent,
    batchLoop codec useBinaryProtocol send fuel commands 0 0 results sent
    = None.
Proof.
  intros Hne. induction fuel as [|fuel IH]; intros results sent; [done|].
  rewrite batchLoop_S.
  destruct (Z.ltb_spec 0 (Z.of_nat (length commands))) as [_|Hlen].
  - cbv zeta. rewrite arraySlice_empty. cbn. apply IH.
  - destruct commands; [done|]. cbn [length] in Hlen. lia.
Qed.

(** X15.  [executeBatched] does not check its batch size.  With a batch
    size of zero or less and at least one command the loop index never
    reaches the number of commands: however long the loop runs, the call
    never returns a list of results (it can only end by an exception of a
    batch); with a batch size of exactly zero every batch is empty, nothing
    is sent and nothing is thrown, so that the call never ends at all. *)
Theorem executeBatched_needs_positive_size
    (send : list Buffer → Completion (list Buffer))
    (commands : list PipelineCommand) (batchSize : Z) :
  (batchSize ≤ 0)%Z →
  commands ≠ [] →
  ∀ fuel,
    (∀ r results,
       executeBatched codec useBinaryProtocol send fuel commands batchSize
       = Some r → completion r ≠ Return results)
    ∧ (batchSize = 0%Z →
       executeBatched codec useBinaryProtocol send fuel commands batchSize
       = None).
Proof.
  intros Hsize Hne fuel. unfold executeBatched.
  destruct commands as [|cmd commands]; [done|]. split.
  - intros r results.
    destruct (batchLoop codec useBinaryProtocol send fuel (cmd :: commands)
                batchSize 0 [] []) as [[sent outcome]|] eqn:Hloop; [|done].
    intros [= <-]. cbn. intros ->.
    by eapply (batchLoop_stuck send (cmd :: commands) batchSize Hsize Hne
                 fuel 0 [] []).
  - intros ->. by rewrite batchLoop_spins.
Qed.

End Codec.

Lemma executeBatched_keeps_order_witness :
  ∃ batches,
    executeBatched exampleCodec true (fun b => Return (pongs b)) 6 fivePings 2
    = Some {| commandsAfter := []; batchesSent := batches;
              completion :=
                Return (decodeOne exampleCodec true
                          <$> concat (pongs <$> batches)) |}
    ∧ concat batches = replicate 5 [x01]
    ∧ Forall (fun b => (0 < length b)%nat ∧ (Z.of_nat (length b) ≤ 2)%Z)
        batches.
Proof.
  refine (executeBatched_keeps_order exampleCodec true pongs fivePings
            (replicate 5 [x01]) 2 _ _ _).
  - lia.
  - discriminate.
  - reflexivity.
Defined.

Lemma executeBatched_needs_positive_size_witness :
  (∀ r results,
     executeBatched exampleCodec true (fun b => Return (pongs b)) 1000
       fivePings 0 = Some r → completion r ≠ Return results)
  ∧ (0%Z = 0%Z →
     executeBatched exampleCodec true (fun b => Return (pongs b)) 1000
       fivePings 0 = None).
Proof.
  refine (executeBatched_needs_positive_size exampleCodec true
            (fun b => Return (pongs b)) fivePings 0 _ _ 1000).
  - lia.
  - discriminate.
Defined.

End BatchedExecution.

(** ** Binary protocol with 4-byte lengths *)

Section LittleEndian.
Import Connection Protocol ProtocolLE.

Lemma byteOfZ_value (z : Z) :
  Z.of_N (Byte.to_N (byteOfZ z)) = (z mod 256)%Z.
Proof.
  unfold byteOfZ.
  pose proof (Z.mod_pos_bound z 256 ltac:(lia)) as Hz.
  destruct (Byte.of_N (Z.to_N (z mod 256))) as [b|] eqn:Hb.
  - rewrite (Byte.to_of_N _ Hb). lia.
  - apply Byte.of_N_None_iff in Hb. lia.
Qed.

Lemma encodeU32LE_read (value : Z) (len : Buffer) :
  encodeU32LE value = Return len →
  length len = 4%nat
  ∧ (0 ≤ value < 2 ^ 32)%Z
  ∧ ∀ rest, readUInt32LE (len ++ rest) 0 = Some value.
Proof.
  unfold encodeU32LE.
  destruct (Z.leb_spec 0 value) as [Hlo|]; [|done].
  destruct (Z.leb_spec value 4294967295) as [Hhi|]; [|done].
  cbn [andb]. intros [= <-]. split; [done|]. split; [lia|].
  intros rest. unfold readUInt32LE. cbn [drop app]. f_equal.
  rewrite !byteOfZ_value, !Z.shiftl_mul_pow2, !Z.shiftr_div_pow2 by lia.
  change (2 ^ 8)%Z with 256%Z. change (2 ^ 16)%Z with 65536%Z.
  change (2 ^ 24)%Z with 16777216%Z.
  Z.div_mod_to_equations. lia.
Qed.

Lemma readUInt32LE_tail (tag : byte) (buf : Buffer) :
  readUInt32LE (tag :: buf) 1 = readUInt32LE buf 0.
Proof. reflexivity. Qed.

Lemma slice_payload (data : Buffer) (len : Z) :
  Z.of_nat (length data) = (5 + len)%Z → (0 ≤ len)%Z →
  slice data 5 (5 + len) = drop 5 data.
Proof.
  intros Hlen Hpos. unfold slice.
  destruct (Z.ltb_spec (5 + len) 0); [lia|]. cbn [Z.ltb Z.compare].
  destruct (Z.leb_spec (Z.min (5 + len) (Z.of_nat (length data)))
              (Z.min 5 (Z.of_nat (length data)))) as [Hle|Hgt].
  - rewrite drop_ge; [done|lia].
  - replace (Z.to_nat (Z.min 5 (Z.of_nat (length data)))) with 5%nat by lia.
    apply take_ge. rewrite length_drop. lia.
Qed.

Section Decoding.
Variable toString : Buffer → string.

Lemma payload_complete (what : string) (data : Buffer) (len : Z) :
  readUInt32LE data 1 = Some len →
  Z.of_nat (length data) = (5 + len)%Z →
  payload what data = Return (drop 5 data).
Proof.
  intros Hread Hlen. pose proof (readUInt32LE_nonneg _ _ _ Hread) as Hpos.
  unfold payload.
  destruct (Nat.ltb_spec (length data) 5); [lia|].
  rewrite Hread. cbv zeta.
  destruct (Z.ltb_spec (Z.of_nat (length data)) (5 + len)); [lia|].
  by rewrite (slice_payload data len).
Qed.

Lemma valid_payload_frame (tag : byte) (body : Buffer) :
  payloadTag tag = true →
  validBinaryFrame (tag :: body) = true →
  ∃ len payload,
    body = len ++ payload ∧ length len = 4%nat
    ∧ readUInt32LE (tag :: len) 1 = Some (Z.of_nat (length payload))
    ∧ ∀ what, ProtocolLE.payload what (tag :: body) = Return payload.
Proof.
  intros Hp. unfold validBinaryFrame.
  destruct (simpleTag tag) eqn:Hs; [by destruct tag|]. rewrite Hp.
  destruct (readUInt32LE (tag :: body) 1) as [n|] eqn:Hread; [|done].
  intros Hlen%Z.eqb_eq.
  pose proof (readUInt32LE_nonneg _ _ _ Hread) as Hpos.
  destruct body as [|b0 [|b1 [|b2 [|b3 payload]]]]; try done.
  exists [b0; b1; b2; b3], payload. repeat split.
  - cbn [length] in Hlen.
    replace (Z.of_nat (length payload)) with n by lia.
    by rewrite <- Hread.
  - intros what. by rewrite (payload_complete what _ n).
Qed.

(** X16.  What the connection cuts out of its receive buffer, the decoder
    accepts.  Whenever [extractBinaryResponse] answers a frame,
    [decodeBinaryResponse] returns on it without an exception: OK, PONG and
    NULL for the one-byte frames, and for an ERROR, VALUE or STATS frame the
    bytes that follow the 4-byte little-endian length, which are as many as
    the length says (as text for ERROR and STATS). *)
Theorem extracted_frame_decodes (buf frame rest : Buffer) :
  extractBinaryResponse buf = Some (frame, rest) →
  ∃ d,
    decodeBinaryResponse toString frame = Return d
    ∧ (frame = [x10] ∧ d = DOk
       ∨ frame = [x11] ∧ d = DPong
       ∨ frame = [x12] ∧ d = DNull
       ∨ ∃ tag len payload,
           frame = tag :: len ++ payload
           ∧ length len = 4%nat
           ∧ readUInt32LE (tag :: len) 1 = Some (Z.of_nat (length payload))
           ∧ (tag = x13 ∧ d = DError (toString payload)
              ∨ tag = x14 ∧ d = DValue payload
              ∨ tag = x15 ∧ d = DStats (toString payload))).
Proof.
  intros [_ Hvalid]%extractBinaryResponse_frame.
  destruct frame as [|tag body]; [done|].
  destruct (payloadTag tag) eqn:Hp.
  - destruct (valid_payload_frame tag body Hp Hvalid)
      as (len & payload & -> & Hlen & Hread & Hpayload).
    assert (tag = x13 ∨ tag = x14 ∨ tag = x15) as [->|[->| ->]]
      by (destruct tag; try done; auto).
    + exists (DError (toString payload)). split.
      * unfold decodeBinaryResponse. by rewrite Hpayload.
      * do 3 right. exists x13, len, payload.
        do 3 (split; [done|]). by left.
    + exists (DValue payload). split.
      * unfold decodeBinaryResponse. by rewrite Hpayload.
      * do 3 right. exists x14, len, payload.
        do 3 (split; [done|]). right. by left.
    + exists (DStats (toString payload)). split.
      * unfold decodeBinaryResponse. by rewrite Hpayload.
      * do 3 right. exists x15, len, payload.
        do 3 (split; [done|]). right. by right.
  - unfold validBinaryFrame in Hvalid. rewrite Hp in Hvalid.
    destruct (simpleTag tag) eqn:Hs; [|done].
    apply bool_decide_eq_true_1 in Hvalid as ->.
    assert (tag = x10 ∨ tag = x11 ∨ tag = x12) as [->|[->| ->]]
      by (destruct tag; try done; auto).
    + exists DOk. split; [done|]. by left.
    + exists DPong. split; [done|]. right. by left.
    + exists DNull. split; [done|]. do 2 right. by left.
Qed.

End Decoding.

Lemma extracted_frame_decodes_witness :
  ∃ d,
    decodeBinaryResponse string_of_list_byte
      [x14; x02; x00; x00; x00; x68; x69] = Return d
    ∧ ([x14; x02; x00; x00; x00; x68; x69] = [x10] ∧ d = DOk
       ∨ [x14; x02; x00; x00; x00; x68; x69] = [x11] ∧ d = DPong
       ∨ [x14; x02; x00; x00; x00; x68; x69] = [x12] ∧ d = DNull
       ∨ ∃ tag len payload,
           [x14; x02; x00; x00; x00; x68; x69] = tag :: len ++ payload
           ∧ length len = 4%nat
           ∧ readUInt32LE (tag :: len) 1 = Some (Z.of_nat (length payload))
           ∧ (tag = x13 ∧ d = DError (string_of_list_byte payload)
              ∨ tag = x14 ∧ d = DValue payload
              ∨ tag = x15 ∧ d = DStats (string_of_list_byte payload))).
Proof.
  refine (extracted_frame_decodes string_of_list_byte
            [x14; x02; x00; x00; x00; x68; x69; x11]
            [x14; x02; x00; x00; x00; x68; x69] [x11] _).
  reflexivity.
Defined.

End LittleEndian.

Section CommandEncoding.
Import Connection Protocol ProtocolLE.

Lemma withLength_read (b e : Buffer) :
  withLength b = Return e →
  ∃ len, e = len ++ b ∧ length len = 4%nat
         ∧ (Z.of_nat (length b) < 2 ^ 32)%Z
         ∧ ∀ rest, readUInt32LE (e ++ rest) 0 = Some (Z.of_nat (length b)).
Proof.
  unfold withLength.
  destruct (encodeU32LE (Z.of_nat (length b))) as [len|] eqn:Hlen; [|done].
  cbn [bind]. intros [= <-].
  destruct (encodeU32LE_read _ _ Hlen) as (H4 & Hrange & Hread).
  exists len. repeat split; [done|lia|].
  intros rest. by rewrite <- app_assoc.
Qed.

(** Two length-prefixed buffers at the head of the same bytes are the same
    buffer. *)
Lemma withLength_prefix (b1 b2 e1 e2 r1 r2 : Buffer) :
  withLength b1 = Return e1 → withLength b2 = Return e2 →
  e1 ++ r1 = e2 ++ r2 →
  b1 = b2 ∧ e1 = e2 ∧ r1 = r2.
Proof.
  intros (l1 & -> & Hl1 & _ & Hread1)%withLength_read
         (l2 & -> & Hl2 & _ & Hread2)%withLength_read Heq.
  specialize (Hread1 r1). specialize (Hread2 r2).
  rewrite Heq, Hread2 in Hread1.
  assert (length b1 = length b2) as Hlen by (injection Hread1; lia).
  rewrite <- !app_assoc in Heq.
  apply app_inj_1 in Heq as [-> Heq]; [|congruence].
  apply app_inj_1 in Heq as [-> ->]; done.
Qed.

Section Encoder.
Variable toUpperCase : string → string.
Variable toString : Buffer → string.
Variable parseInt : string → option Z.

Lemma encode_PUT (command : string) (key value : Arg) (more : list Arg)
    (e : Buffer) :
  toUpperCase command = "PUT" →
  encodeBinaryCommand toUpperCase toString parseInt command
    (key :: value :: more) = Return e →
  ∃ k v tail,
    withLength (argBytes key) = Return k
    ∧ withLength (argBytes value) = Return v
    ∧ e = x02 :: k ++ v ++ tail.
Proof.
  intros Hname. unfold encodeBinaryCommand. rewrite Hname. cbn [String.eqb].
  change (("PUT" =? "PING")%string) with false.
  change (("PUT" =? "PUT")%string) with true. cbv iota.
  destruct (withLength (argBytes key)) as [k|]; [|done].
  destruct (withLength (argBytes value)) as [v|]; [|done]. cbn [bind].
  destruct more as [|a more'].
  - intros [= <-]. by exists k, v, [x00].
  - destruct (truthy a).
    + destruct (encodeU64LE (parseInt (argText toString a))) as [t8|];
        [|done].
      cbn [bind]. intros [= <-]. by exists k, v, ([x01] ++ t8).
    + intros [= <-]. by exists k, v, [x00].
Qed.

(** X17.  A PUT command in the binary encoding can be read back from the
    front of a byte stream in one way only (as a pipeline needs, which writes
    its commands one after the other): when the encodings of two PUT commands
    are both at the head of the same bytes, the two commands have the same key
    bytes and the same value bytes. *)
Theorem encodeBinaryCommand_put_unambiguous
    (command1 command2 : string) (key1 value1 key2 value2 : Arg)
    (more1 more2 : list Arg) (e1 e2 rest1 rest2 : Buffer) :
  toUpperCase command1 = "PUT" →
  toUpperCase command2 = "PUT" →
  encodeBinaryCommand toUpperCase toString parseInt command1
    (key1 :: value1 :: more1) = Return e1 →
  encodeBinaryCommand toUpperCase toString parseInt command2
    (key2 :: value2 :: more2) = Return e2 →
  e1 ++ rest1 = e2 ++ rest2 →
  argBytes key1 = argBytes key2 ∧ argBytes value1 = argBytes value2.
Proof.
  intros Hname1 Hname2
    (k1 & v1 & tail1 & Hk1 & Hv1 & ->)%encode_PUT
    (k2 & v2 & tail2 & Hk2 & Hv2 & ->)%encode_PUT Heq; [|done..].
  rewrite <- !app_comm_cons, <- !app_assoc in Heq.
  injection Heq as Heq.
  destruct (withLength_prefix _ _ _ _ _ _ Hk1 Hk2 Heq) as (Hkey & _ & Heq').
  destruct (withLength_prefix _ _ _ _ _ _ Hv1 Hv2 Heq') as (Hvalue & _ & _).
  done.
Qed.

End Encoder.

Lemma encodeBinaryCommand_put_unambiguous_witness :
  argBytes (Text "k") = argBytes (Bytes [x6b])
  ∧ argBytes (Text "v") = argBytes (Bytes [x76]).
Proof.
  refine (encodeBinaryCommand_put_unambiguous
            (fun _ => "PUT") string_of_list_byte (fun _ => Some 60%Z)
            "put" "Put" (Text "k") (Text "v") (Bytes [x6b]) (Bytes [x76])
            [] [Text ""]
            [x02; x01; x00; x00; x00; x6b; x01; x00; x00; x00; x76; x00]
            [x02; x01; x00; x00; x00; x6b; x01; x00; x00; x00; x76; x00]
            [x01] [x01] _ _ _ _ _); reflexivity.
Defined.

End CommandEncoding.

(** ** Variable-length integers *)

Section VarintRoundTrip.
Import Connection Protocol Varint.

Lemma toInt32_small (z : Z) : (0 ≤ z < 2 ^ 31)%Z → toInt32 z = z.
Proof. intros Hz. unfold toInt32. rewrite Z.mod_small; lia. Qed.

Lemma toUint32_small (z : Z) : (0 ≤ z < 2 ^ 32)%Z → toUint32 z = z.
Proof. intros Hz. unfold toUint32. by rewrite Z.mod_small. Qed.

Lemma decodeVarint_loop_cons (byte : byte) (rest : Buffer)
    (result shift bytesRead : Z) :
  decodeVarint_loop (byte :: rest) result shift bytesRead
  = let b := Z.of_N (Byte.to_N byte) in
    let result' :=
      toInt32 (Z.lor result (toInt32 (Z.shiftl (Z.land b 127) shift))) in
    if (Z.land b 128 =? 0)%Z then Return (result', (bytesRead + 1)%Z)
    else if (32 <=? shift + 7)%Z then Throw "Varint too long"
         else decodeVarint_loop rest result' (shift + 7) (bytesRead + 1).
Proof. reflexivity. Qed.

(** Bits that do not overlap add up. *)
Lemma lor_shifted (result digit shift : Z) :
  (0 ≤ shift)%Z → (0 ≤ result < 2 ^ shift)%Z → (0 ≤ digit)%Z →
  Z.lor result (Z.shiftl digit shift) = (result + digit * 2 ^ shift)%Z.
Proof.
  intros Hshift Hresult Hdigit.
  rewrite <- Z.add_lor_land, Z.shiftl_mul_pow2 by done.
  enough (Z.land result (digit * 2 ^ shift) = 0)%Z as -> by lia.
  apply Z.bits_inj'. intros n Hn.
  rewrite Z.land_spec, Z.bits_0.
  destruct (Z.lt_ge_cases n shift) as [Hlow|Hhigh].
  - rewrite Z.mul_pow2_bits_low by done. apply andb_false_r.
  - destruct (Z.eq_dec result 0%Z) as [->|Hne]; [by rewrite Z.bits_0|].
    rewrite (Z.bits_above_log2 result n); [done|lia|].
    apply Z.log2_lt_pow2; [lia|].
    apply Z.lt_le_trans with (2 ^ shift)%Z; [lia|].
    apply Z.pow_le_mono_r; lia.
Qed.

Lemma continuation_byte (num : Z) :
  (0 ≤ num)%Z →
  let b := Z.of_N (Byte.to_N (byteOfZ (Z.lor (Z.land num 255) 128))) in
  Z.land b 127 = (num mod 128)%Z ∧ Z.land b 128 ≠ 0%Z.
Proof.
  intros Hnum b. unfold b. rewrite byteOfZ_value.
  assert (0 ≤ Z.lor (Z.land num 255) 128 < 256)%Z as Hrange.
  { change 255%Z with (Z.ones 8). rewrite Z.land_ones by lia.
    pose proof (Z.mod_pos_bound num (2 ^ 8) ltac:(lia)) as Hm.
    split; [apply Z.lor_nonneg; lia|].
    destruct (Z.eq_dec (Z.lor (num mod 2 ^ 8) 128) 0%Z) as [->|Hne]; [lia|].
    apply Z.log2_lt_pow2 with (b := 8%Z); [|].
    - assert (0 ≤ Z.lor (num mod 2 ^ 8) 128)%Z by (apply Z.lor_nonneg; lia).
      lia.
    - rewrite Z.log2_lor by lia.
      apply Z.max_lub_lt; [|done].
      destruct (Z.eq_dec (num mod 2 ^ 8)%Z 0%Z) as [->|Hne']; [done|].
      apply Z.log2_lt_pow2; lia. }
  rewrite (Z.mod_small _ 256) by done.
  rewrite !Z.land_lor_distr_l, <- !Z.land_assoc.
  change (Z.land 255 127) with (Z.ones 7). change (Z.land 128 127) with 0%Z.
  change (Z.land 255 128) with 128%Z. change (Z.land 128 128) with 128%Z.
  rewrite Z.lor_0_r, Z.land_ones by lia. split; [done|].
  intros [_ H]%Z.lor_eq_0_iff. done.
Qed.

Lemma final_byte (num : Z) :
  (0 ≤ num < 128)%Z →
  let b := Z.of_N (Byte.to_N (byteOfZ (Z.land num 255))) in
  Z.land b 127 = num ∧ Z.land b 128 = 0%Z.
Proof.
  intros Hnum b. unfold b. rewrite byteOfZ_value.
  change 255%Z with (Z.ones 8). rewrite Z.land_ones by lia.
  rewrite (Z.mod_small num (2 ^ 8)) by lia.
  rewrite (Z.mod_small num 256) by lia.
  change 127%Z with (Z.ones 7). rewrite Z.land_ones by lia.
  split; [apply Z.mod_small; lia|].
  apply Z.bits_inj'. intros n Hn. rewrite Z.land_spec, Z.bits_0.
  destruct (Z.eq_dec n 7%Z) as [->|Hne].
  - destruct (Z.eq_dec num 0%Z) as [->|Hne]; [done|].
    rewrite (Z.bits_above_log2 num 7); [done|lia|].
    apply Z.log2_lt_pow2; lia.
  - change 128%Z with (2 ^ 7)%Z. rewrite Z.pow2_bits_eqb by lia.
    destruct (Z.eqb_spec 7 n); [lia|]. apply andb_false_r.
Qed.

(** The decoder run on the bytes of the encoder, from any point of the
    loops on. *)
Lemma decode_encode_loop (fuel : nat) :
  ∀ num result shift bytesRead numbers rest,
    (0 ≤ shift)%Z → (0 ≤ result < 2 ^ shift)%Z → (0 ≤ num)%Z →
    (result + num * 2 ^ shift < 2 ^ 31)%Z →
    encodeVarint_loop fuel num = Some numbers →
    decodeVarint_loop ((byteOfZ <$> numbers) ++ rest) result shift bytesRead
    = Return ((result + num * 2 ^ shift)%Z,
              (bytesRead + Z.of_nat (length numbers))%Z).
Proof.
  induction fuel as [|fuel IH];
    intros num result shift bytesRead numbers rest Hshift Hresult Hnum Hsmall;
    [done|].
  cbn [encodeVarint_loop].
  assert (0 < 2 ^ shift)%Z as Hpow by (apply Z.pow_pos_nonneg; lia).
  assert (num < 2 ^ 31)%Z as Hnum31 by nia.
  rewrite toInt32_small, toUint32_small by lia.
  destruct (Z.leb_spec 128 num) as [Hbig|Hlast].
  - destruct (encodeVarint_loop fuel (Z.shiftr num 7)) as [more|] eqn:Hmore;
      [|done].
    cbn [fmap option_fmap option_map]. intros [= <-].
    rewrite fmap_cons, <- app_comm_cons, decodeVarint_loop_cons.
    destruct (continuation_byte num Hnum) as [Hlow Hhigh].
    cbv zeta. rewrite Hlow.
    destruct (Z.eqb_spec (Z.land (Z.of_N (Byte.to_N
                (byteOfZ (Z.lor (Z.land num 255) 128)))) 128) 0%Z) as [|_];
      [done|].
    pose proof (Z.mod_pos_bound num 128 ltac:(lia)) as Hdigit.
    pose proof (Z.div_mod num 128 ltac:(lia)) as Hsplit.
    rewrite Z.shiftr_div_pow2 in * by lia. change (2 ^ 7)%Z with 128%Z in *.
    assert (2 ^ (shift + 7) = 128 * 2 ^ shift)%Z as Hpow7.
    { rewrite Z.pow_add_r by lia. change (2 ^ 7)%Z with 128%Z. lia. }
    assert (num mod 128 * 2 ^ shift < 2 ^ 31)%Z by nia.
    rewrite Z.shiftl_mul_pow2 by lia.
    rewrite (toInt32_small (num mod 128 * 2 ^ shift)) by nia.
    rewrite <- (Z.shiftl_mul_pow2 (num mod 128) shift) by lia.
    rewrite lor_shifted by lia.
    rewrite toInt32_small by nia.
    destruct (Z.leb_spec 32 (shift + 7)) as [Hlong|_].
    { assert (2 ^ 32 ≤ 2 ^ (shift + 7))%Z by (apply Z.pow_le_mono_r; lia).
      nia. }
    rewrite (IH (num / 128)%Z _ (shift + 7)%Z _ more rest); try done.
    + cbn [length]. f_equal. f_equal; [rewrite Hpow7; nia|lia].
    + lia.
    + rewrite Hpow7. nia.
    + apply Z.div_pos; lia.
    + rewrite Hpow7. nia.
  - intros [= <-]. cbn [fmap list_fmap app length].
    rewrite decodeVarint_loop_cons.
    destruct (final_byte num ltac:(lia)) as [Hlow Hhigh].
    cbv zeta. rewrite Hlow, Hhigh. cbn [Z.eqb].
    rewrite Z.shiftl_mul_pow2 by lia.
    rewrite (toInt32_small (num * 2 ^ shift)) by nia.
    rewrite <- (Z.shiftl_mul_pow2 num shift) by lia.
    rewrite lor_shifted by lia.
    rewrite toInt32_small by nia.
    by rewrite Z.shiftl_mul_pow2 by lia.
Qed.

Lemma encodeVarint_loop_nonempty (fuel : nat) (num : Z) (numbers : list Z) :
  encodeVarint_loop fuel num = Some numbers → (1 ≤ length numbers)%nat.
Proof.
  destruct fuel as [|fuel]; [done|]. cbn [encodeVarint_loop].
  destruct (128 <=? num)%Z.
  - destruct (encodeVarint_loop fuel _) as [more|]; [|done].
    intros [= <-]. cbn [length]. lia.
  - intros [= <-]. cbn [length]. lia.
Qed.

(** Five tests of the loop condition are enough for every number. *)
Lemma encodeVarint_loop_ends (num : Z) :
  (0 ≤ num < 2 ^ 32)%Z →
  ∃ numbers, encodeVarint_loop 5 num = Some numbers
             ∧ (length numbers ≤ 5)%nat.
Proof.
  intros Hnum.
  assert (∀ fuel bound n, (0 ≤ n < 2 ^ bound)%Z → (0 ≤ bound ≤ 32)%Z →
            (bound ≤ 7 * Z.of_nat fuel)%Z → (0 < fuel)%nat →
            ∃ numbers, encodeVarint_loop fuel n = Some numbers
                       ∧ (length numbers ≤ fuel)%nat) as Hgen.
  { induction fuel as [|fuel IH]; intros bound n Hn Hbound Hfuel Hpos; [lia|].
    cbn [encodeVarint_loop].
    destruct (Z.leb_spec 128 n) as [Hbig|Hlast].
    - rewrite toUint32_small.
      2:{ split; [lia|]. apply Z.lt_le_trans with (2 ^ bound)%Z; [lia|].
          apply Z.pow_le_mono_r; lia. }
      assert (7 < bound)%Z as Hb.
      { destruct (Z.le_gt_cases bound 7) as [Hle|]; [|done].
        assert (2 ^ bound ≤ 2 ^ 7)%Z by (apply Z.pow_le_mono_r; lia). lia. }
      destruct (IH (bound - 7)%Z (Z.shiftr n 7)) as (more & -> & Hlen);
        [| lia | lia | lia |].
      + rewrite Z.shiftr_div_pow2 by lia. split; [apply Z.div_pos; lia|].
        apply Z.div_lt_upper_bound; [lia|].
        rewrite <- Z.pow_add_r by lia.
        replace (7 + (bound - 7))%Z with bound by lia. lia.
      + eexists. split; [done|]. cbn [length]. lia.
    - eexists. split; [done|]. cbn [length]. lia. }
  apply (Hgen 5%nat 32%Z); lia.
Qed.

Lemma decodeVarint_encodeVarint (value : Z) :
  (0 ≤ value < 2 ^ 31)%Z →
  ∃ bytes,
    encodeVarint 5 value = Some bytes
    ∧ (1 ≤ length bytes ≤ 5)%nat
    ∧ ∀ rest,
        decodeVarint (bytes ++ rest)
        = Return (value, Z.of_nat (length bytes)).
Proof.
  intros Hvalue.
  destruct (encodeVarint_loop_ends value ltac:(lia)) as (numbers & Hloop & Hlen).
  exists (byteOfZ <$> numbers). unfold encodeVarint. rewrite Hloop.
  split; [done|]. rewrite length_fmap. split.
  - split; [|done]. by apply (encodeVarint_loop_nonempty 5 value).
  - intros rest. unfold decodeVarint.
    rewrite (decode_encode_loop 5 value 0 0 0 numbers rest).
    + do 2 f_equal. change (2 ^ 0)%Z with 1%Z. lia.
    + done.
    + done.
    + lia.
    + change (2 ^ 0)%Z with 1%Z. lia.
    + done.
Qed.

(** X18.  Round trip of the variable-length integers: for every number
    from 0 to 2^31 - 1 the loop of [encodeVarint] ends (at most five bytes),
    and [decodeVarint] run on these bytes, whatever follows them, returns
    the number and the count of bytes that encode it. *)
Theorem varint_round_trip (value : Z) :
  (0 ≤ value < 2 ^ 31)%Z →
  ∃ bytes,
    encodeVarint 5 value = Some bytes
    ∧ (1 ≤ length bytes ≤ 5)%nat
    ∧ ∀ rest,
        decodeVarint (bytes ++ rest)
        = Return (value, Z.of_nat (length bytes)).
Proof.
  intros Hvalue.
  destruct (encodeVarint_loop_ends value ltac:(lia)) as (numbers & Hloop & Hlen).
  pose proof (encodeVarint_loop_nonempty 5 value numbers Hloop) as Hone.
  exists (byteOfZ <$> numbers). unfold encodeVarint. rewrite Hloop.
  rewrite length_fmap. repeat split; [done..|].
  intros rest. unfold decodeVarint.
  rewrite (decode_encode_loop 5 value 0 0 0 numbers rest);
    [|lia|change (2 ^ 0)%Z with 1%Z; lia|lia|change (2 ^ 0)%Z with 1%Z; lia|done].
  change (2 ^ 0)%Z with 1%Z. do 2 f_equal. lia.
Qed.

Lemma varint_round_trip_witness :
  ∃ bytes,
    encodeVarint 5 300 = Some bytes
    ∧ (1 ≤ length bytes ≤ 5)%nat
    ∧ ∀ rest,
        decodeVarint (bytes ++ rest) = Return (300%Z, Z.of_nat (length bytes)).
Proof.
  refine (varint_round_trip 300 _). lia.
Defined.

Lemma slice_inside (data : Buffer) (start stop : Z) :
  (0 ≤ start ≤ stop)%Z → (stop ≤ Z.of_nat (length data))%Z →
  slice data start stop
  = take (Z.to_nat (stop - start)) (drop (Z.to_nat start) data).
Proof.
  intros Hstart Hstop. unfold slice.
  destruct (Z.ltb_spec stop 0); [lia|]. destruct (Z.ltb_spec start 0); [lia|].
  rewrite !Z.min_l by lia.
  destruct (Z.leb_spec stop start); [|done].
  by replace (stop - start)%Z with 0%Z by lia.
Qed.

Section Responses.
Variable toString : Buffer → string.

Lemma payload_varint (tag : byte) (bytes body trailing : Buffer) :
  encodeVarint 5 (Z.of_nat (length body)) = Some bytes →
  (Z.of_nat (length body) < 2 ^ 31)%Z →
  payload (tag :: bytes ++ body ++ trailing) = Return body.
Proof.
  intros Hbytes Hsmall.
  destruct (decodeVarint_encodeVarint (Z.of_nat (length body)) ltac:(lia))
    as (bytes' & Hbytes' & Hlen & Hdecode).
  assert (bytes' = bytes) as -> by congruence.
  unfold payload. set (data := tag :: bytes ++ body ++ trailing).
  assert (length data = S (length bytes + (length body + length trailing)))
    as Hdata by (unfold data; cbn [length]; by rewrite !length_app).
  rewrite (slice_inside data 1) by lia.
  change (Z.to_nat 1) with 1%nat. change (drop 1 data) with (bytes ++ body ++ trailing).
  rewrite take_ge by (rewrite !length_app; lia).
  rewrite Hdecode. cbv zeta.
  rewrite slice_inside by lia.
  replace (Z.to_nat (1 + Z.of_nat (length bytes)))
    with (S (length bytes)) by lia.
  replace (Z.to_nat (1 + Z.of_nat (length bytes) + Z.of_nat (length body)
                     - (1 + Z.of_nat (length bytes))))
    with (length body) by lia.
  unfold data. cbn [drop]. rewrite drop_app_length.
  by rewrite take_app_length.
Qed.

(** X19.  [decodeBinaryResponse] with variable-length lengths: an ERROR,
    VALUE or STATS tag followed by the length of the body (less than 2^31)
    as [encodeVarint] writes it and by the body decodes to that body (as
    text for ERROR and STATS), whatever bytes follow the body. *)
Theorem decodeBinaryResponse_reads_body (bytes body trailing : Buffer) :
  encodeVarint 5 (Z.of_nat (length body)) = Some bytes →
  (Z.of_nat (length body) < 2 ^ 31)%Z →
  decodeBinaryResponse toString (x13 :: bytes ++ body ++ trailing)
  = Return (DError (toString body))
  ∧ decodeBinaryResponse toString (x14 :: bytes ++ body ++ trailing)
    = Return (DValue body)
  ∧ decodeBinaryResponse toString (x15 :: bytes ++ body ++ trailing)
    = Return (DStats (toString body)).
Proof.
  intros Hbytes Hsmall. unfold decodeBinaryResponse.
  by rewrite !(payload_varint _ bytes body trailing Hbytes Hsmall).
Qed.

End Responses.

Lemma decodeBinaryResponse_reads_body_witness :
  decodeBinaryResponse string_of_list_byte
    (x14 :: [x02] ++ [x68; x69] ++ [x10])
  = Return (DValue [x68; x69]).
Proof.
  refine (proj1 (proj2 (decodeBinaryResponse_reads_body string_of_list_byte
                          [x02] [x68; x69] [x10] _ _))).
  - reflexivity.
  - cbn. lia.
Defined.

End VarintRoundTrip.

(** ** Node selection of the cluster client *)

Section NodeSelection.
Import Connection Cluster LoadBalancer.

Lemma roundRobinCalls_lookup (nodes : list ClusterNode) (k : nat) :
  ∀ i, (roundRobinCalls k nodes i).2 = (i + k)%nat
       ∧ length (roundRobinCalls k nodes i).1 = k
       ∧ ∀ j, (j < k)%nat →
           (roundRobinCalls k nodes i).1 !! j
           = Some (nodes !! ((i + j) mod length nodes)%nat).
Proof.
  induction k as [|k IH]; intros i; cbn [roundRobinCalls].
  - repeat split; [cbn; lia|]. intros j Hj. lia.
  - unfold selectRoundRobin.
    destruct (roundRobinCalls k nodes (S i)) as [more index'] eqn:Hcalls.
    destruct (IH (S i)) as (Hindex & Hlen & Hlookup).
    rewrite Hcalls in Hindex, Hlen, Hlookup. cbn [fst snd] in *.
    repeat split; [lia|cbn [length]; lia|].
    intros [|j] Hj; cbn [lookup list_lookup].
    + by rewrite Nat.add_0_r.
    + rewrite <- Nat.add_succ_comm. apply Hlookup. lia.
Qed.

Lemma rotate_Permutation {A : Type} (n : nat) (l : list A) : rotate n l ≡ₚ l.
Proof.
  unfold rotate. rewrite Permutation_app_comm. by rewrite take_drop.
Qed.

(** X20.  Round robin is fair on a fixed list of nodes: from any value of
    [currentNodeIndex], as many calls of [selectRoundRobin] as there are
    nodes return the nodes in list order starting at the index modulo the
    number of nodes and wrapping around, so every node exactly once, and
    leave the index advanced by the number of nodes. *)
Theorem roundRobin_cycle (nodes : list ClusterNode) (currentNodeIndex : nat) :
  nodes ≠ [] →
  roundRobinCalls (length nodes) nodes currentNodeIndex
  = (Some <$> rotate currentNodeIndex nodes,
     (currentNodeIndex + length nodes)%nat)
  ∧ rotate currentNodeIndex nodes ≡ₚ nodes.
Proof.
  intros Hne. split; [|apply rotate_Permutation].
  assert (0 < length nodes)%nat as Hpos by (destruct nodes; [done|cbn; lia]).
  destruct (roundRobinCalls_lookup nodes (length nodes) currentNodeIndex)
    as (Hindex & Hlen & Hlookup).
  destruct (roundRobinCalls (length nodes) nodes currentNodeIndex)
    as [selected index] eqn:Hcalls.
  cbn [fst snd] in *. f_equal; [|done].
  apply list_eq. intros j. rewrite list_lookup_fmap.
  destruct (Nat.lt_ge_cases j (length nodes)) as [Hj|Hj].
  - rewrite (Hlookup j Hj), lookup_rotate_r by done.
    unfold rotate_nat_add. cbn [fmap option_fmap option_map].
    rewrite <- Nat2Z.inj_add, <- Nat2Z.inj_mod, Nat2Z.id.
    destruct (nodes !! _) eqn:Hnode; [done|].
    apply lookup_ge_None in Hnode.
    pose proof (Nat.mod_upper_bound (currentNodeIndex + j) (length nodes)).
    lia.
  - rewrite (lookup_ge_None_2 selected) by lia.
    by rewrite (lookup_ge_None_2 (rotate _ _)) by (rewrite length_rotate; lia).
Qed.

Lemma roundRobin_cycle_witness :
  roundRobinCalls 2
    [{| host := "a"; port := 1; weight := 1; active := true |};
     {| host := "b"; port := 2; weight := 1; active := true |}] 5
  = (Some <$> rotate 5
       [{| host := "a"; port := 1; weight := 1; active := true |};
        {| host := "b"; port := 2; weight := 1; active := true |}],
     7%nat).
Proof.
  refine (proj1 (roundRobin_cycle
                   [{| host := "a"; port := 1; weight := 1; active := true |};
                    {| host := "b"; port := 2; weight := 1; active := true |}]
                   5 _)).
  discriminate.
Defined.

(** A [reduce] that replaces its choice only by a strictly better element
    ends on the first of the best elements. *)
Lemma foldl_first_best {A : Type} (pick : A → A → A) (better : A → A → bool)
    (pre post : list A) (best : A) :
  (∀ chosen current,
     chosen ∈ pre ++ best :: post → current ∈ pre ++ best :: post →
     pick chosen current = if better current chosen then current else chosen) →
  (∀ n, n ∈ pre → better best n = true) →
  (∀ n, n ∈ post → better n best = false) →
  reduce1 pick (pre ++ best :: post) = Return best.
Proof.
  intros Hpick Hpre Hpost.
  assert (∀ l, l ⊆ post → foldl pick best l = best) as Hkeep.
  { induction l as [|n l IH]; intros Hl; [done|]. cbn [foldl].
    rewrite Hpick, Hpost; [apply IH| | |].
    - intros x Hx. apply Hl. by right.
    - apply Hl. by left.
    - apply elem_of_app. right. by left.
    - apply elem_of_app. right. right. apply Hl. by left. }
  assert (∀ l chosen, l ⊆ pre → chosen ∈ pre →
            foldl pick chosen (l ++ best :: post) = best) as Hswitch.
  { induction l as [|n l IH]; intros chosen Hl Hchosen.
    - cbn [app foldl]. rewrite Hpick, Hpre; [by apply Hkeep|done| |].
      + apply elem_of_app. by left.
      + apply elem_of_app. right. by left.
    - cbn [app foldl].
      assert (n ∈ pre) as Hn by (apply Hl; by left).
      assert (l ⊆ pre) as Hl' by (intros x Hx; apply Hl; by right).
      rewrite Hpick by (apply elem_of_app; by left).
      destruct (better n chosen); by apply IH. }
  destruct pre as [|first pre'].
  - cbn [app reduce1]. f_equal. by apply Hkeep.
  - cbn [app reduce1]. f_equal. apply Hswitch.
    + intros x Hx. by right.
    + by left.
Qed.

Lemma foldl_pick_elem {A : Type} (pick : A → A → A) (l : list A) :
  (∀ chosen current, pick chosen current = chosen
                     ∨ pick chosen current = current) →
  ∀ first, foldl pick first l ∈ first :: l.
Proof.
  intros Hpick. induction l as [|n l IH]; intros first; cbn [foldl].
  - by left.
  - specialize (IH (pick first n)).
    apply elem_of_cons in IH as [->|IH].
    + destruct (Hpick first n) as [->| ->]; [by left|right; by left].
    + right. by right.
Qed.

Section Strategies.
Variable portText : Z → string.
Variable metrics : gmap string NodeMetrics.

(** X22.  [selectResourceBased] returns the first of the least loaded
    nodes: when every node of the list has metrics, the node whose
    [requestCount] is below that of every node before it and not above that
    of any node after it is the one returned. *)
Theorem selectResourceBased_least_loaded (pre post : list ClusterNode)
    (best : ClusterNode) (load : ClusterNode → Z) :
  (∀ n, n ∈ pre ++ best :: post →
     ∃ m, metrics !! nodeId portText n = Some m ∧ requestCount m = load n) →
  (∀ n, n ∈ pre → (load best < load n)%Z) →
  (∀ n, n ∈ post → (load best ≤ load n)%Z) →
  selectResourceBased portText metrics (pre ++ best :: post) = Return best.
Proof.
  intros Hmetrics Hpre Hpost. unfold selectResourceBased.
  apply (foldl_first_best _
           (fun current chosen => (load current <? load chosen)%Z)).
  - intros chosen current (mb & Hb & Hlb)%Hmetrics (mc & Hc & Hlc)%Hmetrics.
    unfold lessLoaded. by rewrite Hb, Hc, Hlb, Hlc.
  - intros n Hn. apply Z.ltb_lt. by apply Hpre.
  - intros n Hn. apply Z.ltb_ge. by apply Hpost.
Qed.


End Strategies.

Lemma selectResourceBased_least_loaded_witness :
  selectResourceBased examplePort loadedMetrics
    ([nodeA] ++ nodeB :: [nodeC])
  = Return nodeB.
Proof.
  refine (selectResourceBased_least_loaded examplePort loadedMetrics
            [nodeA] [nodeC] nodeB
            (fun n => if String.eqb (host n) "b" then 2%Z else 5%Z) _ _ _).
  - intros n Hn.
    repeat (apply elem_of_cons in Hn as [->|Hn]); [..|by apply elem_of_nil in Hn];
      eexists; split; reflexivity.
  - intros n Hn.
    repeat (apply elem_of_cons in Hn as [->|Hn]); [|by apply elem_of_nil in Hn].
    reflexivity.
  - intros n Hn.
    repeat (apply elem_of_cons in Hn as [->|Hn]); [|by apply elem_of_nil in Hn].
    cbn. lia.
Defined.


End NodeSelection.

(** ** Selection among active nodes, health rounds *)

Section ClusterHealth.
Import Connection Cluster LoadBalancer.

Lemma filter_elem {A : Type} (f : A → bool) (l : list A) (x : A) :
  x ∈ List.filter f l ↔ x ∈ l ∧ f x = true.
Proof. rewrite !list_elem_of_In. apply filter_In. Qed.

Lemma weightedLoop_elem (nodes : list ClusterNode) :
  ∀ random node, weightedLoop random nodes = Some node → node ∈ nodes.
Proof.
  induction nodes as [|first nodes IH]; intros random node; [done|].
  cbn [weightedLoop]. destruct (PrimFloat.leb _ _).
  - intros [= <-]. by left.
  - intros H%IH. by right.
Qed.

Lemma selectWeighted_elem (mathRandom : float) (nodes : list ClusterNode) :
  nodes ≠ [] →
  ∃ node, selectWeighted mathRandom nodes = Some node ∧ node ∈ nodes.
Proof.
  intros Hne. unfold selectWeighted.
  destruct (weightedLoop _ nodes) as [node|] eqn:Hloop.
  - exists node. split; [done|]. by apply weightedLoop_elem in Hloop.
  - destruct nodes as [|first nodes]; [done|]. exists first. split; [done|].
    by left.
Qed.

(** The arithmetic is that of doubles: with weights 1, 3 and 1 and the draw
    0.2 (the double next to it), the product with the total weight is the
    double 1, the first subtraction gives 0 and the first node is
    returned. *)
Lemma selectWeighted_rounds :
  PrimFloat.mul 0x1.999999999999ap-3%float (totalWeight [nodeA; nodeB; nodeC])
  = 1%float
  ∧ selectWeighted 0x1.999999999999ap-3%float [nodeA; nodeB; nodeC]
    = Some nodeA.
Proof. split; reflexivity. Qed.

Section Client.
Variable portText : Z → string.

Lemma reduce1_elem (pick : ClusterNode → ClusterNode → ClusterNode)
    (nodes : list ClusterNode) :
  (∀ chosen current, pick chosen current = chosen
                     ∨ pick chosen current = current) →
  nodes ≠ [] →
  ∃ node, reduce1 pick nodes = Return node ∧ node ∈ nodes.
Proof.
  intros Hpick Hne. destruct nodes as [|first rest]; [done|].
  exists (foldl pick first rest). split; [done|].
  by apply foldl_pick_elem.
Qed.

Lemma lessLoaded_picks (metrics : gmap string NodeMetrics)
    (chosen current : ClusterNode) :
  lessLoaded portText metrics chosen current = chosen
  ∨ lessLoaded portText metrics chosen current = current.
Proof.
  unfold lessLoaded.
  destruct (metrics !! nodeId portText chosen) as [mb|]; [|by right].
  destruct (metrics !! nodeId portText current) as [mc|]; [|by left].
  destruct (_ <? _)%Z; auto.
Qed.

Lemma betterScore_picks (metrics : gmap string NodeMetrics)
    (chosen current : ClusterNode) :
  betterScore portText metrics chosen current = chosen
  ∨ betterScore portText metrics chosen current = current.
Proof.
  unfold betterScore.
  destruct (metrics !! nodeId portText chosen) as [mb|]; [|by right].
  destruct (metrics !! nodeId portText current) as [mc|]; [|by left].
  cbv zeta. destruct (Qlt_bool _ _); auto.
Qed.

(** X24.  [selectNode] in a cluster with at least one active node: whatever
    the strategy, the value of [Math.random()], the metrics and the
    round-robin index, the call returns a node (it neither throws nor
    returns [null] or [undefined]), and that node is one of the cluster's
    nodes that are flagged active. *)
Theorem selectNode_returns_active_node (loadBalancingStrategy : string)
    (mathRandom : float) (c : LoadBalancer.t) :
  List.filter active (snd <$> clusterNodes c) ≠ [] →
  ∃ node,
    (selectNode portText true loadBalancingStrategy mathRandom c).1
    = Return (Some node)
    ∧ node ∈ snd <$> clusterNodes c
    ∧ active node = true.
Proof.
  intros Hne. unfold selectNode. cbn [negb].
  set (activeNodes := List.filter active (snd <$> clusterNodes c)) in *.
  assert (∀ node, node ∈ activeNodes →
            node ∈ snd <$> clusterNodes c ∧ active node = true) as Hactive.
  { intros node Hnode. by apply filter_elem in Hnode. }
  assert (∃ node,
            (let '(node, index) :=
               selectRoundRobin activeNodes (currentNodeIndex c) in
             (Return node,
              {| clusterNodes := clusterNodes c;
                 nodeConnections := nodeConnections c;
                 nodeMetrics := nodeMetrics c;
                 failoverEvents := failoverEvents c;
                 currentNodeIndex := index |})).1 = Return (Some node)
            ∧ node ∈ snd <$> clusterNodes c ∧ active node = true) as Hrr.
  { unfold selectRoundRobin. cbn [fst].
    assert (currentNodeIndex c mod length activeNodes < length activeNodes)%nat
      as Hlt.
    { apply Nat.mod_upper_bound. by destruct activeNodes. }
    apply lookup_lt_is_Some in Hlt as [node Hnode].
    exists node. split; [by rewrite Hnode|].
    apply Hactive. by eapply list_elem_of_lookup_2. }
  destruct activeNodes as [|first rest] eqn:Hnodes; [done|].
  destruct (String.eqb loadBalancingStrategy "round_robin"); [exact Hrr|].
  destruct (String.eqb loadBalancingStrategy "weighted").
  { destruct (selectWeighted_elem mathRandom (first :: rest) Hne)
      as (node & Hsel & Hin).
    exists node. cbn [fst]. rewrite Hsel. split; [done|]. by apply Hactive. }
  destruct (String.eqb loadBalancingStrategy "resource_based").
  { destruct (reduce1_elem (lessLoaded portText (nodeMetrics c))
                (first :: rest) (lessLoaded_picks _) Hne) as (node & Hsel & Hin).
    exists node. cbn [fst]. unfold selectResourceBased. rewrite Hsel.
    split; [done|]. by apply Hactive. }
  destruct (String.eqb loadBalancingStrategy "adaptive"); [|exact Hrr].
  destruct (reduce1_elem (betterScore portText (nodeMetrics c))
              (first :: rest) (betterScore_picks _) Hne) as (node & Hsel & Hin).
  exists node. cbn [fst]. unfold selectAdaptive. rewrite Hsel.
  split; [done|]. by apply Hactive.
Qed.

Lemma setActive_same (node : ClusterNode) :
  setActive (active node) node = node.
Proof. by destruct node. Qed.

Lemma checkNodes_round (now : Z) (ping : string → option Z)
    (connections : gmap string Pool.t) (entries : list (string * ClusterNode)) :
  ∀ metrics failovers,
    (∀ entry, entry ∈ entries →
       is_Some (connections !! entry.1) ∧ is_Some (metrics !! entry.1)) →
    ∃ metrics',
      checkNodes now ping entries connections metrics failovers
      = (probedNode ping <$> entries, metrics',
         (failovers
          + Z.of_nat (length (List.filter (failsOver ping) entries)))%Z)
      ∧ (∀ id, is_Some (metrics !! id) → is_Some (metrics' !! id))
      ∧ (∀ id m', metrics' !! id = Some m' →
           ∃ m, metrics !! id = Some m ∧ requestCount m' = requestCount m).
Proof.
  induction entries as [|[id node] entries IH]; intros metrics failovers Hall.
  - exists metrics. cbn. rewrite Z.add_0_r. split; [done|]. split; [done|].
    intros id m' Hm'. by exists m'.
  - destruct (Hall (id, node) ltac:(by left)) as [[pool Hpool] [m Hm]].
    cbn [fst snd] in Hpool, Hm.
    cbn [checkNodes]. unfold checkNode. rewrite Hpool, Hm.
    destruct (ping id) as [latency|] eqn:Hping.
    + set (metrics1 := <[id := _]> metrics).
      destruct (IH metrics1 failovers) as (metrics' & Hrest & Hkeep & Hload).
      { intros entry Hentry.
        destruct (Hall entry ltac:(by right)) as [Hc Hmm].
        split; [done|]. unfold metrics1.
        apply lookup_insert_is_Some'. by right. }
      exists metrics'. rewrite Hrest. split; [|split].
      * assert (bool_decide (is_Some (ping id)) = true) as Hanswered.
        { apply bool_decide_eq_true_2. by rewrite Hping. }
        assert (probedNode ping (id, node) = (id, setActive true node)) as Hp.
        { unfold probedNode. cbn [fst snd]. by rewrite Hanswered. }
        assert (failsOver ping (id, node) = false) as Hf.
        { unfold failsOver. cbn [fst snd]. rewrite Hanswered.
          apply andb_false_r. }
        rewrite fmap_cons, Hp. cbn [List.filter]. by rewrite Hf.
      * intros id' Hid'. apply Hkeep. unfold metrics1.
        apply lookup_insert_is_Some'. by right.
      * intros id' m' Hm'. destruct (Hload id' m' Hm') as (m1 & Hm1 & Heq).
        unfold metrics1 in Hm1.
        destruct (decide (id = id')) as [<-|Hne].
        -- rewrite lookup_insert_eq in Hm1. injection Hm1 as <-.
           exists m. by rewrite Heq.
        -- rewrite lookup_insert_ne in Hm1 by done. by exists m1.
    + set (metrics1 := <[id := _]> metrics).
      assert (∃ metrics',
                checkNodes now ping entries connections metrics1
                  (failovers + (if active node then 1 else 0))%Z
                = (probedNode ping <$> entries, metrics',
                   (failovers + (if active node then 1 else 0)
                    + Z.of_nat (length (List.filter (failsOver ping) entries)))%Z)
                ∧ (∀ id, is_Some (metrics1 !! id) → is_Some (metrics' !! id))
                ∧ (∀ id m', metrics' !! id = Some m' →
                     ∃ m, metrics1 !! id = Some m
                          ∧ requestCount m' = requestCount m))
        as (metrics' & Hrest & Hkeep & Hload).
      { apply IH. intros entry Hentry.
        destruct (Hall entry ltac:(by right)) as [Hc Hmm].
        split; [done|]. unfold metrics1.
        apply lookup_insert_is_Some'. by right. }
      exists metrics'. split; [|split].
      * assert (bool_decide (is_Some (ping id)) = false) as Hfailed.
        { apply bool_decide_eq_false_2. rewrite Hping. by intros [? ?]. }
        assert (probedNode ping (id, node) = (id, setActive false node)) as Hp.
        { unfold probedNode. cbn [fst snd]. by rewrite Hfailed. }
        assert (failsOver ping (id, node) = active node) as Hf.
        { unfold failsOver. cbn [fst snd]. rewrite Hfailed.
          apply andb_true_r. }
        rewrite fmap_cons, Hp. cbn [List.filter]. rewrite Hf.
        destruct (active node) eqn:Hactive.
        -- rewrite Hrest. cbn [length]. f_equal. lia.
        -- rewrite Z.add_0_r in Hrest. rewrite Hrest.
           rewrite <- Hactive. by rewrite setActive_same.
      * intros id' Hid'. apply Hkeep. unfold metrics1.
        apply lookup_insert_is_Some'. by right.
      * intros id' m' Hm'. destruct (Hload id' m' Hm') as (m1 & Hm1 & Heq).
        unfold metrics1 in Hm1.
        destruct (decide (id = id')) as [<-|Hne].
        -- rewrite lookup_insert_eq in Hm1. injection Hm1 as <-.
           exists m. by rewrite Heq.
        -- rewrite lookup_insert_ne in Hm1 by done. by exists m1.
Qed.

(** X25.  One round of [performHealthChecks] in a cluster whose nodes all
    have a pool and metrics (as [initializeCluster] leaves them): afterwards
    a node is flagged active exactly when its PING was answered, whatever
    its flag was before, and [failoverEvents] has grown by the number of
    nodes that were active and whose PING failed. *)
Theorem health_round_transitions (now : Z) (ping : string → option Z)
    (c : LoadBalancer.t) :
  (∀ entry, entry ∈ clusterNodes c →
     is_Some (nodeConnections c !! entry.1)
     ∧ is_Some (nodeMetrics c !! entry.1)) →
  let c' := performHealthChecks now ping c in
  clusterNodes c' = probedNode ping <$> clusterNodes c
  ∧ failoverEvents c'
    = (failoverEvents c
       + Z.of_nat (length (List.filter (failsOver ping) (clusterNodes c))))%Z
  ∧ ∀ id node, (id, node) ∈ clusterNodes c' →
      (active node = true ↔ is_Some (ping id)).
Proof.
  intros Hall c'.
  destruct (checkNodes_round now ping (nodeConnections c) (clusterNodes c)
              (nodeMetrics c) (failoverEvents c) Hall)
    as (metrics' & Hround & _).
  assert (clusterNodes c' = probedNode ping <$> clusterNodes c
          ∧ failoverEvents c'
            = (failoverEvents c
               + Z.of_nat (length (List.filter (failsOver ping)
                                     (clusterNodes c))))%Z) as [Hnodes Hcount].
  { unfold c', performHealthChecks. by rewrite Hround. }
  split; [done|]. split; [done|].
  intros id node. rewrite Hnodes.
  intros ([id0 node0] & [= -> ->] & _)%list_elem_of_fmap.
  cbn [fst snd setActive active]. apply bool_decide_eq_true.
Qed.

Lemma elem_of_mapSet {V : Type} (key : string) (value : V)
    (m : list (string * V)) (entry : string * V) :
  entry ∈ mapSet key value m → entry = (key, value) ∨ entry ∈ m.
Proof.
  induction m as [|[k v] m IH]; cbn [mapSet].
  - intros ->%list_elem_of_singleton. by left.
  - destruct (String.eqb k key).
    + intros [->|H]%elem_of_cons; [by left|right; by right].
    + intros [->|H]%elem_of_cons; [right; by left|].
      destruct (IH H) as [->|H']; [by left|right; by right].
Qed.

Lemma addNode_covered (poolSize connectionTimeout now : Z)
    (c : LoadBalancer.t) (node : NodeConfig) :
  covered portText c →
  covered portText (addNode portText poolSize connectionTimeout now c node).
Proof.
  intros Hc id cn Hin. unfold addNode in *. cbn [clusterNodes] in Hin.
  cbn [nodeConnections nodeMetrics].
  set (key := nodeIdOf portText (configHost node) (configPort node)) in *.
  apply elem_of_mapSet in Hin as [[= -> ->]|Hold].
  - split; [done|]. rewrite !lookup_insert_eq. split; [done|]. by eexists.
  - destruct (Hc id cn Hold) as (Hid & Hpool & m & Hm & Hload).
    split; [done|]. split.
    + apply lookup_insert_is_Some'. by right.
    + destruct (decide (key = id)) as [<-|Hne].
      * rewrite lookup_insert_eq. by eexists.
      * rewrite lookup_insert_ne by done. by exists m.
Qed.

Lemma initializeCluster_covered (poolSize connectionTimeout now : Z)
    (nodes : list NodeConfig) :
  ∀ c, covered portText c →
       covered portText
         (initializeCluster portText poolSize connectionTimeout now nodes c).
Proof.
  unfold initializeCluster.
  induction nodes as [|node nodes IH]; intros c Hc; [done|].
  cbn [foldl]. by apply IH, addNode_covered.
Qed.

Lemma covered_pools (c : LoadBalancer.t) :
  covered portText c →
  ∀ entry, entry ∈ clusterNodes c →
    is_Some (nodeConnections c !! entry.1)
    ∧ is_Some (nodeMetrics c !! entry.1).
Proof.
  intros Hc [id node] Hin.
  destruct (Hc id node Hin) as (_ & Hpool & m & Hm & _).
  split; [done|]. cbn [fst]. by rewrite Hm.
Qed.

Lemma performHealthChecks_covered (now : Z) (ping : string → option Z)
    (c : LoadBalancer.t) :
  covered portText c → covered portText (performHealthChecks now ping c).
Proof.
  intros Hc.
  destruct (checkNodes_round now ping (nodeConnections c) (clusterNodes c)
              (nodeMetrics c) (failoverEvents c) (covered_pools c Hc))
    as (metrics' & Hround & Hkeep & Hload).
  unfold performHealthChecks. rewrite Hround.
  intros id node. cbn [clusterNodes nodeConnections nodeMetrics].
  intros ([id0 node0] & [= -> ->] & Hold)%list_elem_of_fmap.
  cbn [fst snd].
  destruct (Hc id0 node0 Hold) as (Hid & Hpool & m & Hm & Hzero).
  split; [done|]. split; [done|].
  destruct (Hkeep id0) as [m' Hm']; [by rewrite Hm|].
  exists m'. split; [done|].
  destruct (Hload id0 m' Hm') as (m0 & Hm0 & ->). congruence.
Qed.

Lemma selectNode_covered (strategy : string) (mathRandom : float)
    (c : LoadBalancer.t) :
  covered portText c →
  covered portText (selectNode portText true strategy mathRandom c).2.
Proof.
  intros Hc. unfold selectNode. cbn [negb].
  destruct (List.filter active (snd <$> clusterNodes c)); [done|].
  destruct (String.eqb strategy "round_robin"); [done|].
  destruct (String.eqb strategy "weighted"); [done|].
  destruct (String.eqb strategy "resource_based"); [done|].
  by destruct (String.eqb strategy "adaptive").
Qed.

Lemma runAll_covered (ops : list Op) :
  ∀ c, covered portText c → covered portText (runAll portText ops c).
Proof.
  unfold runAll. induction ops as [|op ops IH]; intros c Hc; [done|].
  cbn [foldl]. apply IH. destruct op as [now ping|strategy mathRandom].
  - by apply performHealthChecks_covered.
  - by apply selectNode_covered.
Qed.

(** X26.  The request count that the resource-based strategy compares is
    set to zero by [initializeCluster] and changed by nothing: after any
    health rounds and selections every node still counts no request, so that
    [selectNode] with the strategy [resource_based] returns the first active
    node of the cluster, whatever the traffic has been. *)
Theorem resource_based_picks_first_active
    (poolSize connectionTimeout now : Z) (nodes : list NodeConfig)
    (ops : list Op) (mathRandom : float) (first : ClusterNode)
    (others : list ClusterNode) :
  let c :=
    runAll portText ops
      (initializeCluster portText poolSize connectionTimeout now nodes
         LoadBalancer.empty) in
  List.filter active (snd <$> clusterNodes c) = first :: others →
  covered portText c
  ∧ (selectNode portText true "resource_based" mathRandom c).1
    = Return (Some first).
Proof.
  intros c Hactive.
  assert (covered portText c) as Hc.
  { apply runAll_covered, initializeCluster_covered. intros id node Hin.
    by apply elem_of_nil in Hin. }
  split; [done|]. unfold selectNode. cbn [negb]. rewrite Hactive.
  change (String.eqb "resource_based" "round_robin") with false.
  change (String.eqb "resource_based" "weighted") with false.
  change (String.eqb "resource_based" "resource_based") with true.
  cbn [fst].
  assert (∀ n, n ∈ first :: others →
            ∃ m, nodeMetrics c !! nodeId portText n = Some m
                 ∧ requestCount m = 0%Z) as Hzero.
  { intros n Hn.
    assert (n ∈ List.filter active (snd <$> clusterNodes c)) as Hin
      by (by rewrite Hactive).
    apply filter_elem in Hin as [([id node] & -> & Hin)%list_elem_of_fmap _].
    destruct (Hc id node Hin) as (-> & _ & m & Hm & Hload). by exists m. }
  assert (selectResourceBased portText (nodeMetrics c) (first :: others)
          = Return first) as ->; [|done].
  unfold selectResourceBased.
  apply (foldl_first_best _ (fun _ _ => false) [] others first);
    [|intros n Hn; by apply elem_of_nil in Hn|done].
  intros chosen current (mb & Hb & Hlb)%Hzero (mc & Hc' & Hlc)%Hzero.
  unfold lessLoaded. by rewrite Hb, Hc', Hlb, Hlc.
Qed.

End Client.

Lemma selectNode_returns_active_node_witness :
  ∃ node,
    (selectNode examplePort true "weighted" 0.5%float threeNodeCluster).1
    = Return (Some node)
    ∧ node ∈ snd <$> clusterNodes threeNodeCluster
    ∧ active node = true.
Proof.
  refine (selectNode_returns_active_node examplePort "weighted" 0.5%float
            threeNodeCluster _).
  vm_compute. discriminate.
Defined.

Lemma health_round_transitions_witness :
  failoverEvents (performHealthChecks 7 firstNodeDown threeNodeCluster)
  = (failoverEvents threeNodeCluster
     + Z.of_nat (length (List.filter (failsOver firstNodeDown)
                           (clusterNodes threeNodeCluster))))%Z.
Proof.
  refine (proj1 (proj2 (health_round_transitions 7 firstNodeDown
                          threeNodeCluster _))).
  intros entry Hentry. vm_compute in Hentry.
  repeat (apply elem_of_cons in Hentry as [->|Hentry]);
    [..|by apply elem_of_nil in Hentry]; split; by eexists.
Defined.

Lemma resource_based_picks_first_active_witness :
  (selectNode examplePort true "resource_based" 0%float
     (runAll examplePort [HealthRound 7 firstNodeDown]
        (initializeCluster examplePort 10 5000 0 threeNodes
           LoadBalancer.empty))).1
  = Return (Some nodeB).
Proof.
  refine (proj2 (resource_based_picks_first_active examplePort 10 5000 0
                   threeNodes [HealthRound 7 firstNodeDown] 0%float
                   nodeB [nodeC] _)).
  reflexivity.
Defined.

End ClusterHealth.

(** ** A connection that is acquired and released again *)

Section Checkout.
Import Pool.

Lemma filter_alter_skip {A : Type} (f : A → bool) (g : A → A) (l : list A) :
  ∀ i x, l !! i = Some x → f x = false → f (g x) = false →
    List.filter f (alter g i l) = List.filter f l.
Proof.
  induction l as [|a l IH]; intros i x Hi Hx Hgx; [done|].
  destruct i as [|i]; cbn in Hi.
  - injection Hi as ->. cbn. by rewrite Hx, Hgx.
  - change (alter g (S i) (a :: l)) with (a :: alter g i l). cbn.
    by rewrite (IH i x).
Qed.

Lemma alter_app_last {A : Type} (g : A → A) (l : list A) (y : A) :
  alter g (length l) (l ++ [y]) = l ++ [g y].
Proof.
  induction l as [|a l IH]; [done|].
  cbn [length app]. change (alter g (S (length l)) (a :: (l ++ [y])))
    with (a :: alter g (length l) (l ++ [y])). by rewrite IH.
Qed.

Lemma filter_app_last {A : Type} (f : A → bool) (l : list A) (y : A) :
  f y = false → List.filter f (l ++ [y]) = List.filter f l.
Proof.
  intros Hy. rewrite List.filter_app. cbn. rewrite Hy. apply app_nil_r.
Qed.

(** X27.  A caller that releases the connection it acquired leaves the pool
    with the records in use that were in use before.  Whether [acquire()]
    found an idle connection or made a new one, after [release] of the
    connection it handed out the records marked in use are those of before
    the [acquire()], the active count of the metrics is their number, and
    the record of that connection is idle with [lastUsed] the time of the
    release. *)
Theorem acquire_then_release (now later : Z) (connectOk : bool)
    (p p1 : t) (c : nat) :
  wf p →
  acquire now connectOk p = (p1, Acquired c) →
  let p2 := release later c p1 in
  List.filter inUse (connections p2) = List.filter inUse (connections p)
  ∧ Metrics.activeConnections (metrics p2)
    = length (List.filter inUse (connections p))
  ∧ ∃ i conn, connections p2 !! i = Some conn ∧ connection conn = c
              ∧ inUse conn = false ∧ lastUsed conn = later.
Proof.
  intros Hwf. unfold acquire.
  destruct (arrayFind (idleConnected p) (connections p)) as [[i conn]|] eqn:Hfind.
  - intros Heq. injection Heq as <- <-.
    set (p2 := release later (connection conn) (takeIdle now i p)).
    pose proof (arrayFind_Some _ _ _ _ Hfind) as (Hi & Hidle & _).
    apply andb_true_iff in Hidle as [Hfree%negb_true_iff _].
    set (l1 := alter (markInUse now) i (connections p)).
    assert (l1 !! i = Some (markInUse now conn)) as Hi1.
    { unfold l1. by rewrite list_lookup_alter_eq, Hi. }
    assert (NoDup (connection <$> l1)) as Hnodup.
    { unfold l1. rewrite ids_alter by done. apply Hwf. }
    destruct (arrayFind_wraps_in l1 (markInUse now conn) Hnodup)
      as [i' Hfind'].
    { by eapply list_elem_of_lookup_2. }
    assert (i' = i) as ->.
    { pose proof (arrayFind_wraps _ _ _ _ Hfind') as (Hi' & _).
      eapply (NoDup_lookup (connection <$> l1)); [done| |].
      - by rewrite list_lookup_fmap, Hi'.
      - by rewrite list_lookup_fmap, Hi1. }
    assert (p2 = updateMetrics
                   (with_connections (alter (markReleased later) i l1)
                      (takeIdle now i p))) as Hp2.
    { unfold p2, release.
      change (connections (takeIdle now i p)) with l1.
      change (connection (markInUse now conn)) with (connection conn) in Hfind'.
      by rewrite Hfind'. }
    assert (connections p2
            = alter (markReleased later ∘ markInUse now) i (connections p))
      as Hconns.
    { rewrite Hp2. unfold l1.
      cbn [connections updateMetrics with_metrics with_connections].
      by rewrite list_alter_alter_eq. }
    assert (List.filter inUse (connections p2)
            = List.filter inUse (connections p)) as Hsame.
    { rewrite Hconns. by apply (filter_alter_skip inUse _ _ i conn). }
    split; [done|]. split.
    { rewrite <- Hsame. by rewrite Hp2. }
    exists i, (markReleased later (markInUse now conn)).
    rewrite Hconns, list_lookup_alter_eq, Hi. done.
  - destruct (Z.of_nat (length (connections p)) <? poolSize p)%Z.
    2:{ unfold checkForConnection. rewrite Hfind. done. }
    unfold createConnection. destruct connectOk; [|done].
    intros Heq. injection Heq as <- <-.
    set (r := {| connection := allocated p; inUse := true; createdAt := now;
                 lastUsed := now; healthCheckFailures := 0 |}).
    set (p1 := with_metrics _ _).
    assert (connections p1 = connections p ++ [r]) as Hconns1 by done.
    assert (arrayFind (wraps (allocated p)) (connections p1)
            = Some (length (connections p), r)) as Hfind'.
    { rewrite Hconns1. apply arrayFind_app_last.
      - intros x Hx. by apply wraps_fresh.
      - apply Nat.eqb_refl. }
    set (p2 := release later (allocated p) p1).
    assert (p2 = updateMetrics
                   (with_connections
                      (alter (markReleased later) (length (connections p))
                         (connections p1)) p1)) as Hp2.
    { unfold p2, release. by rewrite Hfind'. }
    assert (connections p2 = connections p ++ [markReleased later r])
      as Hconns.
    { rewrite Hp2. cbn [connections updateMetrics with_metrics with_connections].
      fold (connections p1). by rewrite Hconns1, alter_app_last. }
    assert (List.filter inUse (connections p2)
            = List.filter inUse (connections p)) as Hsame.
    { rewrite Hconns. by apply filter_app_last. }
    split; [done|]. split.
    { rewrite <- Hsame. by rewrite Hp2. }
    exists (length (connections p)), (markReleased later r).
    rewrite Hconns. split; [|done].
    rewrite lookup_app_r by done. by rewrite Nat.sub_diag.
Qed.

Lemma acquire_then_release_witness :
  List.filter inUse (connections (release 300 1 (acquire 200 true oneIdle).1))
  = List.filter inUse (connections oneIdle).
Proof.
  refine (proj1 (acquire_then_release 200 300 true oneIdle
                   (acquire 200 true oneIdle).1 1 _ _)).
  - apply wfb_wf. reflexivity.
  - reflexivity.
Defined.

End Checkout.

(** ** Calls of [acquire()] that overlap *)

Section Overlap.
Import Pool PoolOverlap.

(** The two parts of [acquire()] run without anything in between are
    [acquire()] as a whole. *)
Lemma acquire_in_two_parts (now : Z) (connectOk : bool) (p : t) :
  acquire now connectOk p
  = match acquireBegins now p with
    | (p1, Finished r) => (p1, r)
    | (p1, Connecting c) => acquireResumes now connectOk c p1
    end.
Proof.
  unfold acquire, acquireBegins.
  destruct (arrayFind (idleConnected p) (connections p)) as [[i conn]|] eqn:Hfind;
    [done|].
  destruct (Z.of_nat (length (connections p)) <? poolSize p)%Z.
  - unfold createConnection, acquireResumes. by destruct connectOk.
  - by destruct (checkForConnection now p _).
Qed.

Lemma beginAll_connecting (count : nat) (now : Z) :
  ∀ p, (∀ conn, conn ∈ connections p → idleConnected p conn = false) →
       (Z.of_nat (length (connections p)) < poolSize p)%Z →
       ∃ p1, beginAll count now p = (p1, seq (allocated p) count)
             ∧ connections p1 = connections p
             ∧ metrics p1 = metrics p
             ∧ poolSize p1 = poolSize p
             ∧ allocated p1 = (allocated p + count)%nat.
Proof.
  induction count as [|count IH]; intros p Hnone Hroom.
  - exists p. cbn. repeat split; lia.
  - cbn [beginAll]. unfold acquireBegins.
    rewrite (proj2 (arrayFind_None _ _) Hnone).
    rewrite (proj2 (Z.ltb_lt _ _) Hroom).
    set (p' := {| allocated := S (allocated p) |}).
    destruct (IH p') as (p1 & Hbegin & Hconns & Hmetrics & Hsize & Halloc);
      [done..|].
    exists p1. rewrite Hbegin. cbn [seq].
    repeat split; [done..|]. rewrite Halloc. cbn. lia.
Qed.

Lemma resumeAll_pushes (now : Z) (connecting : list nat) :
  ∀ p, connections (resumeAll now connecting p)
       = connections p ++ (newRecord now <$> connecting)
       ∧ Metrics.poolMisses (metrics (resumeAll now connecting p))
         = (Metrics.poolMisses (metrics p) + length connecting)%nat
       ∧ poolSize (resumeAll now connecting p) = poolSize p.
Proof.
  unfold resumeAll.
  induction connecting as [|c connecting IH]; intros p; cbn [foldl].
  - rewrite app_nil_r. cbn. repeat split; lia.
  - destruct (IH (acquireResumes now true c p).1) as (Hconns & Hmiss & Hsize).
    rewrite Hconns, Hmiss, Hsize. cbn [fmap list_fmap length].
    repeat split.
    + cbn. by rewrite <- app_assoc.
    + cbn. lia.
Qed.

(** X28.  [poolSize] does not bound calls that overlap.  When no idle
    connected record exists and the pool has room for at least one more
    connection, every [acquire()] that begins before the [connect()] of the
    others has ended passes the test of the pool size; once the connects
    have ended, the pool holds one new record in use for each of these calls,
    however many they are, and each call counts as a miss. *)
Theorem overlapping_acquires_all_connect (count : nat) (now : Z) (p : t) :
  (∀ conn, conn ∈ connections p → idleConnected p conn = false) →
  (Z.of_nat (length (connections p)) < poolSize p)%Z →
  let p' := overlappingAcquires count now p in
  connections p'
  = connections p ++ (newRecord now <$> seq (allocated p) count)
  ∧ length (connections p') = (length (connections p) + count)%nat
  ∧ Metrics.poolMisses (metrics p')
    = (Metrics.poolMisses (metrics p) + count)%nat
  ∧ poolSize p' = poolSize p.
Proof.
  intros Hnone Hroom p'. unfold p', overlappingAcquires.
  destruct (beginAll_connecting count now p Hnone Hroom)
    as (p1 & -> & Hconns & Hmetrics & Hsize & _).
  destruct (resumeAll_pushes now (seq (allocated p) count) p1)
    as (Hpushed & Hmiss & Hsize').
  rewrite Hpushed, Hmiss, Hsize', Hconns, Hmetrics, Hsize.
  rewrite length_app, length_fmap, length_seq. done.
Qed.

Lemma overlapping_acquires_all_connect_witness :
  length (connections (overlappingAcquires 3 100 (create 1 5000)))
  = (length (connections (create 1 5000)) + 3)%nat.
Proof.
  refine (proj1 (proj2 (overlapping_acquires_all_connect 3 100
                          (create 1 5000) _ _))).
  - intros conn Hconn. by apply elem_of_nil in Hconn.
  - cbn. lia.
Defined.

End Overlap.
